(** * Regularity diff engine of conjugateur-fr (docs/app.js)

    A shallow embedding of the functions of [docs/app.js] that decide how
    every letter of a conjugated form is coloured: the rule tables, the
    variant generator, the edit-distance aligner, the best-variant selector
    and the stem/union colorizer.

    JavaScript strings are sequences of UTF-16 code units; they are modelled
    as lists of code units ([N]).  The built-in [String.prototype.toLowerCase]
    is not code of the repository: it is a parameter of the development. *)

From Stdlib Require Import NArith ZArith Ascii String.
From stdpp Require Import base numbers option list.

Local Open Scope nat_scope.
Local Open Scope list_scope.

(** ** JavaScript strings *)

Abbreviation jsstring := (list N).

(** Code units of an ASCII literal. *)
Fixpoint u (s : string) : jsstring :=
  match s with
  | EmptyString => []
  | String c s' => N_of_ascii c :: u s'
  end.

Definition c_a : N := 97.
Definition c_c : N := 99.
Definition c_e : N := 101.
Definition c_g : N := 103.
Definition c_i : N := 105.
Definition c_o : N := 111.
Definition c_u : N := 117.
Definition c_y : N := 121.
Definition a_circ : N := 226.    (* â *)
Definition c_cedilla : N := 231. (* ç *)
Definition e_grave : N := 232.   (* è *)
Definition e_acute : N := 233.   (* é *)
Definition i_circ : N := 238.    (* î *)

(** [s.endsWith(t)] *)
Definition endsWith (s t : jsstring) : bool :=
  bool_decide (drop (length s - length t) s = t).

(** [s.slice(0, -k)] for a positive [k]. *)
Definition slice_end (s : jsstring) (k : nat) : jsstring :=
  take (length s - k) s.

(** ** Edit-distance aligner: [editMask] *)

Inductive Op : Type := Op_eq | Op_rep | Op_ins | Op_del.

Global Instance Op_eq_dec : EqDecision Op.
Proof. solve_decision. Defined.

(** Two-dimensional arrays [dp] and [bt]. *)
Definition tget {A} (d : A) (t : list (list A)) (i j : nat) : A :=
  default d (t !! i ≫= (.!! j)).

Definition tset {A} (t : list (list A)) (i j : nat) (v : A) : list (list A) :=
  alter (<[j:=v]>) i t.

Record Tables : Type := mkTables {
  dp : list (list nat);
  bt : list (list (option Op))   (* [None] is the initial [null] *)
}.

Definition init_tables (m n : nat) : Tables :=
  {| dp := replicate (S m) (replicate (S n) 0);
     bt := replicate (S m) (replicate (S n) None) |}.

(** [for (i = 1; i <= m; i++) { dp[i][0] = i; bt[i][0] = "del"; }] *)
Definition first_column (m : nat) (st : Tables) : Tables :=
  foldl (fun st i => {| dp := tset (dp st) i 0 i;
                        bt := tset (bt st) i 0 (Some Op_del) |})
        st (seq 1 m).

(** [for (j = 1; j <= n; j++) { dp[0][j] = j; bt[0][j] = "ins"; }] *)
Definition first_row (n : nat) (st : Tables) : Tables :=
  foldl (fun st j => {| dp := tset (dp st) 0 j j;
                        bt := tset (bt st) 0 j (Some Op_ins) |})
        st (seq 1 n).

(** [b[i - 1] === a[j - 1] ? 0 : 1] *)
Definition subst_cost (b a : jsstring) (i j : nat) : nat :=
  if bool_decide (b !! (i - 1) = a !! (j - 1)) then 0 else 1.

(** The choice made in the body of the inner loop. *)
Definition choose (cost del ins rep : nat) : nat * Op :=
  let best := rep in
  let op := if cost =? 0 then Op_eq else Op_rep in
  let '(best, op) := if ins <? best then (ins, Op_ins) else (best, op) in
  let '(best, op) := if del <? best then (del, Op_del) else (best, op) in
  (best, op).

Definition cell_step (a b : jsstring) (i : nat) (st : Tables) (j : nat) : Tables :=
  let cost := subst_cost b a i j in
  let del := tget 0 (dp st) (i - 1) j + 1 in
  let ins := tget 0 (dp st) i (j - 1) + 1 in
  let rep := tget 0 (dp st) (i - 1) (j - 1) + cost in
  let '(best, op) := choose cost del ins rep in
  {| dp := tset (dp st) i j best; bt := tset (bt st) i j (Some op) |}.

Definition fill_row (a b : jsstring) (n : nat) (st : Tables) (i : nat) : Tables :=
  foldl (cell_step a b i) st (seq 1 n).

Definition fill (a b : jsstring) (m n : nat) (st : Tables) : Tables :=
  foldl (fill_row a b n) st (seq 1 m).

Definition tables (a b : jsstring) : Tables :=
  let n := length a in
  let m := length b in
  fill a b m n (first_row n (first_column m (init_tables m n))).

(** State of the backtrace loop [while (i > 0 || j > 0)]. *)
Record BtState : Type := mkBt { bt_i : nat; bt_j : nat; bt_mask : list bool }.

(** One iteration; [None] when the loop is left (condition false, or
    [break] on a [null] entry).  [i] and [j] are only decremented at cells
    whose entry was written for a positive index, so the truncated
    subtraction of [nat] is never exercised (see [backtrace_exits]). *)
Definition bt_iter (t : list (list (option Op))) (s : BtState) : option BtState :=
  let '(mkBt i j mask) := s in
  if (0 <? i) || (0 <? j) then
    match tget None t i j with
    | Some Op_eq => Some (mkBt (i - 1) (j - 1) mask)
    | Some Op_rep => Some (mkBt (i - 1) (j - 1) (<[j - 1 := true]> mask))
    | Some Op_ins => Some (mkBt i (j - 1) (<[j - 1 := true]> mask))
    | Some Op_del => Some (mkBt (i - 1) j mask)
    | None => None
    end
  else None.

Fixpoint backtrace (t : list (list (option Op))) (fuel : nat) (s : BtState) : BtState :=
  match fuel with
  | 0 => s
  | S fuel' =>
      match bt_iter t s with
      | Some s' => backtrace t fuel' s'
      | None => s
      end
  end.

Record EditResult : Type := mkEdit { score : nat; mask : list bool }.

(** Every iteration of the backtrace decrements [i] or [j]: [m + n]
    iterations are enough (see [backtrace_exits]). *)
Definition editMask (actual expected : jsstring) : EditResult :=
  let a := actual in
  let b := expected in
  let n := length a in
  let m := length b in
  let t := tables a b in
  let s := backtrace (bt t) (m + n) (mkBt m n (replicate n false)) in
  {| score := tget 0 (dp t) m n; mask := bt_mask s |}.

(** ** Rule tables *)

Inductive VerbGroup : Type := G_er | G_ir | G_re | G_other.

Global Instance VerbGroup_eq_dec : EqDecision VerbGroup.
Proof. solve_decision. Defined.

(** The tense keys ["present"], ["imparfait"], ["passe_simple"], ["futur"];
    [T_unknown] stands for any other string. *)
Inductive TenseKey : Type :=
  T_present | T_imparfait | T_passe_simple | T_futur | T_unknown.

Global Instance TenseKey_eq_dec : EqDecision TenseKey.
Proof. solve_decision. Defined.

Definition verbGroup (inf : jsstring) : VerbGroup :=
  if endsWith inf (u "er") then G_er
  else if endsWith inf (u "ir") then G_ir
  else if endsWith inf (u "re") then G_re
  else G_other.

Definition linguisticStem (inf : jsstring) : jsstring :=
  if endsWith inf (u "er") then slice_end inf 2
  else if endsWith inf (u "ir") then slice_end inf 2
  else if endsWith inf (u "re") then slice_end inf 2
  else inf.

Definition present_er : list jsstring :=
  [u "e"; u "es"; u "e"; u "ons"; u "ez"; u "ent"].
Definition present_ir : list jsstring :=
  [u "is"; u "is"; u "it"; u "issons"; u "issez"; u "issent"].
Definition present_re : list jsstring :=
  [u "s"; u "s"; []; u "ons"; u "ez"; u "ent"].
Definition imparfait_all : list jsstring :=
  [u "ais"; u "ais"; u "ait"; u "ions"; u "iez"; u "aient"].
Definition futur_all : list jsstring :=
  [u "ai"; u "as"; u "a"; u "ons"; u "ez"; u "ont"].
Definition passe_simple_er : list jsstring :=
  [u "ai"; u "as"; u "a"; a_circ :: u "mes"; a_circ :: u "tes"; e_grave :: u "rent"].
Definition passe_simple_ir_re : list jsstring :=
  [u "is"; u "is"; u "it"; i_circ :: u "mes"; i_circ :: u "tes"; u "irent"].

(** The result is a string or, when [personIndex] is outside the array,
    [undefined] ([None]). *)
Definition regularEnding (inf : jsstring) (tenseKey : TenseKey) (personIndex : nat)
  : option jsstring :=
  let group := verbGroup inf in
  match tenseKey with
  | T_present =>
      match group with
      | G_er => present_er !! personIndex
      | G_ir => present_ir !! personIndex
      | G_re => present_re !! personIndex
      | G_other => Some []
      end
  | T_imparfait => imparfait_all !! personIndex
  | T_futur => futur_all !! personIndex
  | T_passe_simple =>
      match group with
      | G_er => passe_simple_er !! personIndex
      | G_ir | G_re => passe_simple_ir_re !! personIndex
      | G_other => Some []
      end
  | T_unknown => Some []
  end.

(** [s + e] where [e] may be [undefined]. *)
Definition js_concat (s : jsstring) (e : option jsstring) : jsstring :=
  s ++ default (u "undefined") e.

(** Truthiness of a string: non-empty. *)
Definition truthy (s : jsstring) : bool :=
  match s with [] => false | _ :: _ => true end.

Record Stems : Type := mkStems { imparfaitStem : option jsstring }.

Definition expectedBaseForm (inf : jsstring) (tenseKey : TenseKey) (personIndex : nat)
    (stems : option Stems) : jsstring :=
  let group := verbGroup inf in
  let stem := if decide (group = G_other) then inf else slice_end inf 2 in
  match tenseKey with
  | T_present =>
      let ending := regularEnding inf tenseKey personIndex in
      js_concat stem ending
  | T_imparfait =>
      let ending := regularEnding inf tenseKey personIndex in
      let base :=
        match stems ≫= imparfaitStem with
        | Some (c :: s) => c :: s
        | _ => if decide (group = G_ir) then stem ++ u "iss" else stem
        end in
      js_concat base ending
  | T_futur =>
      let ending := regularEnding inf tenseKey personIndex in
      let base := if decide (group = G_re) then slice_end inf 1 else inf in
      js_concat base ending
  | T_passe_simple =>
      let ending := regularEnding inf tenseKey personIndex in
      js_concat stem ending
  | T_unknown => []
  end.

(** [[...new Set(xs)]]: the distinct elements in order of first insertion. *)
Fixpoint uniq (xs : list jsstring) : list jsstring :=
  match xs with
  | [] => []
  | x :: xs' => x :: filter (fun y => y ≠ x) (uniq xs')
  end.

Definition is_a_acirc_o (c : N) : bool :=
  bool_decide (c = c_a) || bool_decide (c = a_circ) || bool_decide (c = c_o).

Definition followed_by_aao (rest : jsstring) : bool :=
  match rest with x :: _ => is_a_acirc_o x | [] => false end.

(** [form.replace(/c(?=[aâo])/g, "ç")] *)
Fixpoint replace_c (form : jsstring) : jsstring :=
  match form with
  | [] => []
  | x :: rest =>
      (if bool_decide (x = c_c) && followed_by_aao rest then c_cedilla else x)
        :: replace_c rest
  end.

(** [form.replace(/g(?=[aâo])/g, "ge")] *)
Fixpoint replace_g (form : jsstring) : jsstring :=
  match form with
  | [] => []
  | x :: rest =>
      (if bool_decide (x = c_g) && followed_by_aao rest then [c_g; c_e] else [x])
        ++ replace_g rest
  end.

(** [s.lastIndexOf(c)] for a one-unit string [c]; [None] is [-1]. *)
Fixpoint lastIndexOf (s : jsstring) (c : N) : option nat :=
  match s with
  | [] => None
  | x :: s' =>
      match lastIndexOf s' c with
      | Some k => Some (S k)
      | None => if bool_decide (x = c) then Some 0 else None
      end
  end.

(** [s.slice(0, idx) + d + s.slice(idx + 1)] *)
Definition splice1 (s : jsstring) (idx : nat) (d : N) : jsstring :=
  take idx s ++ [d] ++ drop (S idx) s.

Definition yToIVariants (stem : jsstring) (optional : bool) : list jsstring :=
  if negb (bool_decide (c_y ∈ stem)) then [stem]
  else match lastIndexOf stem c_y with
       | None => [stem]
       | Some idx =>
           let changed := splice1 stem idx c_i in
           if optional then [stem; changed] else [changed]
       end.

Definition silentE (personIndex : nat) : bool :=
  bool_decide (personIndex ∈ [0; 1; 2; 5]).

Definition eToEGrave (stem : jsstring) : jsstring :=
  match lastIndexOf stem c_e with
  | None => stem
  | Some idx => splice1 stem idx e_grave
  end.

Definition eAcuteToEGrave (stem : jsstring) : jsstring :=
  match lastIndexOf stem e_acute with
  | None => stem
  | Some idx => splice1 stem idx e_grave
  end.

Definition is_aeiouy (c : N) : bool :=
  bool_decide (c ∈ [c_a; c_e; c_i; c_o; c_u; c_y]).

(** The run matched by [[^aeiouy]*] read backwards from the final ["er"]:
    [rev_body] is the string without its last two units, reversed. *)
Fixpoint consonant_run (rev_body : jsstring) : jsstring * jsstring :=
  match rev_body with
  | [] => ([], [])
  | x :: rest =>
      if is_aeiouy x then ([], rev_body)
      else let '(run, tl) := consonant_run rest in (x :: run, tl)
  end.

(** [/é[^aeiouy]*er$/.test(lower)]: ["é"] is itself outside [[aeiouy]], so
    the test holds when the run of non-[aeiouy] units before the final
    ["er"] contains an ["é"]. *)
Definition test_e_acute_er (lower : jsstring) : bool :=
  endsWith lower (u "er")
  && bool_decide (e_acute ∈ (consonant_run (reverse (slice_end lower 2))).1).

(** [/e[^aeiouy]*er$/.test(lower)]: the unit before that run is an ["e"]. *)
Definition test_e_er (lower : jsstring) : bool :=
  endsWith lower (u "er")
  && match (consonant_run (reverse (slice_end lower 2))).2 with
     | x :: _ => bool_decide (x = c_e)
     | [] => false
     end.

(** ** Edit-distance selector *)

(** [bestScore], initially [Infinity] ([None]). *)
Definition score_lt (s : nat) (bestScore : option nat) : bool :=
  match bestScore with None => true | Some b => s <? b end.

(** The [for ... of] loop of [bestExpectedMask]; the second component is the
    part of the list the loop has not visited when it is left. *)
Fixpoint bestExpectedMask_loop (actual : jsstring) (vs : list jsstring)
    (best : option (list bool)) (bestScore : option nat)
  : option (list bool) * list jsstring :=
  match vs with
  | [] => (best, [])
  | exp :: rest =>
      let r := editMask actual exp in
      if score_lt (score r) bestScore then
        if score r =? 0 then (Some (mask r), rest)
        else bestExpectedMask_loop actual rest (Some (mask r)) (Some (score r))
      else bestExpectedMask_loop actual rest best bestScore
  end.

(** [None] is [null]. *)
Definition bestExpectedMask (actual : jsstring) (expectedVariants : list jsstring)
  : option (list bool) :=
  match expectedVariants with
  | [] => None
  | _ => (bestExpectedMask_loop actual expectedVariants None None).1
  end.

(** ** Code points and [indexOf] *)

Definition is_high_surrogate (c : N) : bool := (55296 <=? c)%N && (c <=? 56319)%N.
Definition is_low_surrogate (c : N) : bool := (56320 <=? c)%N && (c <=? 57343)%N.

(** The strings yielded by [for (const ch of s)]: one per code point, a
    surrogate pair being kept together. *)
Fixpoint codePoints (s : jsstring) : list jsstring :=
  match s with
  | [] => []
  | c :: rest =>
      match rest with
      | d :: rest' =>
          if is_high_surrogate c && is_low_surrogate d
          then [c; d] :: codePoints rest'
          else [c] :: codePoints rest
      | [] => [[c]]
      end
  end.

Fixpoint find_from (s pat : jsstring) (k : nat) : option nat :=
  if bool_decide (take (length pat) s = pat) then Some k
  else match s with
       | [] => None
       | _ :: s' => find_from s' pat (S k)
       end.

(** [s.indexOf(pat, from)] *)
Definition indexOf (s pat : jsstring) (from : Z) : Z :=
  let start := Z.to_nat (Z.max from 0) `min` length s in
  match find_from (drop start s) pat start with
  | Some k => Z.of_nat k
  | None => (-1)%Z
  end.

(** [arr[idx] = v] on an array of booleans: an index past the end extends
    the array; the holes read as [undefined], which is falsy, and are
    modelled as [false]. *)
Definition js_set (arr : list bool) (idx : nat) (v : bool) : list bool :=
  if idx <? length arr then <[idx := v]> arr
  else arr ++ replicate (idx - length arr) false ++ [v].

(** Truthiness of [arr[i]]. *)
Definition flag (arr : list bool) (i : nat) : bool := default false (arr !! i).

Inductive Mode : Type := black | normal | hi.

Global Instance Mode_eq_dec : EqDecision Mode.
Proof. solve_decision. Defined.

(** The pieces appended to [out] by [colorizeForm]: an opening tag for a
    mode, one (escaped) character, a closing tag. *)
Inductive Html : Type :=
  | SpanOpen (m : Mode)
  | Text (c : N)
  | SpanClose.

(** The class of every character of a rendered form: the mode of the span
    that encloses it. *)
Fixpoint char_classes (cur : option Mode) (out : list Html) : list (option Mode) :=
  match out with
  | [] => []
  | SpanOpen m :: out' => char_classes (Some m) out'
  | Text _ :: out' => cur :: char_classes cur out'
  | SpanClose :: out' => char_classes None out'
  end.

Inductive ShortKey : Type := K_pr | K_imp | K_ps | K_fut.

Definition tenseMap (k : ShortKey) : TenseKey :=
  match k with
  | K_pr => T_present
  | K_imp => T_imparfait
  | K_ps => T_passe_simple
  | K_fut => T_futur
  end.

(** The cell built by [buildTenseCell], reduced to what the engine decides:
    the empty cell, or the six coloured forms. *)
Inductive TenseCell : Type :=
  | EmptyCell
  | Cell (colored : list (list Html)).

Section Engine.

(** [String.prototype.toLowerCase] *)
Variable toLowerCase : jsstring -> jsstring.

Definition lower_eq (c d : N) : bool :=
  bool_decide (toLowerCase [c] = toLowerCase [d]).

(** The inner loop of [applyBlackUnionRules]: the [tmp] built from
    [shared] and [form]. *)
Fixpoint common_run (shared form : jsstring) : jsstring :=
  match shared, form with
  | c :: shared', d :: form' =>
      if lower_eq c d then c :: common_run shared' form' else []
  | _, _ => []
  end.

Fixpoint applyBlackUnionRules_loop (shared : jsstring) (rest : list jsstring)
  : jsstring :=
  match rest with
  | [] => shared
  | form :: rest' =>
      let tmp := common_run shared form in
      if truthy tmp then applyBlackUnionRules_loop tmp rest' else tmp
  end.

Definition applyBlackUnionRules (forms : list jsstring) : jsstring :=
  match forms with
  | [] => []
  | form0 :: rest => applyBlackUnionRules_loop form0 rest
  end.

(** The loop of [markStemLetters] over the code points [chs] of the
    lower-cased stem. *)
Fixpoint markStemLetters_loop (lower : jsstring) (chs : list jsstring)
    (isBlack : list bool) (lastIdx : Z) : list bool :=
  match chs with
  | [] => isBlack
  | ch :: chs' =>
      let idx := indexOf lower ch (lastIdx + 1) in
      if (idx =? -1)%Z then isBlack
      else markStemLetters_loop lower chs' (js_set isBlack (Z.to_nat idx) true) idx
  end.

Definition markStemLetters (form stem : jsstring) : list bool :=
  let isBlack := replicate (length form) false in
  let lower := toLowerCase form in
  markStemLetters_loop lower (codePoints (toLowerCase stem)) isBlack (-1).

(** The loop of [mergeSharedPrefix] from index [i] on; [sp] is what is
    left of [sharedPrefix] from that index. *)
Fixpoint mergeSharedPrefix_from (i : nat) (sp : jsstring) (form : jsstring)
    (isBlack : list bool) : list bool :=
  match sp with
  | [] => isBlack
  | c :: sp' =>
      match form !! i with
      | Some d =>
          if lower_eq d c
          then mergeSharedPrefix_from (S i) sp' form (js_set isBlack i true)
          else isBlack
      | None => isBlack
      end
  end.

Definition mergeSharedPrefix (isBlack : list bool) (form sharedPrefix : jsstring)
  : list bool :=
  mergeSharedPrefix_from 0 sharedPrefix form isBlack.

Definition cerGerVariants (form inf : jsstring) (ending : option jsstring)
  : list jsstring :=
  let lower := toLowerCase inf in
  let first : jsstring :=
    match ending with Some (c :: _) => [c] | _ => [] end in
  let in_aao := bool_decide (first ∈ [[c_a]; [a_circ]; [c_o]]) in
  uniq ([form]
        ++ (if endsWith lower (u "cer") && in_aao then [replace_c form] else [])
        ++ (if endsWith lower (u "ger") && in_aao then [replace_g form] else [])).

Definition yerStemVariants (stem inf : jsstring) (tenseKey : TenseKey)
    (personIndex : nat) : list jsstring :=
  if negb (bool_decide (tenseKey = T_present)) then [stem]
  else if negb (silentE personIndex) then [stem]
  else
    let lower := toLowerCase inf in
    if endsWith lower (u "oyer") || endsWith lower (u "uyer")
    then yToIVariants stem false
    else if endsWith lower (u "ayer") then yToIVariants stem true
    else [stem].

Definition eerStemVariants (stem inf : jsstring) (tenseKey : TenseKey)
    (personIndex : nat) : list jsstring :=
  if negb (bool_decide (tenseKey = T_present)) then [stem]
  else if negb (silentE personIndex) then [stem]
  else
    let lower := toLowerCase inf in
    uniq ([stem]
          ++ (if test_e_acute_er lower then [eAcuteToEGrave stem]
              else if test_e_er lower then [eToEGrave stem]
              else [])).

Definition elerEterStemVariants (stem inf : jsstring) (tenseKey : TenseKey)
    (personIndex : nat) : list jsstring :=
  if negb (bool_decide (tenseKey = T_present)) then [stem]
  else if negb (silentE personIndex) then [stem]
  else
    let lower := toLowerCase inf in
    if negb (endsWith lower (u "eler") || endsWith lower (u "eter")) then [stem]
    else
      uniq ([stem; eToEGrave stem]
            ++ (if endsWith lower (u "eler") && endsWith stem (u "el")
                then let doubled := slice_end stem 1 ++ u "ll" in
                     [doubled; eToEGrave doubled]
                else [])
            ++ (if endsWith lower (u "eter") && endsWith stem (u "et")
                then let doubled := slice_end stem 1 ++ u "tt" in
                     [doubled; eToEGrave doubled]
                else [])).

Definition expectedRegularVariants (inf : jsstring) (tenseKey : TenseKey)
    (personIndex : nat) (stems : option Stems) : list jsstring :=
  let group := verbGroup inf in
  let base := expectedBaseForm inf tenseKey personIndex stems in
  if negb (truthy base) then []
  else
    let ending := regularEnding inf tenseKey personIndex in
    let variants := cerGerVariants base inf ending in
    let expanded :=
      if bool_decide (tenseKey = T_present) && negb (bool_decide (group = G_other))
      then
        let stem := slice_end inf 2 in
        let end_ := regularEnding inf T_present personIndex in
        st1 ← yerStemVariants stem inf tenseKey personIndex;
        st2 ← eerStemVariants st1 inf tenseKey personIndex;
        st3 ← elerEterStemVariants st2 inf tenseKey personIndex;
        [js_concat st3 end_]
      else [] in
    filter (fun v => truthy v = true) (uniq (variants ++ expanded)).

(** [nextMode] in the loop of [colorizeForm]. *)
Definition nextMode (isBlack : list bool) (irregularMask : option (list bool))
    (i : nat) : Mode :=
  if flag isBlack i then black
  else if match irregularMask with Some m => flag m i | None => false end
  then hi
  else normal.

(** The loop of [colorizeForm] from index [i] on; [rest] is what is left
    of [form] from that index. *)
Fixpoint colorize_loop (isBlack : list bool) (irregularMask : option (list bool))
    (i : nat) (rest : jsstring) (mode : option Mode) (out : list Html)
  : option Mode * list Html :=
  match rest with
  | [] => (mode, out)
  | c :: rest' =>
      let next := nextMode isBlack irregularMask i in
      let '(mode', out') :=
        if bool_decide (mode = Some next) then (mode, out)
        else (Some next,
              (if mode is Some _ then out ++ [SpanClose] else out) ++ [SpanOpen next]) in
      colorize_loop isBlack irregularMask (S i) rest' mode' (out' ++ [Text c])
  end.

Definition colorizeForm (form sharedPrefix stem : jsstring)
    (irregularMask : option (list bool)) : list Html :=
  let isBlack := markStemLetters form stem in
  let isBlack := mergeSharedPrefix isBlack form sharedPrefix in
  let '(mode, out) := colorize_loop isBlack irregularMask 0 form None [] in
  if mode is Some _ then out ++ [SpanClose] else out.

End Engine.

(** [toLowerCase] as it acts on Latin-1 text (which French text is made
    of): [A]-[Z] and [À]-[Þ] except [×] move by 32, every other unit is
    kept.  It is only used to run the functions above on concrete inputs,
    all of them strings that the built-in lower-cases unit by unit in this
    way. *)
Definition latin1LowerUnit (c : N) : N :=
  if ((65 <=? c) && (c <=? 90))%N then (c + 32)%N
  else if ((192 <=? c) && (c <=? 222) && negb (c =? 215))%N then (c + 32)%N
  else c.

Definition latin1Lower (s : jsstring) : jsstring := map latin1LowerUnit s.

(** ** The alignment in the words of the specification

    These definitions do not come from the code: they state the classic
    Levenshtein recurrence and the preference order
    substitution/match, then insertion, then deletion, so that the tables
    and the backtrace of [editMask] can be compared with them. *)

(** Distance between the first [i] units of [b] (expected) and the first
    [j] units of [a] (attested). *)
Fixpoint lev (b a : jsstring) (i : nat) {struct i} : nat -> nat :=
  match i with
  | 0 => fun j => j
  | S i' =>
      fix row (j : nat) : nat :=
        match j with
        | 0 => S i'
        | S j' =>
            Nat.min (Nat.min (lev b a i' j' + subst_cost b a (S i') (S j'))
                             (row j' + 1))
                    (lev b a i' (S j') + 1)
        end
  end.

(** Substitution/match when it is among the cheapest, else insertion when
    it is at least as cheap as deletion, else deletion. *)
Definition pref_op (cost rep ins del : nat) : Op :=
  if (rep <=? ins) && (rep <=? del) then (if cost =? 0 then Op_eq else Op_rep)
  else if ins <=? del then Op_ins
  else Op_del.

Definition spec_op (b a : jsstring) (i j : nat) : option Op :=
  match i, j with
  | 0, 0 => None
  | 0, S _ => Some Op_ins
  | S _, 0 => Some Op_del
  | S i', S j' =>
      let cost := subst_cost b a i j in
      Some (pref_op cost (lev b a i' j' + cost) (lev b a i j' + 1) (lev b a i' j + 1))
  end.

(** A step of the edit path: the operation taken at cell [(i, j)]. *)
Definition Step : Type := Op * nat * nat.

(** The path from cell [(i, j)] back to [(0, 0)]. *)
Fixpoint spec_path (b a : jsstring) (i : nat) {struct i} : nat -> list Step :=
  match i with
  | 0 =>
      fix row (j : nat) : list Step :=
        match j with
        | 0 => []
        | S j' => (Op_ins, 0, j) :: row j'
        end
  | S i' =>
      fix row (j : nat) : list Step :=
        match j with
        | 0 => (Op_del, i, 0) :: spec_path b a i' 0
        | S j' =>
            match spec_op b a i j with
            | Some Op_ins => (Op_ins, i, j) :: row j'
            | Some Op_del => (Op_del, i, j) :: spec_path b a i' j
            | Some Op_rep => (Op_rep, i, j) :: spec_path b a i' j'
            | _ => (Op_eq, i, j) :: spec_path b a i' j'
            end
        end
  end.

(** Whether the path marks the attested position [k]: a substitution or an
    insertion consumes the attested unit of column [k + 1]. *)
Definition marks (path : list Step) (k : nat) : bool :=
  existsb (fun '(op, _, j) =>
             (j =? S k) && (bool_decide (op = Op_rep) || bool_decide (op = Op_ins)))
          path.

(** The steps that consume an attested unit, with their column. *)
Definition consuming (path : list Step) : list Step :=
  filter (fun s : Step => s.1.1 ≠ Op_del) path.

(** ** Invariants of the table-filling loops *)

(** A table with [R] rows of [C] entries. *)
Definition shaped {A} (R C : nat) (t : list (list A)) : Prop :=
  length t = R ∧ ∀ i r, t !! i = Some r → length r = C.

(** On the cells selected by [P], the tables hold the distance and the
    preferred operation. *)
Definition agrees (a b : jsstring) (P : nat → nat → Prop) (st : Tables) : Prop :=
  shaped (S (length b)) (S (length a)) (dp st)
  ∧ shaped (S (length b)) (S (length a)) (bt st)
  ∧ ∀ i j, i ≤ length b → j ≤ length a → P i j →
      tget 0 (dp st) i j = lev b a i j ∧ tget None (bt st) i j = spec_op b a i j.

(** Cells written once the inner loop is about to handle [(i0, j0)]. *)
Definition filled (i0 j0 : nat) (i j : nat) : Prop :=
  i = 0 ∨ j = 0 ∨ i < i0 ∨ (i = i0 ∧ j < j0).

(** Application of a path to a mask, the way the backtrace loop does it. *)
Definition apply_step (mask : list bool) (s : Step) : list bool :=
  match s with
  | (Op_rep, _, j) | (Op_ins, _, j) => <[j - 1 := true]> mask
  | _ => mask
  end.

(** ** The stem scan and the prefix match, stated on their own *)

(** The indices consumed, in scan order, by the greedy left-to-right scan
    of the code points [chs] in [lower], the previous index being
    [lastIdx]. *)
Fixpoint stemScan (lower : jsstring) (chs : list jsstring) (lastIdx : Z) : list Z :=
  match chs with
  | [] => []
  | ch :: chs' =>
      let idx := indexOf lower ch (lastIdx + 1) in
      if (idx =? -1)%Z then [] else idx :: stemScan lower chs' idx
  end.

(** The mode of the span left open by the pieces [out]. *)
Fixpoint cur_after (cur : option Mode) (out : list Html) : option Mode :=
  match out with
  | [] => cur
  | SpanOpen m :: out' => cur_after (Some m) out'
  | Text _ :: out' => cur_after cur out'
  | SpanClose :: out' => cur_after None out'
  end.

(** [r] is, unit by unit and up to case, a prefix of [f]. *)
Definition ci_prefix_of (toLowerCase : jsstring → jsstring) (r f : jsstring) : Prop :=
  length r ≤ length f
  ∧ ∀ i c d, r !! i = Some c → f !! i = Some d → toLowerCase [c] = toLowerCase [d].

(** ** Concrete inputs *)

(** ["haïr"], an infinitive that ends in none of [er], [ir], [re]. *)
Definition hair : jsstring := [104; 97; 239; 114]%N.

Definition appele_grave : jsstring := u "app" ++ e_grave :: u "le".

Definition parler_six : list jsstring :=
  Eval vm_compute in
    [u "parle"; u "parles"; u "parle"; u "parlons"; u "parlez"; u "parlent"].

Definition parler_five : list jsstring :=
  Eval vm_compute in [u "parle"; u "parles"; u "parle"; u "parlons"; u "parlez"].

(** ["😀er"]: an infinitive in [er] whose stem is one code point outside
    the basic plane, that is two code units (a surrogate pair). *)
Definition emoji_er : jsstring := [55357; 56832; 101; 114]%N.

Definition emoji_ais : jsstring := [55357; 56832; 97; 105; 115]%N.

(** The stems object built from a present [nous] form ["xons"]. *)
Definition stems_x : option Stems := Some {| imparfaitStem := Some [120%N] |}.

Definition emoji_present : list jsstring :=
  Eval vm_compute in [u "a"; u "b"; u "c"; u "xons"; u "d"; u "e"].

Definition emoji_imparfait : list jsstring :=
  Eval vm_compute in
    [emoji_ais; u "xais"; u "xait"; u "xions"; u "xiez"; u "xaient"].

(** ** Counting, for the further properties *)

(** Number of entries of a mask that are set. *)
Definition count_true (l : list bool) : nat :=
  length (filter (fun x => x = true) l).

(** Number of steps of a path that take the operation [op]. *)
Definition count_op (op : Op) (path : list Step) : nat :=
  length (filter (fun s : Step => s.1.1 = op) path).

(** Whether some [c] of the string is immediately followed by one of
    [a], [â], [o]: the positions matched by [/c(?=[aâo])/]. *)
Fixpoint has_before_aao (c : N) (s : jsstring) : bool :=
  match s with
  | [] => false
  | x :: rest => (bool_decide (x = c) && followed_by_aao rest) || has_before_aao c rest
  end.

(** ** Reading the pieces of a rendered form *)

(** The characters carried by the pieces, in order. *)
Fixpoint html_text (out : list Html) : jsstring :=
  match out with
  | [] => []
  | Text c :: out' => c :: html_text out'
  | _ :: out' => html_text out'
  end.

(** The pieces of a sequence of spans: for each span an opening tag, its
    characters, a closing tag. *)
Fixpoint render_spans (sp : list (Mode * jsstring)) : list Html :=
  match sp with
  | [] => []
  | (m, s) :: sp' => SpanOpen m :: (Text <$> s) ++ SpanClose :: render_spans sp'
  end.

(** No two neighbours are equal. *)
Fixpoint alternate (ms : list Mode) : Prop :=
  match ms with
  | [] => True
  | m1 :: tl =>
      match tl with
      | [] => True
      | m2 :: _ => m1 ≠ m2 ∧ alternate tl
      end
  end.

(** The two coloured forms of [buildParticiplesCell]: [pres] and [past] are
    [v.part.pres.f] and [v.part.past.f], the empty string when absent; a
    participle that is absent is not rendered ([None]). *)
Definition buildParticiplesCell (toLowerCase : jsstring → jsstring)
    (w pres past : jsstring) : option (list Html) * option (list Html) :=
  let stem := linguisticStem w in
  let forms := filter (fun f => truthy f = true) [pres; past] in
  let shared := applyBlackUnionRules toLowerCase forms in
  let colored form := colorizeForm toLowerCase form shared stem None in
  (if truthy pres then Some (colored pres) else None,
   if truthy past then Some (colored past) else None).

(** ** [escapeHtml] *)

(** [s.replaceAll(c, r)] for a search string of one unit [c] and a
    replacement [r] that holds no [$]. *)
Definition replaceAll1 (c : N) (r : jsstring) (s : jsstring) : jsstring :=
  s ≫= (fun x => if bool_decide (x = c) then r else [x]).

Definition amp_entity : jsstring := Eval vm_compute in u "&amp;".
Definition lt_entity : jsstring := Eval vm_compute in u "&lt;".
Definition gt_entity : jsstring := Eval vm_compute in u "&gt;".
Definition quot_entity : jsstring := Eval vm_compute in u "&quot;".
Definition apos_entity : jsstring := Eval vm_compute in u "&#x27;".

Definition escapeHtml (text : jsstring) : jsstring :=
  replaceAll1 39 apos_entity
    (replaceAll1 34 quot_entity
       (replaceAll1 62 gt_entity
          (replaceAll1 60 lt_entity
             (replaceAll1 38 amp_entity text)))).

(** The entity of one unit, for comparison with the five passes of
    [escapeHtml]. *)
Definition escape_unit (c : N) : jsstring :=
  if bool_decide (c = 38%N) then amp_entity
  else if bool_decide (c = 60%N) then lt_entity
  else if bool_decide (c = 62%N) then gt_entity
  else if bool_decide (c = 34%N) then quot_entity
  else if bool_decide (c = 39%N) then apos_entity
  else [c].

(** ** The IPA labels *)

Fixpoint dropWhileB (p : N → bool) (s : jsstring) : jsstring :=
  match s with
  | [] => []
  | x :: s' => if p x then dropWhileB p s' else s
  end.

Fixpoint takeWhileB (p : N → bool) (s : jsstring) : jsstring :=
  match s with
  | [] => []
  | x :: s' => if p x then x :: takeWhileB p s' else []
  end.

(** [s.replace(/^c/, "")] for a unit [c] *)
Definition strip_leading (c : N) (s : jsstring) : jsstring :=
  match s with
  | x :: s' => if bool_decide (x = c) then s' else s
  | [] => []
  end.

(** [s.replace(/c$/, "")] for a unit [c] *)
Definition strip_trailing (c : N) (s : jsstring) : jsstring :=
  match reverse s with
  | x :: r => if bool_decide (x = c) then reverse r else s
  | [] => []
  end.

(** [s.replace(/^c+/, "")] and [s.replace(/c+$/, "")] *)
Definition strip_leading_run (c : N) (s : jsstring) : jsstring :=
  dropWhileB (fun x => bool_decide (x = c)) s.

Definition strip_trailing_run (c : N) (s : jsstring) : jsstring :=
  reverse (dropWhileB (fun x => bool_decide (x = c)) (reverse s)).

(** The first two lines of [extractIpaEnding] and [extractIpaFull]: one
    leading ["["] and one trailing ["]"] removed, then the leading and the
    trailing backslashes. *)
Definition ipa_core (ipa : jsstring) : jsstring :=
  strip_trailing_run 92
    (strip_leading_run 92 (strip_trailing 93 (strip_leading 91 ipa))).

Definition not_space (x : N) : bool := negb (bool_decide (x = 32%N)).

Definition extractIpaEnding (ipa : jsstring) : jsstring :=
  if negb (truthy ipa) then []
  else
    let s := ipa_core ipa in
    (* s.split(" ", 2)[1]: what stands between the first space and the next *)
    if bool_decide (32%N ∈ s)
    then takeWhileB not_space (drop 1 (dropWhileB not_space s))
    (* s.slice(s.indexOf("‿")) *)
    else if bool_decide (8255%N ∈ s)
    then dropWhileB (fun x => negb (bool_decide (x = 8255%N))) s
    else if 2 <? length s then drop (length s - 2) s
    else s.

(** White space and line terminators, the units removed by [trim]. *)
Definition is_js_space (c : N) : bool :=
  bool_decide (c ∈ [9; 10; 11; 12; 13; 32; 160; 5760; 8232; 8233; 8239; 8287;
                    12288; 65279]%N)
  || ((8192 <=? c)%N && (c <=? 8202)%N).

(** [s.trim()] *)
Definition trim (s : jsstring) : jsstring :=
  reverse (dropWhileB is_js_space (reverse (dropWhileB is_js_space s))).

Definition extractIpaFull (ipa : jsstring) : jsstring :=
  if negb (truthy ipa) then [] else trim (ipa_core ipa).

(** ** The search box *)

Definition is_combining_mark (c : N) : bool := (768 <=? c)%N && (c <=? 879)%N.

(** [s.startsWith(q)] and [s.includes(q)] *)
Definition startsWith (s q : jsstring) : bool := bool_decide (take (length q) s = q).

Definition includes (s q : jsstring) : bool :=
  match find_from s q 0 with Some _ => true | None => false end.

Section Search.

(** [String.prototype.toLowerCase] and [String.prototype.normalize("NFD")] *)
Variable toLowerCase : jsstring → jsstring.
Variable normalizeNFD : jsstring → jsstring.

Definition normalizeFrench (text : jsstring) : jsstring :=
  filter (fun c => is_combining_mark c = false)
    (normalizeNFD
       (replaceAll1 8217 [39%N]
          (replaceAll1 339 [111%N; 101%N] (toLowerCase text)))).

(** The loop of [suggest]. *)
Fixpoint suggest_loop (q : jsstring) (limit : nat) (words : list jsstring)
    (starts includes_ : list jsstring) : list jsstring * list jsstring :=
  match words with
  | [] => (starts, includes_)
  | w :: rest =>
      let n := normalizeFrench w in
      let '(starts, includes_) :=
        if startsWith n q then (starts ++ [w], includes_)
        else if includes n q then (starts, includes_ ++ [w])
        else (starts, includes_) in
      if limit <=? length starts then (starts, includes_)
      else suggest_loop q limit rest starts includes_
  end.

Definition suggest (words : list jsstring) (query : jsstring) (limit : nat)
  : list jsstring :=
  let q := normalizeFrench (trim query) in
  if negb (truthy q) then []
  else
    let '(starts, includes_) := suggest_loop q limit words [] [] in
    if limit <=? length starts then take limit starts
    else take limit (starts ++ includes_).

End Search.

(** ** The audio link and the tense cell *)

(** The units that [encodeURIComponent] leaves as they are: the letters, the
    digits and [- _ . ! ~ * ' ( )]. *)
Definition is_uri_unescaped (c : N) : bool :=
  ((65 <=? c) && (c <=? 90))%N || ((97 <=? c) && (c <=? 122))%N
  || ((48 <=? c) && (c <=? 57))%N
  || bool_decide (c ∈ [45; 95; 46; 33; 126; 42; 39; 40; 41]%N).

(** An upper-case hexadecimal digit, and the escape [%XX] of a byte. *)
Definition hex_digit (d : N) : N :=
  if (d <? 10)%N then (48 + d)%N else (55 + d)%N.

Definition percent_byte (b : N) : jsstring :=
  [37%N; hex_digit (b / 16); hex_digit (b mod 16)].

(** The UTF-8 bytes of a code point. *)
Definition utf8 (cp : N) : list N :=
  if (cp <? 128)%N then [cp]
  else if (cp <? 2048)%N then [192 + cp / 64; 128 + cp mod 64]%N
  else if (cp <? 65536)%N
  then [224 + cp / 4096; 128 + (cp / 64) mod 64; 128 + cp mod 64]%N
  else [240 + cp / 262144; 128 + (cp / 4096) mod 64;
        128 + (cp / 64) mod 64; 128 + cp mod 64]%N.

(** The code point of a surrogate pair. *)
Definition pair_code_point (c d : N) : N :=
  ((c - 55296) * 1024 + (d - 56320) + 65536)%N.

(** [encodeURIComponent(s)].  [None] is the [URIError] that it throws when
    it meets a surrogate without its partner. *)
Fixpoint encodeURIComponent (s : jsstring) : option jsstring :=
  match s with
  | [] => Some []
  | c :: rest =>
      if is_uri_unescaped c then (c ::.) <$> encodeURIComponent rest
      else if is_low_surrogate c then None
      else if is_high_surrogate c then
        match rest with
        | d :: rest' =>
            if is_low_surrogate d
            then ((utf8 (pair_code_point c d) ≫= percent_byte) ++.)
                   <$> encodeURIComponent rest'
            else None
        | [] => None
        end
      else ((utf8 c ≫= percent_byte) ++.) <$> encodeURIComponent rest
  end.

(** [s.replaceAll(pat, r)] for a non-empty search string [pat] and a
    replacement [r] that holds no [$]: the matches are taken from left to
    right and do not overlap.  [skip] counts the units of the last match
    that are still to be passed. *)
Fixpoint replaceAll_from (pat r : jsstring) (skip : nat) (s : jsstring) : jsstring :=
  match s with
  | [] => []
  | c :: s' =>
      match skip with
      | S k => replaceAll_from pat r k s'
      | 0 =>
          if bool_decide (take (length pat) s = pat)
          then r ++ replaceAll_from pat r (length pat - 1) s'
          else c :: replaceAll_from pat r 0 s'
      end
  end.

Definition replaceAll (pat r s : jsstring) : jsstring := replaceAll_from pat r 0 s.

Definition AUDIOFRENCH_BASE : jsstring :=
  Eval vm_compute in u "http://www.audiofrench.com/verbs/sounds".

(** The set [vowels]: the code points of the string
    [aeiouyàâäéèêëîïôöùûüœh]. *)
Definition vowels : list N :=
  [97; 101; 105; 111; 117; 121; 224; 226; 228; 233; 232; 234; 235; 238; 239;
   244; 246; 249; 251; 252; 339; 104]%N.

Definition pronouns : list jsstring :=
  [u "je"; u "tu"; u "il"; u "nous"; u "vous"; u "ils"].

Section TenseCell.

(** [String.prototype.toLowerCase] and [String.prototype.normalize("NFD")] *)
Variable toLowerCase : jsstring → jsstring.
Variable normalizeNFD : jsstring → jsstring.

(** [None] is the [URIError] of [encodeURIComponent].  The path part is
    encoded before the slug.  Every pronoun of the array is truthy, so
    [|| "je"] only applies past the end of the array. *)
Definition makeAudioFrenchUrl (infinitive : jsstring) (personIndex : nat)
    (form : jsstring) : option jsstring :=
  let slug := normalizeFrench toLowerCase normalizeNFD infinitive in
  let pronoun := default (u "je") (pronouns !! personIndex) in
  let filename :=
    if bool_decide (pronoun = u "je") && truthy form
       && match normalizeFrench toLowerCase normalizeNFD form with
          | c :: _ => bool_decide (c ∈ vowels)
          | [] => false
          end
    then u "j'" ++ form
    else pronoun ++ u "_" ++ form in
  pathPart ← replaceAll (u "%27") (u "'")
               <$> encodeURIComponent
                     (normalizeFrench toLowerCase normalizeNFD filename);
  slug_enc ← encodeURIComponent slug;
  Some (AUDIOFRENCH_BASE ++ u "/" ++ slug_enc ++ u "/" ++ pathPart ++ u ".mp3").

(** [v.w] is the infinitive, [pr] the forms of [v.t.pr], [forms] those of
    [v.t[tenseKey]].  [None] is the [URIError] thrown by
    [makeAudioFrenchUrl], which is called for every form of a tense other
    than the passé simple (twice on the same arguments: the second call does
    what the first did); the link itself is part of the markup left out of
    the cell. *)
Definition buildTenseCell (w : jsstring) (pr : list jsstring) (tenseKey : ShortKey)
    (forms : list jsstring) : option TenseCell :=
  if length forms <? 6 then Some EmptyCell
  else
    let words := forms in
    let shared := applyBlackUnionRules toLowerCase words in
    let stem := linguisticStem w in
    let nous := default [] (pr !! 3) in
    let stems :=
      {| imparfaitStem :=
           if endsWith nous (u "ons") then Some (slice_end nous 3) else None |} in
    let tk := tenseMap tenseKey in
    rows ← mapM (fun i =>
                   let form := default [] (words !! i) in
                   let expectedVariants :=
                     expectedRegularVariants toLowerCase w tk i (Some stems) in
                   let irregularMask := bestExpectedMask form expectedVariants in
                   let colored :=
                     colorizeForm toLowerCase form shared stem irregularMask in
                   match tenseKey with
                   | K_ps => Some colored
                   | _ => _ ← makeAudioFrenchUrl w i form; Some colored
                   end)
                (seq 0 6);
    Some (Cell rows).

End TenseCell.

(** ** The suggestions of the search index *)

(** The entries of the search index, as [addEntry] builds them, and the
    suggestions.  A missing or [undefined] [form] is [None]. *)
Module Entry.
Record t : Type := mk {
  w : jsstring;
  norm : jsstring;
  forms : list jsstring;
  formsNorm : list jsstring;
  formsBlob : jsstring
}.
End Entry.

Module Suggestion.
Record t : Type := mk {
  w : jsstring;
  note : jsstring;
  form : option jsstring
}.
End Suggestion.

Definition note_infinitif : jsstring := Eval vm_compute in u "infinitif".
Definition note_forme : jsstring := Eval vm_compute in u "forme : ".
Definition note_forme_conjuguee : jsstring :=
  Eval vm_compute in u "forme conjugu" ++ [233%N] ++ u "e".

(** The array [suggestions] and the set [seen], in insertion order. *)
Record Search : Type := mkSearch {
  suggestions : list Suggestion.t;
  seen : list jsstring
}.

(** [suggestions.push(s); seen.add(s.w)] *)
Definition push (st : Search) (s : Suggestion.t) : Search :=
  mkSearch (suggestions st ++ [s])
    (if bool_decide (Suggestion.w s ∈ seen st) then seen st
     else seen st ++ [Suggestion.w s]).

(** Stage 1: the first entry whose normalised infinitive is the query. *)
Fixpoint exact_loop (q : jsstring) (entries : list Entry.t) (st : Search) : Search :=
  match entries with
  | [] => st
  | e :: rest =>
      if bool_decide (Entry.norm e = q)
      then push st (Suggestion.mk (Entry.w e) note_infinitif None)
      else exact_loop q rest st
  end.

(** The other loops share one shape: skip the entries already seen, test
    the entry, push the suggestion, and return from the function once
    [limit] suggestions are reached.  [inl] is that early return. *)
Fixpoint scan (hit : Entry.t → option Suggestion.t) (limit : nat)
    (entries : list Entry.t) (st : Search) : list Suggestion.t + Search :=
  match entries with
  | [] => inr st
  | e :: rest =>
      if bool_decide (Entry.w e ∈ seen st) then scan hit limit rest st
      else
        match hit e with
        | None => scan hit limit rest st
        | Some s =>
            let st' := push st s in
            if limit <=? length (suggestions st') then inl (suggestions st')
            else scan hit limit rest st'
        end
  end.

(** Stage 1b: a conjugated form that is the query. *)
Definition hit_exact_form (q : jsstring) (e : Entry.t) : option Suggestion.t :=
  match list_find (fun f => f = q) (Entry.formsNorm e) with
  | Some (idx, _) =>
      Some (Suggestion.mk (Entry.w e)
              (js_concat note_forme (Entry.forms e !! idx))
              (Entry.forms e !! idx))
  | None => None
  end.

(** Stage 2: the query is a prefix of the infinitive. *)
Definition hit_prefix (q : jsstring) (e : Entry.t) : option Suggestion.t :=
  if startsWith (Entry.norm e) q
  then Some (Suggestion.mk (Entry.w e) note_infinitif None)
  else None.

(** Stage 3: the infinitive contains the query. *)
Definition hit_contains (q : jsstring) (e : Entry.t) : option Suggestion.t :=
  if includes (Entry.norm e) q
  then Some (Suggestion.mk (Entry.w e) note_infinitif None)
  else None.

(** Stage 4: the conjugated forms contain the query.  [example] is the
    form at the first index whose normalised form contains the query; it is
    the empty string when there is none, and [undefined] ([None]) when
    [forms] is shorter than that index. *)
Definition example (q : jsstring) (e : Entry.t) : option jsstring :=
  match list_find (fun f => includes f q = true) (Entry.formsNorm e) with
  | Some (i, _) => Entry.forms e !! i
  | None => Some []
  end.

Definition hit_forms (q : jsstring) (e : Entry.t) : option Suggestion.t :=
  if includes (Entry.formsBlob e) q
  then
    let ex := example q e in
    let ex_truthy := match ex with Some x => truthy x | None => false end in
    Some (Suggestion.mk (Entry.w e)
            (if ex_truthy then js_concat note_forme ex else note_forme_conjuguee)
            (Some (if ex_truthy then default [] ex else [])))
  else None.

(** Sequencing of the loops: an early return ends the function. *)
Definition and_then (r : list Suggestion.t + Search)
    (k : Search → list Suggestion.t + Search) : list Suggestion.t + Search :=
  match r with
  | inl out => inl out
  | inr st => k st
  end.

(** Two entries as [addEntry] builds them, on ASCII text, where lower-casing
    and normalisation change nothing. *)
Definition manger_entry : Entry.t :=
  Entry.mk (u "manger") (u "manger")
    [u "manger"; u "mangeant"; u "mange"] [u "manger"; u "mangeant"; u "mange"]
    (u "manger mangeant mange").
Definition parler_entry : Entry.t :=
  Entry.mk (u "parler") (u "parler")
    [u "parler"; u "parlant"; u "parle"] [u "parler"; u "parlant"; u "parle"]
    (u "parler parlant parle").

Section SearchIndex.

Variable toLowerCase : jsstring → jsstring.
Variable normalizeNFD : jsstring → jsstring.

Definition computeSuggestions (entries : list Entry.t) (query : jsstring)
    (limit : nat) : list Suggestion.t :=
  let q := normalizeFrench toLowerCase normalizeNFD (trim query) in
  if negb (truthy q) then []
  else
    let st := exact_loop q entries (mkSearch [] []) in
    let r :=
      and_then
        (if length (suggestions st) <? limit
         then scan (hit_exact_form q) limit entries st
         else inr st)
        (fun st =>
           and_then (scan (hit_prefix q) limit entries st)
             (fun st =>
                and_then (scan (hit_contains q) limit entries st)
                  (fun st => scan (hit_forms q) limit entries st))) in
    match r with
    | inl out => out
    | inr st => suggestions st
    end.

End SearchIndex.

(** * Properties *)

Example editMask_appelle :
  editMask (u "appelle") (u "appele")
  = {| score := 1; mask := [false; false; false; false; true; false; false] |}.
Proof. vm_compute. reflexivity. Qed.

Example variants_appeler :
  expectedRegularVariants latin1Lower (u "appeler") T_present 0 None
  = [u "appele"; u "app" ++ e_grave :: u "le"; u "appelle"; u "app" ++ e_grave :: u "lle"].
Proof. vm_compute. reflexivity. Qed.

Example variants_manger :
  expectedRegularVariants latin1Lower (u "manger") T_present 3 None
  = [u "mangons"; u "mangeons"].
Proof. vm_compute. reflexivity. Qed.

Example shared_parler :
  applyBlackUnionRules latin1Lower
    [u "parle"; u "parles"; u "parle"; u "parlons"; u "parlez"; u "parlent"] = u "parl".
Proof. vm_compute. reflexivity. Qed.

Example colorize_ex :
  colorizeForm latin1Lower (u "parlons") (u "parl") (u "parl") None
  = [SpanOpen black; Text 112; Text 97; Text 114; Text 108; SpanClose;
     SpanOpen normal; Text 111; Text 110; Text 115; SpanClose]%N.
Proof. vm_compute. reflexivity. Qed.

(** ** Two-dimensional arrays *)

Section Table.
Context {A : Type}.
Implicit Types t : list (list A).

Lemma shaped_replicate R C (x : A) : shaped R C (replicate R (replicate C x)).
Proof.
  split; [by rewrite length_replicate|].
  intros i r Hr. apply lookup_replicate_1 in Hr as [-> _].
  by rewrite length_replicate.
Qed.

Lemma shaped_tset R C t i j v : shaped R C t → shaped R C (tset t i j v).
Proof.
  intros [HR HC]. unfold tset. split; [by rewrite length_alter|].
  intros i' r. rewrite list_lookup_alter.
  case_decide as Hi; [subst i'|by apply HC].
  destruct (t !! i) as [r0|] eqn:E; simpl; [|done].
  intros [= <-]. rewrite length_insert. by eapply HC.
Qed.

Lemma tget_tset_eq d R C t i j v :
  shaped R C t → i < R → j < C → tget d (tset t i j v) i j = v.
Proof.
  intros [HR HC] Hi Hj. unfold tget, tset. rewrite list_lookup_alter_eq.
  destruct (lookup_lt_is_Some_2 t i) as [r Hr]; [lia|].
  rewrite Hr. simpl. rewrite list_lookup_insert_eq; [done|].
  rewrite (HC _ _ Hr). lia.
Qed.

Lemma tget_tset_ne d t i j i' j' v :
  i ≠ i' ∨ j ≠ j' → tget d (tset t i j v) i' j' = tget d t i' j'.
Proof.
  intros Hne. unfold tget, tset. rewrite list_lookup_alter.
  case_decide as Hi; [subst i'|done].
  destruct (t !! i) as [r|]; simpl; [|done].
  rewrite list_lookup_insert_ne; [done|]. destruct Hne; congruence.
Qed.
End Table.

Lemma foldl_seq_inv {St} (f : St → nat → St) (Inv : nat → St → Prop) len :
  ∀ start s0,
    Inv start s0 →
    (∀ k s, start ≤ k < start + len → Inv k s → Inv (1 + k) (f s k)) →
    Inv (start + len) (foldl f s0 (seq start len)).
Proof.
  induction len as [|len IH]; intros start s0 H0 Hstep; simpl.
  - by rewrite Nat.add_0_r.
  - replace (start + S len) with (S start + len) by lia.
    apply IH.
    + apply (Hstep start s0); [lia|done].
    + intros k s Hk. apply Hstep. lia.
Qed.

(** ** The tables hold the Levenshtein recurrence *)

Lemma lev_0_l b a j : lev b a 0 j = j.
Proof. done. Qed.

Lemma lev_0_r b a i : lev b a i 0 = i.
Proof. by destruct i. Qed.

Lemma lev_SS b a i j :
  lev b a (S i) (S j)
  = Nat.min (Nat.min (lev b a i j + subst_cost b a (S i) (S j)) (lev b a (S i) j + 1))
            (lev b a i (S j) + 1).
Proof. done. Qed.

Lemma choose_spec cost del ins rep :
  choose cost del ins rep = (Nat.min (Nat.min rep ins) del, pref_op cost rep ins del).
Proof.
  unfold choose, pref_op.
  destruct (ins <? rep) eqn:E1; [apply Nat.ltb_lt in E1|apply Nat.ltb_ge in E1].
  - destruct (del <? ins) eqn:E2; [apply Nat.ltb_lt in E2|apply Nat.ltb_ge in E2].
    + f_equal; [lia|].
      destruct (rep <=? ins) eqn:E3; [apply Nat.leb_le in E3; lia|]. simpl.
      destruct (ins <=? del) eqn:E4; [apply Nat.leb_le in E4; lia|done].
    + f_equal; [lia|].
      destruct (rep <=? ins) eqn:E3; [apply Nat.leb_le in E3; lia|]. simpl.
      destruct (ins <=? del) eqn:E4; [done|apply Nat.leb_gt in E4; lia].
  - destruct (del <? rep) eqn:E2; [apply Nat.ltb_lt in E2|apply Nat.ltb_ge in E2].
    + f_equal; [lia|].
      destruct (rep <=? ins) eqn:E3; [|apply Nat.leb_gt in E3; lia].
      destruct (rep <=? del) eqn:E4; [apply Nat.leb_le in E4; lia|]. simpl.
      destruct (ins <=? del) eqn:E5; [apply Nat.leb_le in E5; lia|done].
    + f_equal; [lia|].
      destruct (rep <=? ins) eqn:E3; [|apply Nat.leb_gt in E3; lia].
      destruct (rep <=? del) eqn:E4; [done|apply Nat.leb_gt in E4; lia].
Qed.

Section Fill.
Variables a b : jsstring.
Local Abbreviation m := (length b).
Local Abbreviation n := (length a).

Lemma agrees_mono (P Q : nat → nat → Prop) st :
  (∀ i j, i ≤ m → j ≤ n → Q i j → P i j) → agrees a b P st → agrees a b Q st.
Proof. intros HPQ (?&?&H). split_and!; [done..|]. intros i j ???. apply H; auto. Qed.

Lemma agrees_write (P : nat → nat → Prop) st i j best o :
  agrees a b P st → i ≤ m → j ≤ n →
  best = lev b a i j → o = spec_op b a i j →
  agrees a b (fun i' j' => P i' j' ∨ (i' = i ∧ j' = j))
         {| dp := tset (dp st) i j best; bt := tset (bt st) i j o |}.
Proof.
  intros (Hd&Hb&H) Hi Hj -> ->. unfold agrees. cbn [dp bt].
  split_and!; [by apply shaped_tset..|].
  intros i' j' Hi' Hj' HP.
  destruct (decide (i = i' ∧ j = j')) as [[<- <-]|Hne].
  - rewrite !(tget_tset_eq _ (S m) (S n)) by (done || lia). done.
  - assert (i ≠ i' ∨ j ≠ j') as Hd'.
    { destruct (decide (i = i')); [right|left]; [|done]. intros ->. by apply Hne. }
    rewrite !tget_tset_ne by done.
    apply H; [done..|]. destruct HP as [?|[-> ->]]; [done|]. by destruct Hne.
Qed.

Lemma agrees_init : agrees a b (fun i j => i = 0 ∧ j = 0) (init_tables m n).
Proof.
  unfold agrees, init_tables. cbn [dp bt].
  split_and!; [apply shaped_replicate..|].
  intros i j _ _ [-> ->]. done.
Qed.

Lemma agrees_first_column st :
  agrees a b (fun i j => i = 0 ∧ j = 0) st →
  agrees a b (fun i j => j = 0) (first_column m st).
Proof.
  intros H0.
  pose proof (foldl_seq_inv
    (fun st i => {| dp := tset (dp st) i 0 i; bt := tset (bt st) i 0 (Some Op_del) |})
    (fun k st => agrees a b (fun i j => j = 0 ∧ i < k) st) m 1 st) as HI.
  eapply agrees_mono; [|apply HI].
  - intros i j Hi _ ->. split; [done|lia].
  - eapply agrees_mono; [|exact H0]. intros i j _ _ [-> ?]. split; [lia|done].
  - intros k s Hk Hs.
    eapply agrees_mono; [|apply (agrees_write _ s k 0 k (Some Op_del) Hs); try lia].
    + intros i j _ _ [-> Hi]. destruct (decide (i = k)); [by right|left; split; [done|lia]].
    + by rewrite lev_0_r.
    + destruct k; [lia|done].
Qed.

Lemma agrees_first_row st :
  agrees a b (fun i j => j = 0) st →
  agrees a b (filled 1 1) (first_row n st).
Proof.
  intros H0.
  pose proof (foldl_seq_inv
    (fun st j => {| dp := tset (dp st) 0 j j; bt := tset (bt st) 0 j (Some Op_ins) |})
    (fun k st => agrees a b (fun i j => j = 0 ∨ (i = 0 ∧ j < k)) st) n 1 st) as HI.
  eapply agrees_mono; [|apply HI].
  - intros i j _ Hj. unfold filled. lia.
  - eapply agrees_mono; [|exact H0]. intros i j _ _ [->|[-> ?]]; [done|lia].
  - intros k s Hk Hs.
    eapply agrees_mono; [|apply (agrees_write _ s 0 k k (Some Op_ins) Hs); try lia].
    + intros i j _ _ [->|[-> Hj]]; [by left; left|].
      destruct (decide (j = k)); [by right|left; right; split; [done|lia]].
    + done.
    + destruct k; [lia|done].
Qed.

Lemma agrees_cell_step st i j :
  1 ≤ i ≤ m → 1 ≤ j ≤ n →
  agrees a b (filled i j) st → agrees a b (filled i (1 + j)) (cell_step a b i st j).
Proof.
  intros Hi Hj Hs. destruct Hs as (Hd&Hb&H).
  destruct i as [|i']; [lia|]. destruct j as [|j']; [lia|].
  unfold cell_step. rewrite choose_spec.
  replace (S i' - 1) with i' by lia. replace (S j' - 1) with j' by lia.
  destruct (H i' (S j')) as [-> _]; [lia|lia|unfold filled; lia|].
  destruct (H (S i') j') as [-> _]; [lia|lia|unfold filled; lia|].
  destruct (H i' j') as [-> _]; [lia|lia|unfold filled; lia|].
  eapply agrees_mono;
    [|apply (agrees_write (filled (S i') (S j')) st (S i') (S j')); [done|lia|lia|..]].
  - intros i j _ _. unfold filled. lia.
  - by rewrite lev_SS.
  - done.
Qed.

Lemma agrees_fill_row st i :
  1 ≤ i ≤ m →
  agrees a b (filled i 1) st → agrees a b (filled (1 + i) 1) (fill_row a b n st i).
Proof.
  intros Hi Hs.
  pose proof (foldl_seq_inv (cell_step a b i)
    (fun k st => agrees a b (filled i k) st) n 1 st) as HI.
  eapply agrees_mono; [|apply HI].
  - intros i' j' _ Hj'. unfold filled. lia.
  - done.
  - intros k s Hk Hs'. apply agrees_cell_step; [done|lia|done].
Qed.

Lemma agrees_fill st :
  agrees a b (filled 1 1) st → agrees a b (fun _ _ => True) (fill a b m n st).
Proof.
  intros Hs.
  pose proof (foldl_seq_inv (fill_row a b n)
    (fun k st => agrees a b (filled k 1) st) m 1 st) as HI.
  eapply agrees_mono; [|apply HI].
  - intros i j Hi _ _. unfold filled. lia.
  - done.
  - intros k s Hk Hs'. apply agrees_fill_row; [lia|done].
Qed.

(** Every entry of [dp] and [bt] is the one of the recurrence. *)
Lemma tables_spec i j :
  i ≤ m → j ≤ n →
  tget 0 (dp (tables a b)) i j = lev b a i j
  ∧ tget None (bt (tables a b)) i j = spec_op b a i j.
Proof.
  intros Hi Hj.
  destruct (agrees_fill _ (agrees_first_row _ (agrees_first_column _ agrees_init)))
    as (_&_&H).
  by apply H.
Qed.
End Fill.

(** ** The backtrace follows the preferred path *)

Lemma grid_ind (P : nat → nat → Prop) :
  P 0 0 →
  (∀ j, P 0 j → P 0 (S j)) →
  (∀ i, P i 0 → P (S i) 0) →
  (∀ i j, P i j → P (S i) j → P i (S j) → P (S i) (S j)) →
  ∀ i j, P i j.
Proof.
  intros H00 H0 HS0 HSS. induction i as [|i IHi].
  - induction j; auto.
  - induction j; auto.
Qed.

Lemma spec_path_0_S b a j :
  spec_path b a 0 (S j) = (Op_ins, 0, S j) :: spec_path b a 0 j.
Proof. done. Qed.

Lemma spec_path_S_0 b a i :
  spec_path b a (S i) 0 = (Op_del, S i, 0) :: spec_path b a i 0.
Proof. done. Qed.

Lemma spec_path_S_S b a i j :
  spec_path b a (S i) (S j)
  = match spec_op b a (S i) (S j) with
    | Some Op_ins => (Op_ins, S i, S j) :: spec_path b a (S i) j
    | Some Op_del => (Op_del, S i, S j) :: spec_path b a i (S j)
    | Some Op_rep => (Op_rep, S i, S j) :: spec_path b a i j
    | _ => (Op_eq, S i, S j) :: spec_path b a i j
    end.
Proof. done. Qed.

Lemma length_apply_path path : ∀ mask, length (foldl apply_step mask path) = length mask.
Proof.
  induction path as [|[[op i] j] path IH]; intros mask; simpl; [done|].
  rewrite IH. destruct op; simpl; by rewrite ?length_insert.
Qed.

Lemma bt_iter_pos t i j mask :
  0 < i + j →
  bt_iter t (mkBt i j mask)
  = match tget None t i j with
    | Some Op_eq => Some (mkBt (i - 1) (j - 1) mask)
    | Some Op_rep => Some (mkBt (i - 1) (j - 1) (<[j - 1 := true]> mask))
    | Some Op_ins => Some (mkBt i (j - 1) (<[j - 1 := true]> mask))
    | Some Op_del => Some (mkBt (i - 1) j mask)
    | None => None
    end.
Proof.
  intros H. unfold bt_iter.
  destruct (0 <? i) eqn:Ei; [done|].
  destruct (0 <? j) eqn:Ej; [done|].
  apply Nat.ltb_ge in Ei, Ej. lia.
Qed.

Lemma spec_op_SS_is_Some b a i j : is_Some (spec_op b a (S i) (S j)).
Proof. by eexists. Qed.

(** With [i + j] iterations at hand, the loop started at cell [(i, j)]
    leaves through its condition, at [(0, 0)], having applied the steps of
    the preferred path. *)
Lemma backtrace_spec a b fuel :
  ∀ i j mask,
    i ≤ length b → j ≤ length a → i + j ≤ fuel →
    backtrace (bt (tables a b)) fuel (mkBt i j mask)
    = mkBt 0 0 (foldl apply_step mask (spec_path b a i j)).
Proof.
  induction fuel as [|fuel IH]; intros i j mask Hi Hj Hf.
  - assert (i = 0) as -> by lia. assert (j = 0) as -> by lia. done.
  - destruct (tables_spec a b i j Hi Hj) as [_ Hop].
    cbn [backtrace].
    destruct i as [|i], j as [|j].
    + done.
    + rewrite bt_iter_pos by lia. rewrite Hop, spec_path_0_S. cbn [spec_op foldl apply_step].
      replace (S j - 1) with j by lia. by rewrite IH by lia.
    + rewrite bt_iter_pos by lia. rewrite Hop, spec_path_S_0. cbn [spec_op foldl apply_step].
      replace (S i - 1) with i by lia. by rewrite IH by lia.
    + rewrite bt_iter_pos by lia. rewrite Hop, spec_path_S_S.
      destruct (spec_op_SS_is_Some b a i j) as [o ->].
      replace (S i - 1) with i by lia. replace (S j - 1) with j by lia.
      destruct o; cbn [foldl apply_step];
        replace (S j - 1) with j by lia; by rewrite IH by lia.
Qed.

Lemma backtrace_exits a b :
  ∀ extra,
    backtrace (bt (tables a b)) (length b + length a + extra)
              (mkBt (length b) (length a) (replicate (length a) false))
    = mkBt 0 0 (mask (editMask a b)).
Proof.
  intros extra. unfold editMask. cbn [mask].
  rewrite !backtrace_spec by lia. done.
Qed.

Lemma editMask_spec a b :
  editMask a b
  = {| score := lev b a (length b) (length a);
       mask := foldl apply_step (replicate (length a) false)
                     (spec_path b a (length b) (length a)) |}.
Proof.
  unfold editMask. rewrite backtrace_spec by lia.
  destruct (tables_spec a b (length b) (length a)) as [-> _]; done.
Qed.

Lemma length_editMask a b : length (mask (editMask a b)) = length a.
Proof. rewrite editMask_spec. cbn [mask]. by rewrite length_apply_path, length_replicate. Qed.

(** ** Shape of the preferred path *)

Lemma NoDup_fmap_elem_eq {A B} (f : A → B) (l : list A) x y :
  NoDup (f <$> l) → x ∈ l → y ∈ l → f x = f y → x = y.
Proof.
  induction l as [|z l IH]; intros Hnd Hx Hy Hf.
  - by apply not_elem_of_nil in Hx.
  - rewrite fmap_cons in Hnd. apply NoDup_cons in Hnd as [Hz Hnd].
    apply elem_of_cons in Hx as [->|Hx], Hy as [->|Hy]; [done|..|by apply IH].
    + exfalso. apply Hz. rewrite Hf. by apply list_elem_of_fmap_2.
    + exfalso. apply Hz. rewrite <- Hf. by apply list_elem_of_fmap_2.
Qed.

(** Every step stays inside the rectangle; a step that consumes an attested
    unit sits at a positive column. *)
Lemma spec_path_bounds b a :
  ∀ i j op i' j', (op, i', j') ∈ spec_path b a i j →
    i' ≤ i ∧ j' ≤ j ∧ (op ≠ Op_del → 1 ≤ j').
Proof.
  assert (∀ i j i' j' (op : Op) i0 j0,
            i0 ≤ i → j0 ≤ j →
            i' ≤ i0 ∧ j' ≤ j0 ∧ (op ≠ Op_del → 1 ≤ j') →
            i' ≤ i ∧ j' ≤ j ∧ (op ≠ Op_del → 1 ≤ j')) as Hweak.
  { intros ??????? ?? (?&?&?). split_and!; [lia|lia|done]. }
  apply (grid_ind (fun i j => ∀ op i' j', (op, i', j') ∈ spec_path b a i j →
                     i' ≤ i ∧ j' ≤ j ∧ (op ≠ Op_del → 1 ≤ j'))).
  - intros op i' j' H. by apply not_elem_of_nil in H.
  - intros j IH op i' j'. rewrite spec_path_0_S.
    intros [[= -> -> ->]|H]%elem_of_cons.
    + split_and!; [lia|lia|intros; lia].
    + apply IH in H. eapply Hweak; [| |exact H]; lia.
  - intros i IH op i' j'. rewrite spec_path_S_0.
    intros [[= -> -> ->]|H]%elem_of_cons.
    + split_and!; [lia|lia|done].
    + apply IH in H. eapply Hweak; [| |exact H]; lia.
  - intros i j IH1 IH2 IH3 op i' j'. rewrite spec_path_S_S.
    destruct (spec_op b a (S i) (S j)) as [[]|];
      intros [[= -> -> ->]|H]%elem_of_cons;
      try (split_and!; [lia|lia|intros; lia]).
    all: first [apply IH1 in H|apply IH2 in H|apply IH3 in H].
    all: eapply Hweak; [| |exact H]; lia.
Qed.

(** The steps that consume an attested unit do so column by column, from
    the last one down to the first. *)
Lemma consuming_columns b a :
  ∀ i j, (fun s : Step => s.2) <$> consuming (spec_path b a i j) = reverse (seq 1 j).
Proof.
  apply grid_ind; unfold consuming.
  - done.
  - intros j IH. rewrite spec_path_0_S, filter_cons_True by done.
    rewrite fmap_cons, IH, seq_S, reverse_snoc. done.
  - intros i IH. rewrite spec_path_S_0, filter_cons_False by (by intros []).
    exact IH.
  - intros i j IH1 IH2 IH3. rewrite spec_path_S_S.
    rewrite (seq_S j 1), reverse_snoc.
    destruct (spec_op b a (S i) (S j)) as [[]|].
    + rewrite filter_cons_True by done. by rewrite fmap_cons, IH1.
    + rewrite filter_cons_True by done. by rewrite fmap_cons, IH1.
    + rewrite filter_cons_True by done. by rewrite fmap_cons, IH2.
    + rewrite filter_cons_False by (by intros []).
      rewrite IH3, (seq_S j 1), reverse_snoc. done.
    + rewrite filter_cons_True by done. by rewrite fmap_cons, IH1.
Qed.

(** Each attested position is consumed by exactly one step. *)
Lemma consuming_step_unique b a i j k :
  k < j →
  ∃ op i', (op, i', S k) ∈ spec_path b a i j ∧ op ≠ Op_del
    ∧ ∀ op2 i2, (op2, i2, S k) ∈ spec_path b a i j → op2 ≠ Op_del →
        op2 = op ∧ i2 = i'.
Proof.
  intros Hk. pose proof (consuming_columns b a i j) as Hcols.
  assert (S k ∈ (fun s : Step => s.2) <$> consuming (spec_path b a i j)) as Hin.
  { rewrite Hcols, elem_of_reverse, elem_of_seq. lia. }
  apply list_elem_of_fmap in Hin as ([[op i'] c] & Hc & Hs). simpl in Hc. subst c.
  exists op, i'.
  pose proof Hs as Hs'. apply list_elem_of_filter in Hs' as [Hop Hp].
  split_and!; [done..|].
  intros op2 i2 Hp2 Hop2.
  assert ((op2, i2, S k) = (op, i', S k)) as [= -> ->]; [|done].
  eapply (NoDup_fmap_elem_eq (fun s : Step => s.2)); [| |exact Hs|done].
  - fold (consuming (spec_path b a i j)). rewrite Hcols.
    rewrite reverse_Permutation. apply NoDup_seq.
  - apply list_elem_of_filter. done.
Qed.

Lemma flag_insert (msk : list bool) p k :
  k < length msk → flag (<[p := true]> msk) k = flag msk k || bool_decide (p = k).
Proof.
  intros Hk. unfold flag. rewrite list_lookup_insert.
  case_decide as H.
  - destruct H as [-> _]. rewrite bool_decide_eq_true_2 by done. by rewrite orb_true_r.
  - rewrite bool_decide_eq_false_2; [by rewrite orb_false_r|]. intros ->. apply H. done.
Qed.

(** A mask entry is set exactly when the path has a substitution or an
    insertion at the column of that entry. *)
Lemma apply_path_flag path :
  ∀ msk k,
    k < length msk →
    (∀ op i j, (op, i, j) ∈ path → op ≠ Op_del → 1 ≤ j) →
    foldl apply_step msk path !! k = Some (flag msk k || marks path k).
Proof.
  induction path as [|[[op i] j] path IH]; intros msk k Hk Hpos.
  - simpl. rewrite orb_false_r. unfold flag.
    destruct (lookup_lt_is_Some_2 msk k Hk) as [x ->]. done.
  - cbn [foldl]. rewrite IH; cycle 1.
    + destruct op; cbn [apply_step]; rewrite ?length_insert; done.
    + intros op' i' j' Hin. apply (Hpos op' i' j'). apply elem_of_cons. by right.
    + f_equal. unfold marks at 2. cbn [existsb].
      fold (marks path k). rewrite orb_assoc. f_equal.
      assert (op ≠ Op_del → bool_decide (j - 1 = k) = (j =? S k)) as Hj.
      { intros Ho. specialize (Hpos op i j (list_elem_of_here _ _) Ho).
        destruct (Nat.eqb_spec j (S k)) as [->|Hne].
        - apply bool_decide_eq_true_2. lia.
        - apply bool_decide_eq_false_2. lia. }
      destruct op; cbn [apply_step].
      * by rewrite andb_false_r, orb_false_r.
      * rewrite flag_insert, Hj by done. by rewrite andb_true_r.
      * rewrite flag_insert, Hj by done. by rewrite andb_true_r.
      * by rewrite andb_false_r, orb_false_r.
Qed.

Lemma marks_true path k :
  marks path k = true ↔ ∃ op i, (op, i, S k) ∈ path ∧ (op = Op_rep ∨ op = Op_ins).
Proof.
  unfold marks. rewrite existsb_exists. split.
  - intros ([[op i] j] & Hin & H). apply list_elem_of_In in Hin.
    apply andb_true_iff in H as [->%Nat.eqb_eq H].
    exists op, i. split; [done|].
    apply orb_true_iff in H as [H|H]; apply bool_decide_eq_true in H; auto.
  - intros (op & i & Hin & H). exists (op, i, S k).
    split; [by apply list_elem_of_In|].
    rewrite Nat.eqb_refl. destruct H as [-> | ->]; done.
Qed.

(** The mask entry of position [k] is read off the step that consumes it. *)
Lemma editMask_entry a b k op i :
  k < length a →
  (op, i, S k) ∈ spec_path b a (length b) (length a) → op ≠ Op_del →
  mask (editMask a b) !! k = Some (bool_decide (op = Op_rep ∨ op = Op_ins)).
Proof.
  intros Hk Hin Hop. rewrite editMask_spec. cbn [mask].
  rewrite apply_path_flag; cycle 1.
  - by rewrite length_replicate.
  - intros op' i' j' H. by apply spec_path_bounds in H as (_&_&?).
  - unfold flag. rewrite lookup_replicate_2 by done. cbn [default orb]. f_equal.
    destruct (consuming_step_unique b a (length b) (length a) k Hk)
      as (op0 & i0 & _ & _ & Huniq).
    destruct (Huniq op i Hin Hop) as [-> ->].
    destruct (marks _ k) eqn:E.
    + apply marks_true in E as (op' & i' & Hin' & Hop').
      destruct (Huniq op' i' Hin') as [-> ->]; [by destruct Hop' as [-> | ->]|].
      symmetry. by apply bool_decide_eq_true_2.
    + symmetry. apply bool_decide_eq_false_2. intros Hop'.
      assert (marks (spec_path b a (length b) (length a)) k = true) as E'; [|congruence].
      apply marks_true. eauto.
Qed.

(** ** Properties of the distance *)

Lemma lev_upper_r b a i j : lev b a i (S j) ≤ lev b a i j + 1.
Proof. destruct i; [simpl; lia|]. rewrite lev_SS. lia. Qed.

Lemma lev_upper_l b a i j : lev b a (S i) j ≤ lev b a i j + 1.
Proof. destruct j; [rewrite !lev_0_r; lia|]. rewrite lev_SS. lia. Qed.

(** Dropping the last unit of either string lowers the distance by at most
    one. *)
Lemma lev_lipschitz b a :
  ∀ i j, lev b a i j ≤ lev b a (S i) j + 1 ∧ lev b a i j ≤ lev b a i (S j) + 1.
Proof.
  apply grid_ind.
  - simpl. lia.
  - intros j [IH1 IH2]. split; [|simpl; lia].
    rewrite (lev_SS b a 0 j). rewrite !lev_0_l in *. lia.
  - intros i [IH1 IH2]. split; [rewrite !lev_0_r; lia|].
    rewrite (lev_SS b a i 0). rewrite !lev_0_r in *. lia.
  - intros i j _ [IH1 _] [_ IH2]. split.
    + rewrite (lev_SS b a (S i) j).
      pose proof (lev_upper_r b a (S i) j). lia.
    + rewrite (lev_SS b a i (S j)).
      pose proof (lev_upper_l b a i (S j)). lia.
Qed.

Lemma subst_cost_S b a i j :
  subst_cost b a (S i) (S j) = if bool_decide (b !! i = a !! j) then 0 else 1.
Proof. unfold subst_cost. by rewrite !Nat.sub_succ, !Nat.sub_0_r. Qed.

(** Where the two units are equal the preferred operation is the match. *)
Lemma spec_op_match b a i j :
  b !! i = a !! j → spec_op b a (S i) (S j) = Some Op_eq.
Proof.
  intros Heq. cbn [spec_op]. rewrite subst_cost_S, bool_decide_eq_true_2 by done.
  f_equal. unfold pref_op.
  destruct (lev_lipschitz b a i j) as [H1 H2].
  rewrite Nat.add_0_r.
  destruct (Nat.leb_spec (lev b a i j) (lev b a (S i) j + 1)); [|lia].
  destruct (Nat.leb_spec (lev b a i j) (lev b a i (S j) + 1)); [|lia].
  done.
Qed.

(** Along a run of equal units the path walks the diagonal with matches. *)
Lemma spec_path_diagonal b a i j d :
  (∀ t, t < d → b !! (i + t) = a !! (j + t)) →
  spec_path b a (i + d) (j + d)
  = ((fun t => (Op_eq, i + S t, j + S t)) <$> reverse (seq 0 d)) ++ spec_path b a i j.
Proof.
  induction d as [|d IH]; intros Heq.
  - by rewrite !Nat.add_0_r.
  - rewrite !Nat.add_succ_r, spec_path_S_S, spec_op_match by (apply Heq; lia).
    rewrite IH by (intros; apply Heq; lia).
    rewrite seq_S, reverse_snoc, fmap_cons. simpl.
    by rewrite !Nat.add_succ_r.
Qed.

(** The units of a common suffix are never flagged. *)
Lemma editMask_common_suffix a1 b1 s k :
  length a1 ≤ k < length (a1 ++ s) →
  mask (editMask (a1 ++ s) (b1 ++ s)) !! k = Some false.
Proof.
  intros Hk. rewrite length_app in Hk.
  rewrite (editMask_entry _ _ k Op_eq (length b1 + S (k - length a1)));
    [done|rewrite length_app; lia| |done].
  rewrite !length_app, (spec_path_diagonal _ _ (length b1) (length a1) (length s)).
  - apply elem_of_app. left.
    apply list_elem_of_fmap. exists (k - length a1). split.
    + do 2 f_equal. lia.
    + rewrite elem_of_reverse, elem_of_seq. lia.
  - intros t Ht. rewrite !lookup_app_r by lia. f_equal. lia.
Qed.

Lemma lev_zero b a :
  ∀ i j, i ≤ length b → j ≤ length a →
    (lev b a i j = 0 ↔ take i b = take j a).
Proof.
  apply (grid_ind (fun i j => i ≤ length b → j ≤ length a →
                     (lev b a i j = 0 ↔ take i b = take j a))).
  - done.
  - intros j _ _ Hj. rewrite lev_0_l. split; [done|].
    destruct a; simpl in *; [lia|done].
  - intros i _ Hi _. rewrite lev_0_r. split; [done|].
    destruct b; simpl in *; [lia|done].
  - intros i j IH _ _ Hi Hj. rewrite lev_SS, subst_cost_S.
    destruct (lookup_lt_is_Some_2 b i) as [x Hx]; [lia|].
    destruct (lookup_lt_is_Some_2 a j) as [y Hy]; [lia|].
    rewrite (take_S_r _ _ _ Hx), (take_S_r _ _ _ Hy), Hx, Hy.
    specialize (IH ltac:(lia) ltac:(lia)).
    split.
    + intros H0. case_bool_decide as Hxy; [|lia].
      injection Hxy as ->. f_equal. apply IH. lia.
    + intros [Ht ->]%app_inj_tail. rewrite bool_decide_eq_true_2 by done.
      apply IH in Ht. lia.
Qed.

Lemma editMask_score_zero a b : score (editMask a b) = 0 ↔ a = b.
Proof.
  rewrite editMask_spec. cbn [score].
  rewrite lev_zero, !firstn_all by done. split; congruence.
Qed.

Lemma editMask_same_all_false a : Forall (fun x => x = false) (mask (editMask a a)).
Proof.
  apply Forall_lookup. intros k x Hx.
  assert (k < length a) as Hk.
  { rewrite <- (length_editMask a a). by eapply lookup_lt_Some. }
  pose proof (editMask_common_suffix [] [] a k ltac:(simpl; lia)) as H.
  change (mask (editMask a a) !! k = Some false) in H. congruence.
Qed.

(** ** The aligner *)

(** C1: the mask of [editMask] has the length of the attested form; the
    cost is 0 exactly when the attested form equals the expected one, and
    then no entry of the mask is set; in particular every generated variant
    aligned with itself has cost 0 and an all-false mask. *)
Theorem editMask_length_and_zero_cost (attested expected : jsstring) :
  length (mask (editMask attested expected)) = length attested
  ∧ (score (editMask attested expected) = 0 ↔ attested = expected)
  ∧ (attested = expected →
     Forall (fun x => x = false) (mask (editMask attested expected)))
  ∧ (∀ toLowerCase inf tenseKey personIndex stems x,
       x ∈ expectedRegularVariants toLowerCase inf tenseKey personIndex stems →
       score (editMask x x) = 0
       ∧ Forall (fun x => x = false) (mask (editMask x x))).
Proof.
  split_and!.
  - apply length_editMask.
  - apply editMask_score_zero.
  - intros ->. apply editMask_same_all_false.
  - intros _ _ _ _ _ x _. split.
    + by apply editMask_score_zero.
    + apply editMask_same_all_false.
Qed.

(** The path is optimal: it has as many steps other than matches as the
    distance. *)
Lemma spec_path_cost b a :
  ∀ i j, length (filter (fun s : Step => s.1.1 ≠ Op_eq) (spec_path b a i j)) = lev b a i j.
Proof.
  apply grid_ind.
  - done.
  - intros j IH. rewrite spec_path_0_S, filter_cons_True by done.
    cbn [length]. rewrite IH. done.
  - intros i IH. rewrite spec_path_S_0, filter_cons_True by done.
    cbn [length]. rewrite IH, !lev_0_r. done.
  - intros i j IH1 IH2 IH3. rewrite spec_path_S_S, lev_SS. cbn [spec_op].
    unfold pref_op.
    assert (subst_cost b a (S i) (S j) = 0 ∨ subst_cost b a (S i) (S j) = 1) as Hcost
        by (unfold subst_cost; case_bool_decide; auto).
    destruct (Nat.leb_spec (lev b a i j + subst_cost b a (S i) (S j)) (lev b a (S i) j + 1));
      [destruct (Nat.leb_spec (lev b a i j + subst_cost b a (S i) (S j))
                              (lev b a i (S j) + 1))|]; cbn [andb].
    + destruct (Nat.eqb_spec (subst_cost b a (S i) (S j)) 0).
      * rewrite filter_cons_False by (by intros []). rewrite IH1. lia.
      * rewrite filter_cons_True by done. cbn [length]. rewrite IH1. lia.
    + destruct (Nat.leb_spec (lev b a (S i) j + 1) (lev b a i (S j) + 1)).
      * rewrite filter_cons_True by done. cbn [length]. rewrite IH2. lia.
      * rewrite filter_cons_True by done. cbn [length]. rewrite IH3. lia.
    + destruct (Nat.leb_spec (lev b a (S i) j + 1) (lev b a i (S j) + 1)).
      * rewrite filter_cons_True by done. cbn [length]. rewrite IH2. lia.
      * rewrite filter_cons_True by done. cbn [length]. rewrite IH3. lia.
Qed.

(** C2: the table [bt] holds, in every cell, the operation preferred in the
    order substitution/match, insertion, deletion; the backtrace leaves its
    loop at cell (0, 0) having applied the steps of the path that starts at
    the end of both strings, a path of optimal cost; every attested position is consumed by exactly
    one step of that path, and its mask entry is true when that step is a
    substitution or an insertion and false when it is a match; deletions
    leave the mask as it is. *)
Theorem editMask_follows_preferred_path (attested expected : jsstring) :
  let n := length attested in
  let m := length expected in
  let path := spec_path expected attested m n in
  (∀ i j, i ≤ m → j ≤ n →
     tget None (bt (tables attested expected)) i j = spec_op expected attested i j)
  ∧ backtrace (bt (tables attested expected)) (m + n) (mkBt m n (replicate n false))
    = mkBt 0 0 (mask (editMask attested expected))
  ∧ mask (editMask attested expected) = foldl apply_step (replicate n false) path
  ∧ length (filter (fun s : Step => s.1.1 ≠ Op_eq) path)
    = score (editMask attested expected)
  ∧ (∀ msk i j, apply_step msk (Op_del, i, j) = msk)
  ∧ (∀ k, k < n →
       ∃ op i,
         (op, i, S k) ∈ path ∧ op ≠ Op_del
         ∧ (∀ op' i', (op', i', S k) ∈ path → op' ≠ Op_del → op' = op ∧ i' = i)
         ∧ mask (editMask attested expected) !! k
           = Some (bool_decide (op = Op_rep ∨ op = Op_ins))).
Proof.
  intros n m path. split_and!.
  - intros i j Hi Hj. by apply tables_spec.
  - pose proof (backtrace_exits attested expected 0) as H.
    by rewrite Nat.add_0_r in H.
  - by rewrite editMask_spec.
  - rewrite editMask_spec. apply spec_path_cost.
  - done.
  - intros k Hk.
    destruct (consuming_step_unique expected attested m n k Hk)
      as (op & i & Hin & Hop & Huniq).
    exists op, i. split_and!; [done..|].
    by eapply editMask_entry.
Qed.

(** ** The selector *)

Lemma score_lt_trans s s' bs : s < s' → score_lt s' bs = true → score_lt s bs = true.
Proof.
  destruct bs as [b|]; cbn [score_lt]; [|done].
  intros ? ?%Nat.ltb_lt. apply Nat.ltb_lt. lia.
Qed.

Lemma score_lt_between s s' bs :
  score_lt s bs = true → score_lt s' bs = false → s < s'.
Proof.
  destruct bs as [b|]; cbn [score_lt]; [|done].
  intros ?%Nat.ltb_lt ?%Nat.ltb_ge. lia.
Qed.

(** Either no variant improves on the incoming best, which is returned, or
    the result is the mask of the first variant of minimal cost. *)
Lemma bestExpectedMask_loop_spec actual vs :
  ∀ best bs,
    let r := (bestExpectedMask_loop actual vs best bs).1 in
    (r = best ∧ ∀ v, v ∈ vs → score_lt (score (editMask actual v)) bs = false)
    ∨ (∃ k v, vs !! k = Some v
         ∧ r = Some (mask (editMask actual v))
         ∧ score_lt (score (editMask actual v)) bs = true
         ∧ (∀ v', v' ∈ vs → score (editMask actual v) ≤ score (editMask actual v'))
         ∧ (∀ k' v', k' < k → vs !! k' = Some v' →
              score (editMask actual v) < score (editMask actual v'))).
Proof.
  induction vs as [|exp rest IH]; intros best bs; cbn zeta.
  - left. split; [done|]. intros v Hv. by apply not_elem_of_nil in Hv.
  - cbn [bestExpectedMask_loop].
    destruct (score_lt (score (editMask actual exp)) bs) eqn:Hlt.
    + destruct (Nat.eqb_spec (score (editMask actual exp)) 0) as [H0|H0].
      * right. exists 0, exp. split_and!; [done|done|done| |].
        -- intros v' _. lia.
        -- intros k' v' Hk'. lia.
      * destruct (IH (Some (mask (editMask actual exp)))
                     (Some (score (editMask actual exp))))
          as [[Hr Hno]|(k & v & Hk & Hr & Hv & Hmin & Hfirst)].
        -- right. exists 0, exp. split_and!; [done|done|done| |].
           ++ intros v' [->|Hv']%elem_of_cons; [done|].
              specialize (Hno v' Hv'). cbn [score_lt] in Hno. apply Nat.ltb_ge in Hno. lia.
           ++ intros k' v' Hk'. lia.
        -- cbn [score_lt] in Hv. apply Nat.ltb_lt in Hv.
           right. exists (S k), v. split_and!; [done|done|..].
           ++ by eapply score_lt_trans.
           ++ intros v' [->|Hv']%elem_of_cons; [lia|by apply Hmin].
           ++ intros [|k'] v' Hk' Hl; simpl in Hl.
              ** injection Hl as <-. done.
              ** eapply Hfirst; [|done]. lia.
    + destruct (IH best bs) as [[Hr Hno]|(k & v & Hk & Hr & Hv & Hmin & Hfirst)].
      * left. split; [done|].
        intros v [->|Hv]%elem_of_cons; [done|by apply Hno].
      * pose proof (score_lt_between _ _ _ Hv Hlt) as Hlt'.
        right. exists (S k), v. split_and!; [done|done|done|..].
        -- intros v' [->|Hv']%elem_of_cons; [lia|by apply Hmin].
        -- intros [|k'] v' Hk' Hl; simpl in Hl.
           ++ injection Hl as <-. done.
           ++ eapply Hfirst; [|done]. lia.
Qed.

(** Without a variant of cost 0 the loop visits the whole list. *)
Lemma bestExpectedMask_loop_visits_all actual vs :
  ∀ best bs,
    (∀ v, v ∈ vs → score (editMask actual v) ≠ 0) →
    (bestExpectedMask_loop actual vs best bs).2 = [].
Proof.
  induction vs as [|exp rest IH]; intros best bs Hnz; [done|].
  cbn [bestExpectedMask_loop].
  assert (score (editMask actual exp) ≠ 0) as Hexp by (apply Hnz; left).
  assert (∀ v, v ∈ rest → score (editMask actual v) ≠ 0) as Hrest
      by (intros; apply Hnz; by right).
  destruct (score_lt _ bs); [|by apply IH].
  destruct (Nat.eqb_spec (score (editMask actual exp)) 0); [done|by apply IH].
Qed.

(** The loop is left at the first variant of cost 0: what follows it is not
    visited. *)
Lemma bestExpectedMask_loop_breaks actual pre v post :
  ∀ best bs,
    (bs = None ∨ ∃ s, bs = Some s ∧ 0 < s) →
    (∀ v', v' ∈ pre → score (editMask actual v') ≠ 0) →
    score (editMask actual v) = 0 →
    (bestExpectedMask_loop actual (pre ++ v :: post) best bs).2 = post.
Proof.
  induction pre as [|exp pre IH]; intros best bs Hbs Hpre Hv.
  - cbn [app bestExpectedMask_loop]. rewrite Hv.
    destruct Hbs as [->|(s & -> & Hs)]; cbn [score_lt Nat.eqb snd]; [done|].
    destruct (Nat.ltb_spec 0 s); [done|lia].
  - cbn [app bestExpectedMask_loop].
    assert (score (editMask actual exp) ≠ 0) as Hexp by (apply Hpre; left).
    assert (∀ v', v' ∈ pre → score (editMask actual v') ≠ 0) as Hpre'
      by (intros; apply Hpre; by right).
    destruct (score_lt _ bs); [|by apply IH].
    destruct (Nat.eqb_spec (score (editMask actual exp)) 0); [done|].
    apply IH; [|done..]. right. eexists. split; [done|lia].
Qed.

(** C3: [bestExpectedMask] returns [null] exactly for the empty list;
    otherwise it returns the mask of the first variant, in list order, whose
    cost is minimal over the list; and its loop is left as soon as a variant
    of cost 0 has been seen, the variants after it not being visited. *)
Theorem bestExpectedMask_first_minimum (attested : jsstring) (variants : list jsstring) :
  (bestExpectedMask attested variants = None ↔ variants = [])
  ∧ (variants ≠ [] →
     ∃ k v, variants !! k = Some v
       ∧ bestExpectedMask attested variants = Some (mask (editMask attested v))
       ∧ (∀ v', v' ∈ variants →
            score (editMask attested v) ≤ score (editMask attested v'))
       ∧ (∀ k' v', k' < k → variants !! k' = Some v' →
            score (editMask attested v) < score (editMask attested v')))
  ∧ (∀ pre v post,
       variants = pre ++ v :: post →
       (∀ v', v' ∈ pre → score (editMask attested v') ≠ 0) →
       score (editMask attested v) = 0 →
       (bestExpectedMask_loop attested variants None None).2 = post
       ∧ bestExpectedMask attested variants = Some (mask (editMask attested v)))
  ∧ ((∀ v, v ∈ variants → score (editMask attested v) ≠ 0) →
     (bestExpectedMask_loop attested variants None None).2 = []).
Proof.
  assert (variants ≠ [] →
     ∃ k v, variants !! k = Some v
       ∧ bestExpectedMask attested variants = Some (mask (editMask attested v))
       ∧ (∀ v', v' ∈ variants →
            score (editMask attested v) ≤ score (editMask attested v'))
       ∧ (∀ k' v', k' < k → variants !! k' = Some v' →
            score (editMask attested v) < score (editMask attested v'))) as Hmin.
  { intros Hne.
    destruct (bestExpectedMask_loop_spec attested variants None None)
      as [[_ Hno]|(k & v & Hk & Hr & _ & Hmin & Hfirst)].
    - destruct variants as [|v rest]; [done|].
      specialize (Hno v (list_elem_of_here _ _)). done.
    - exists k, v. split_and!; [done| |done..].
      destruct variants; [done|]. exact Hr. }
  split_and!.
  - split; [|by intros ->].
    intros Hnone. destruct variants as [|v0 rest]; [done|].
    destruct Hmin as (k & v & _ & Hr & _); [done|]. congruence.
  - exact Hmin.
  - intros pre v post -> Hpre Hv. split.
    + apply bestExpectedMask_loop_breaks; [by left|done..].
    + destruct Hmin as (k & w & Hk & Hr & Hle & Hfirst); [by destruct pre|].
      rewrite Hr.
      assert (score (editMask attested w) = 0) as Hw.
      { specialize (Hle v). rewrite Hv in Hle.
        assert (v ∈ pre ++ v :: post) by (apply elem_of_app; right; left).
        specialize (Hle ltac:(done)). lia. }
      destruct (lt_eq_lt_dec k (length pre)) as [[Hlt|Heq]|Hgt].
      * rewrite lookup_app_l in Hk by done.
        apply list_elem_of_lookup_2 in Hk. by apply Hpre in Hk.
      * subst k. rewrite list_lookup_middle in Hk by done. congruence.
      * exfalso. specialize (Hfirst (length pre) v Hgt).
        rewrite list_lookup_middle in Hfirst by done.
        specialize (Hfirst eq_refl). lia.
  - apply bestExpectedMask_loop_visits_all.
Qed.

(** ** The variant generator *)

(** [toLowerCase] is only ever applied to the infinitive. *)
Lemma expectedRegularVariants_ext (lc lc' : jsstring → jsstring) inf tenseKey p stems :
  lc inf = lc' inf →
  expectedRegularVariants lc inf tenseKey p stems
  = expectedRegularVariants lc' inf tenseKey p stems.
Proof.
  intros H.
  unfold expectedRegularVariants, cerGerVariants, yerStemVariants, eerStemVariants,
    elerEterStemVariants.
  by rewrite H.
Qed.

Lemma truthy_app_r s e : truthy e = true → truthy (s ++ e) = true.
Proof. destruct s, e; done. Qed.

Lemma truthy_nonempty s : truthy s = true ↔ s ≠ [].
Proof. destruct s; simpl; split; done. Qed.

(** A non-empty base form is the first variant. *)
Lemma expectedRegularVariants_head lc inf tenseKey p stems :
  truthy (expectedBaseForm inf tenseKey p stems) = true →
  ∃ tl, expectedRegularVariants lc inf tenseKey p stems
        = expectedBaseForm inf tenseKey p stems :: tl.
Proof.
  intros Hb. unfold expectedRegularVariants. rewrite Hb. cbn [negb].
  unfold cerGerVariants. cbn [app uniq].
  rewrite filter_cons_True by done. eauto.
Qed.

Lemma imparfait_ending_nonempty p :
  truthy (default (u "undefined") (imparfait_all !! p)) = true.
Proof. do 7 (destruct p as [|p]; [done|]). done. Qed.

Lemma futur_ending_nonempty p :
  truthy (default (u "undefined") (futur_all !! p)) = true.
Proof. do 7 (destruct p as [|p]; [done|]). done. Qed.

Lemma verbGroup_other_inv inf :
  verbGroup inf = G_other →
  endsWith inf (u "er") = false ∧ endsWith inf (u "ir") = false
  ∧ endsWith inf (u "re") = false.
Proof.
  unfold verbGroup.
  destruct (endsWith inf (u "er")); [done|].
  destruct (endsWith inf (u "ir")); [done|].
  destruct (endsWith inf (u "re")); done.
Qed.

(** In the group [other], present and passé simple have the empty ending:
    the only variant is the infinitive itself. *)
Lemma other_group_empty_ending lc inf tenseKey p stems :
  verbGroup inf = G_other →
  tenseKey = T_present ∨ tenseKey = T_passe_simple →
  expectedRegularVariants lc inf tenseKey p stems = if truthy inf then [inf] else [].
Proof.
  intros Hg Ht.
  assert (expectedBaseForm inf tenseKey p stems = inf) as Hbase.
  { unfold expectedBaseForm, regularEnding. rewrite Hg.
    rewrite decide_True by done. unfold js_concat.
    destruct Ht as [-> | ->]; cbn [default]; by rewrite app_nil_r. }
  assert (regularEnding inf tenseKey p = Some []) as Hend.
  { unfold regularEnding. rewrite Hg. by destruct Ht as [-> | ->]. }
  unfold expectedRegularVariants. rewrite Hbase, Hend, Hg.
  destruct (truthy inf) eqn:Hinf; [|done]. cbn [negb].
  unfold cerGerVariants.
  rewrite (bool_decide_eq_false_2 (_ ∈ _)).
  2:{ intros H. repeat (apply elem_of_cons in H as [H|H]; [done|]).
      by apply not_elem_of_nil in H. }
  rewrite !andb_false_r.
  cbn. rewrite decide_True by done. done.
Qed.

(** In every group, imparfait and futur yield at least the base form. *)
Lemma imparfait_futur_nonempty lc inf tenseKey p stems :
  tenseKey = T_imparfait ∨ tenseKey = T_futur →
  expectedRegularVariants lc inf tenseKey p stems ≠ [].
Proof.
  intros Ht.
  destruct (expectedRegularVariants_head lc inf tenseKey p stems) as [tl ->]; [|done].
  unfold expectedBaseForm, regularEnding, js_concat.
  destruct Ht as [-> | ->]; apply truthy_app_r.
  - apply imparfait_ending_nonempty.
  - apply futur_ending_nonempty.
Qed.

(** C4, as amended: for an infinitive that ends in none of [er], [ir],
    [re], [expectedRegularVariants] returns for present and passé simple the
    infinitive itself as the only variant (the ending is empty), and the
    empty list only when the infinitive is the empty string; for imparfait
    and futur it returns a non-empty list. *)
Theorem other_group_variants (toLowerCase : jsstring → jsstring)
    (inf : jsstring) (personIndex : nat) (stems : option Stems) :
  verbGroup inf = G_other →
  expectedRegularVariants toLowerCase inf T_present personIndex stems
    = (if truthy inf then [inf] else [])
  ∧ expectedRegularVariants toLowerCase inf T_passe_simple personIndex stems
    = (if truthy inf then [inf] else [])
  ∧ expectedRegularVariants toLowerCase inf T_imparfait personIndex stems ≠ []
  ∧ expectedRegularVariants toLowerCase inf T_futur personIndex stems ≠ [].
Proof.
  intros Hg. split_and!.
  - apply other_group_empty_ending; auto.
  - apply other_group_empty_ending; auto.
  - apply imparfait_futur_nonempty; auto.
  - apply imparfait_futur_nonempty; auto.
Qed.

Lemma other_group_variants_witness :
  verbGroup hair = G_other
  ∧ expectedRegularVariants latin1Lower hair T_present 0 None = [hair]
  ∧ expectedRegularVariants latin1Lower hair T_passe_simple 0 None = [hair]
  ∧ expectedRegularVariants latin1Lower hair T_imparfait 0 None ≠ []
  ∧ expectedRegularVariants latin1Lower hair T_futur 0 None ≠ [].
Proof.
  split; [reflexivity|].
  apply (other_group_variants latin1Lower hair 0 None). reflexivity.
Defined.

(** C4, as stated, fails: for ["haïr"] the present and the passé simple
    yield one variant, the infinitive, not the empty list. *)
Lemma other_group_present_not_empty :
  verbGroup hair = G_other
  ∧ expectedRegularVariants latin1Lower hair T_present 0 None = [hair]
  ∧ expectedRegularVariants latin1Lower hair T_passe_simple 0 None = [hair]
  ∧ ¬ (∀ inf, verbGroup inf = G_other →
         expectedRegularVariants latin1Lower inf T_present 0 None = []
         ∧ expectedRegularVariants latin1Lower inf T_passe_simple 0 None = []).
Proof.
  split_and!; [by vm_compute..|].
  intros H. destruct (H hair) as [H1 _]; [by vm_compute|].
  vm_compute in H1. discriminate.
Qed.


(** ** The shared prefix *)

Section SharedPrefix.
Variable toLowerCase : jsstring → jsstring.

Local Abbreviation ci_prefix := (ci_prefix_of toLowerCase).

Lemma common_run_prefix shared : ∀ form, common_run toLowerCase shared form `prefix_of` shared.
Proof.
  induction shared as [|c shared IH]; intros [|d form]; cbn [common_run];
    try apply prefix_nil.
  destruct (lower_eq toLowerCase c d); [|apply prefix_nil].
  by apply prefix_cons.
Qed.

Lemma common_run_ci shared : ∀ form, ci_prefix (common_run toLowerCase shared form) form.
Proof.
  induction shared as [|c shared IH]; intros [|d form]; cbn [common_run];
    try (split; [simpl; lia|by intros ???; rewrite lookup_nil]).
  unfold lower_eq. case_bool_decide as Hcd;
    [|split; [simpl; lia|by intros ???; rewrite lookup_nil]].
  destruct (IH form) as [Hlen Hci]. split; [simpl; lia|].
  intros [|i] c' d'; simpl.
  - by intros [= <-] [= <-].
  - apply Hci.
Qed.

Lemma ci_prefix_weaken r' r f : r' `prefix_of` r → ci_prefix r f → ci_prefix r' f.
Proof.
  intros [k ->] [Hlen Hci]. rewrite length_app in Hlen. split; [lia|].
  intros i c d Hc. apply Hci. by apply lookup_app_l_Some.
Qed.

Lemma ci_prefix_refl_prefix r f : r `prefix_of` f → ci_prefix r f.
Proof.
  intros [k ->]. split; [rewrite length_app; lia|].
  intros i c d Hc Hd. rewrite (lookup_app_l_Some _ _ _ _ Hc) in Hd. congruence.
Qed.

Lemma applyBlackUnionRules_loop_spec rest :
  ∀ shared,
    applyBlackUnionRules_loop toLowerCase shared rest `prefix_of` shared
    ∧ ∀ f, f ∈ rest → ci_prefix (applyBlackUnionRules_loop toLowerCase shared rest) f.
Proof.
  induction rest as [|form rest IH]; intros shared; cbn [applyBlackUnionRules_loop].
  - split; [done|]. intros f Hf. by apply not_elem_of_nil in Hf.
  - pose proof (common_run_prefix shared form) as Hp.
    pose proof (common_run_ci shared form) as Hc.
    destruct (truthy (common_run toLowerCase shared form)) eqn:Ht.
    + destruct (IH (common_run toLowerCase shared form)) as [IHp IHc].
      split; [by etrans|].
      intros f [->|Hf]%elem_of_cons; [|by apply IHc].
      by eapply ci_prefix_weaken.
    + destruct (common_run toLowerCase shared form); [|done].
      split; [apply prefix_nil|].
      intros f _. split; [simpl; lia|by intros ???; rewrite lookup_nil].
Qed.

(** C9: on a non-empty list [applyBlackUnionRules] returns a literal
    prefix of the first form (its units are those of the first form,
    casing included) which is, up to case, a prefix of every form of the
    list; on the empty list it returns the empty string. *)
Theorem applyBlackUnionRules_prefix :
  applyBlackUnionRules toLowerCase [] = []
  ∧ ∀ form0 rest,
      let shared := applyBlackUnionRules toLowerCase (form0 :: rest) in
      shared `prefix_of` form0
      ∧ ∀ f, f ∈ form0 :: rest →
          length shared ≤ length f
          ∧ ∀ i c d, shared !! i = Some c → f !! i = Some d →
              toLowerCase [c] = toLowerCase [d].
Proof.
  split; [done|].
  intros form0 rest shared. subst shared. cbn [applyBlackUnionRules].
  destruct (applyBlackUnionRules_loop_spec rest form0) as [Hp Hc].
  split; [done|].
  intros f [->|Hf]%elem_of_cons; [|by apply Hc].
  by apply ci_prefix_refl_prefix.
Qed.

(** C6, as amended: on the six present forms of [parler] the shared
    prefix is ["parl"]; [buildTenseCell] returns the empty cell when it
    is given fewer than six forms, before any shared prefix is computed;
    [applyBlackUnionRules] itself has no such gate and still returns
    ["parl"] on the first five forms. *)
Theorem shared_prefix_parler :
  toLowerCase (u "e") ≠ toLowerCase (u "o") →
  applyBlackUnionRules toLowerCase parler_six = u "parl"
  ∧ (∀ normalizeNFD w pr tenseKey forms,
       length forms < 6 →
       buildTenseCell toLowerCase normalizeNFD w pr tenseKey forms = Some EmptyCell)
  ∧ applyBlackUnionRules toLowerCase parler_five = u "parl".
Proof.
  intros Heo.
  assert (∀ c, lower_eq toLowerCase c c = true) as Hrefl
      by (intros; by apply bool_decide_eq_true_2).
  assert (lower_eq toLowerCase 101 111 = false) as Hne
      by (by apply bool_decide_eq_false_2).
  split_and!.
  - unfold parler_six, applyBlackUnionRules.
    repeat (cbn -[lower_eq]; rewrite ?Hrefl, ?Hne). done.
  - intros normalizeNFD w pr tenseKey forms Hlen. unfold buildTenseCell.
    destruct (Nat.ltb_spec (length forms) 6); [done|lia].
  - unfold parler_five, applyBlackUnionRules.
    repeat (cbn -[lower_eq]; rewrite ?Hrefl, ?Hne). done.
Qed.
End SharedPrefix.

Lemma shared_prefix_parler_witness :
  latin1Lower (u "e") ≠ latin1Lower (u "o")
  ∧ applyBlackUnionRules latin1Lower parler_six = u "parl"
  ∧ (∀ normalizeNFD w pr tenseKey forms,
       length forms < 6 →
       buildTenseCell latin1Lower normalizeNFD w pr tenseKey forms = Some EmptyCell)
  ∧ applyBlackUnionRules latin1Lower parler_five = u "parl".
Proof.
  split; [by vm_compute|].
  apply (shared_prefix_parler latin1Lower). by vm_compute.
Defined.

(** C6, as stated, fails: the shared prefix of five forms is not empty. *)
Lemma shared_prefix_five_not_empty :
  length parler_five < 6
  ∧ applyBlackUnionRules latin1Lower parler_five = u "parl"
  ∧ applyBlackUnionRules latin1Lower parler_five ≠ [].
Proof. split_and!; [simpl; lia|by vm_compute|by vm_compute]. Qed.

(** ** [appeler] *)

Lemma elerEterStemVariants_ext (lc lc' : jsstring → jsstring) stem inf tenseKey p :
  lc inf = lc' inf →
  elerEterStemVariants lc stem inf tenseKey p = elerEterStemVariants lc' stem inf tenseKey p.
Proof. intros H. unfold elerEterStemVariants. by rewrite H. Qed.

(** C7: for [appeler], present, person 0, the variants include ["appèle"]
    (the stem with its vowel given a grave accent) and ["appelle"] (the
    stem with its final consonant doubled), both produced by
    [elerEterStemVariants]; the attested ["appelle"] aligns with the
    doubling variant at cost 0. *)
Theorem appeler_variants (toLowerCase : jsstring → jsstring) (stems : option Stems) :
  toLowerCase (u "appeler") = u "appeler" →
  let variants := expectedRegularVariants toLowerCase (u "appeler") T_present 0 stems in
  appele_grave ∈ variants
  ∧ u "appelle" ∈ variants
  ∧ elerEterStemVariants toLowerCase (u "appel") (u "appeler") T_present 0
    = [u "appel"; eToEGrave (u "appel"); u "appell"; eToEGrave (u "appell")]
  ∧ js_concat (eToEGrave (u "appel")) (regularEnding (u "appeler") T_present 0)
    = appele_grave
  ∧ js_concat (u "appell") (regularEnding (u "appeler") T_present 0) = u "appelle"
  ∧ score (editMask (u "appelle") (u "appelle")) = 0
  ∧ mask (editMask (u "appelle") (u "appelle")) = replicate 7 false.
Proof.
  intros Hlc variants. subst variants.
  assert (toLowerCase (u "appeler") = latin1Lower (u "appeler")) as Hext
      by (rewrite Hlc; by vm_compute).
  rewrite (expectedRegularVariants_ext _ latin1Lower _ _ _ _ Hext).
  rewrite (elerEterStemVariants_ext _ latin1Lower _ _ _ _ Hext).
  assert (expectedRegularVariants latin1Lower (u "appeler") T_present 0 stems
          = [u "appele"; appele_grave; u "appelle"; u "app" ++ e_grave :: u "lle"]) as ->
      by (by vm_compute).
  split_and!.
  - apply elem_of_cons; right. apply list_elem_of_here.
  - do 2 (apply elem_of_cons; right). apply list_elem_of_here.
  - by vm_compute.
  - by vm_compute.
  - by vm_compute.
  - by vm_compute.
  - by vm_compute.
Qed.

Lemma appeler_variants_witness :
  latin1Lower (u "appeler") = u "appeler"
  ∧ appele_grave ∈ expectedRegularVariants latin1Lower (u "appeler") T_present 0 None
  ∧ u "appelle" ∈ expectedRegularVariants latin1Lower (u "appeler") T_present 0 None.
Proof.
  split; [by vm_compute|].
  destruct (appeler_variants latin1Lower None) as (H1 & H2 & _); [by vm_compute|].
  split; [exact H1|exact H2].
Defined.

(** ** [indexOf] and code points *)

Lemma find_from_bounds pat s :
  ∀ k r, pat ≠ [] → find_from s pat k = Some r → k ≤ r < k + length s.
Proof.
  induction s as [|x s IH]; intros k r Hpat; cbn [find_from].
  - case_bool_decide as H; [|done]. rewrite take_nil in H. by destruct pat.
  - case_bool_decide as H.
    + intros [= <-]. simpl. lia.
    + intros Hr. apply IH in Hr; [|done]. simpl. lia.
Qed.

(** A non-empty pattern is found at or after the start position, inside the
    string. *)
Lemma indexOf_found s pat from :
  pat ≠ [] → (0 ≤ from)%Z → indexOf s pat from ≠ (-1)%Z →
  (from ≤ indexOf s pat from < Z.of_nat (length s))%Z.
Proof.
  intros Hpat Hfrom. unfold indexOf.
  destruct (find_from _ _ _) as [r|] eqn:Hr; [|done]. intros _.
  apply find_from_bounds in Hr; [|done].
  rewrite length_drop in Hr.
  destruct (Nat.le_gt_cases (length s) (Z.to_nat (Z.max from 0))); lia.
Qed.

Lemma indexOf_here (pre rest : jsstring) c :
  indexOf (pre ++ c :: rest) [c] (Z.of_nat (length pre)) = Z.of_nat (length pre).
Proof.
  unfold indexOf.
  replace (Z.to_nat (Z.max (Z.of_nat (length pre)) 0) `min` length (pre ++ c :: rest))
    with (length pre) by (rewrite length_app; simpl; lia).
  rewrite drop_app_length. cbn [find_from length take].
  by rewrite bool_decide_eq_true_2.
Qed.

Lemma codePoints_nonempty_aux n :
  ∀ s, length s ≤ n → Forall (fun ch => ch ≠ []) (codePoints s).
Proof.
  induction n as [|n IH]; intros [|c [|d rest]] Hlen; simpl in *; try lia;
    try (by constructor).
  destruct (is_high_surrogate c && is_low_surrogate d).
  - constructor; [done|]. apply IH. lia.
  - constructor; [done|]. apply (IH (d :: rest)). simpl. lia.
Qed.

Lemma codePoints_nonempty s : Forall (fun ch => ch ≠ []) (codePoints s).
Proof. by apply (codePoints_nonempty_aux (length s)). Qed.

(** Without high surrogates every code point is one unit. *)
Lemma codePoints_bmp s :
  Forall (fun c => is_high_surrogate c = false) s →
  codePoints s = (fun c => [c]) <$> s.
Proof.
  induction 1 as [|c s Hc Hs IH]; [done|].
  cbn [codePoints]. rewrite Hc. cbn [andb]. rewrite IH. by destruct s.
Qed.

(** ** The scan of [markStemLetters] *)

Lemma flag_js_set arr idx i :
  flag (js_set arr idx true) i = true ↔ flag arr i = true ∨ i = idx.
Proof.
  unfold flag, js_set. destruct (Nat.ltb_spec idx (length arr)) as [Hlt|Hge].
  - rewrite list_lookup_insert. case_decide as H.
    + destruct H as [-> _]. simpl. split; auto.
    + split; [auto|]. intros [?| ->]; [done|]. exfalso. apply H. done.
  - destruct (lt_eq_lt_dec i idx) as [[Hi| ->]|Hi].
    + destruct (Nat.lt_ge_cases i (length arr)).
      * rewrite lookup_app_l by done. split; [auto|]. intros [?|?]; [done|lia].
      * rewrite lookup_app_r, lookup_app_l, lookup_replicate_2
          by (rewrite ?length_replicate; lia).
        rewrite (lookup_ge_None_2 arr) by done. simpl. split; [done|].
        intros [?|?]; [done|lia].
    + rewrite lookup_app_r, lookup_app_r by (rewrite ?length_replicate; lia).
      rewrite length_replicate, Nat.sub_diag. simpl. split; auto.
    + rewrite (lookup_ge_None_2 (arr ++ _)), (lookup_ge_None_2 arr)
        by (rewrite ?length_app, ?length_replicate; simpl; lia).
      simpl. split; [done|]. intros [?|?]; [done|lia].
Qed.

Section StemScan.
Variable lower : jsstring.

Lemma stemScan_above chs :
  ∀ lastIdx, (-1 ≤ lastIdx)%Z → Forall (fun ch => ch ≠ []) chs →
    Forall (fun x => (lastIdx < x)%Z) (stemScan lower chs lastIdx).
Proof.
  induction chs as [|ch chs IH]; intros lastIdx Hl Hne; cbn [stemScan]; [constructor|].
  apply Forall_cons in Hne as [Hch Hne].
  destruct (Z.eqb_spec (indexOf lower ch (lastIdx + 1)) (-1)) as [|Hidx]; [constructor|].
  pose proof (indexOf_found lower ch (lastIdx + 1) Hch ltac:(lia) Hidx) as Hb.
  constructor; [lia|].
  eapply Forall_impl; [apply IH; [lia|done]|]. simpl. intros. lia.
Qed.

(** The consumed indices increase strictly. *)
Lemma stemScan_increasing chs :
  ∀ lastIdx p q x y,
    (-1 ≤ lastIdx)%Z → Forall (fun ch => ch ≠ []) chs → p < q →
    stemScan lower chs lastIdx !! p = Some x →
    stemScan lower chs lastIdx !! q = Some y →
    (x < y)%Z.
Proof.
  induction chs as [|ch chs IH]; intros lastIdx p q x y Hl Hne Hpq; cbn [stemScan];
    [by rewrite lookup_nil|].
  pose proof Hne as [Hch Hne']%Forall_cons.
  destruct (Z.eqb_spec (indexOf lower ch (lastIdx + 1)) (-1)) as [|Hidx];
    [by rewrite lookup_nil|].
  pose proof (indexOf_found lower ch (lastIdx + 1) Hch ltac:(lia) Hidx) as Hb.
  destruct q as [|q]; [lia|]. destruct p as [|p]; simpl.
  - intros [= <-] Hy.
    pose proof (stemScan_above chs (indexOf lower ch (lastIdx + 1)) ltac:(lia) Hne') as Hab.
    rewrite Forall_lookup in Hab. by apply (Hab q).
  - apply IH; [lia|done|lia].
Qed.

(** While every code point is found, the scan of a concatenation continues
    from the last consumed index. *)
Lemma stemScan_app pre rest :
  ∀ lastIdx,
    length (stemScan lower pre lastIdx) = length pre →
    stemScan lower (pre ++ rest) lastIdx
    = stemScan lower pre lastIdx
      ++ stemScan lower rest (default lastIdx (last (stemScan lower pre lastIdx))).
Proof.
  induction pre as [|ch pre IH]; intros lastIdx; cbn [stemScan app]; [done|].
  destruct (Z.eqb_spec (indexOf lower ch (lastIdx + 1)) (-1)) as [|Hidx]; [done|].
  intros [= Hlen]. rewrite (IH _ Hlen). cbn [app]. do 2 f_equal.
  rewrite last_cons. by destruct (last _).
Qed.

Lemma markStemLetters_loop_app pre rest :
  ∀ isBlack lastIdx,
    length (stemScan lower pre lastIdx) = length pre →
    markStemLetters_loop lower (pre ++ rest) isBlack lastIdx
    = markStemLetters_loop lower rest (markStemLetters_loop lower pre isBlack lastIdx)
        (default lastIdx (last (stemScan lower pre lastIdx))).
Proof.
  induction pre as [|ch pre IH]; intros isBlack lastIdx;
    cbn [stemScan markStemLetters_loop app]; [done|].
  destruct (Z.eqb_spec (indexOf lower ch (lastIdx + 1)) (-1)) as [|Hidx]; [done|].
  intros [= Hlen]. rewrite (IH _ _ Hlen). f_equal.
  rewrite last_cons. by destruct (last _).
Qed.

(** The entries set by the loop are those of the consumed indices. *)
Lemma markStemLetters_loop_flag chs :
  ∀ isBlack lastIdx i,
    (-1 ≤ lastIdx)%Z → Forall (fun ch => ch ≠ []) chs →
    flag (markStemLetters_loop lower chs isBlack lastIdx) i = true
    ↔ flag isBlack i = true ∨ Z.of_nat i ∈ stemScan lower chs lastIdx.
Proof.
  induction chs as [|ch chs IH]; intros isBlack lastIdx i Hl Hne;
    cbn [stemScan markStemLetters_loop].
  - split; [auto|]. intros [?|H]; [done|]. by apply not_elem_of_nil in H.
  - apply Forall_cons in Hne as [Hch Hne].
    destruct (Z.eqb_spec (indexOf lower ch (lastIdx + 1)) (-1)) as [|Hidx].
    + split; [auto|]. intros [?|H]; [done|]. by apply not_elem_of_nil in H.
    + pose proof (indexOf_found lower ch (lastIdx + 1) Hch ltac:(lia) Hidx) as Hb.
      rewrite IH, flag_js_set, elem_of_cons by (done || lia).
      split.
      * intros [[?| ->]|?]; [by left| |by right; right]. right; left. lia.
      * intros [?|[?|?]]; [by left; left| |by right]. left; right. lia.
Qed.
End StemScan.

Lemma markStemLetters_scan_flag (toLowerCase : jsstring → jsstring) form stem i :
  flag (markStemLetters toLowerCase form stem) i = true
  ↔ Z.of_nat i ∈ stemScan (toLowerCase form) (codePoints (toLowerCase stem)) (-1).
Proof.
  unfold markStemLetters.
  rewrite markStemLetters_loop_flag by (done || apply codePoints_nonempty).
  unfold flag at 1.
  destruct (replicate (length form) false !! i) as [x|] eqn:E.
  - apply lookup_replicate_1 in E as [-> _]. simpl. split; [by intros [?|?]|auto].
  - simpl. split; [by intros [?|?]|auto].
Qed.

(** C10: the entries set by [markStemLetters] are exactly the indices
    consumed by the scan; these increase strictly in scan order; and when a
    stem character is not found after the last consumed index, the scan
    stops there: neither it nor any later stem character sets an entry,
    whatever the later characters are. *)
Theorem markStemLetters_scan_aborts (toLowerCase : jsstring → jsstring)
    (form stem : jsstring) :
  let lower := toLowerCase form in
  let chs := codePoints (toLowerCase stem) in
  let trace := stemScan lower chs (-1) in
  (∀ i, flag (markStemLetters toLowerCase form stem) i = true ↔ Z.of_nat i ∈ trace)
  ∧ (∀ p q x y, p < q → trace !! p = Some x → trace !! q = Some y → (x < y)%Z)
  ∧ (∀ pre ch post,
       chs = pre ++ ch :: post →
       length (stemScan lower pre (-1)) = length pre →
       indexOf lower ch (default (-1)%Z (last (stemScan lower pre (-1))) + 1) = (-1)%Z →
       trace = stemScan lower pre (-1)
       ∧ markStemLetters toLowerCase form stem
         = markStemLetters_loop lower pre (replicate (length form) false) (-1)).
Proof.
  intros lower chs trace. split_and!.
  - intros i. apply markStemLetters_scan_flag.
  - intros p q x y. apply stemScan_increasing; [done|apply codePoints_nonempty].
  - intros pre ch post Hchs Hlen Hidx. split.
    + unfold trace. rewrite Hchs, stemScan_app by done.
      cbn [stemScan]. rewrite Hidx. cbn. by rewrite app_nil_r.
    + unfold markStemLetters. fold lower. fold chs.
      rewrite Hchs, markStemLetters_loop_app by done.
      cbn [markStemLetters_loop]. rewrite Hidx. done.
Qed.

(** The abort is observable: in ["abc"] the stem ["axc"] marks the ["a"]
    only, although its ["c"] occurs later in the form. *)
Example markStemLetters_abort_example :
  markStemLetters latin1Lower (u "abc") (u "axc") = [true; false; false].
Proof. by vm_compute. Qed.

(** ** The colorizer *)

Lemma cur_after_app out1 : ∀ cur out2,
  cur_after cur (out1 ++ out2) = cur_after (cur_after cur out1) out2.
Proof. induction out1 as [|[m|c|] out1 IH]; intros cur out2; simpl; auto. Qed.

Lemma char_classes_app out1 : ∀ cur out2,
  char_classes cur (out1 ++ out2)
  = char_classes cur out1 ++ char_classes (cur_after cur out1) out2.
Proof.
  induction out1 as [|[m|c|] out1 IH]; intros cur out2; simpl; auto.
  by rewrite IH.
Qed.

Section Colorizer.
Variable toLowerCase : jsstring → jsstring.

(** The loop appends, for every character, one piece of text inside a span
    of the mode computed for its index. *)
Lemma colorize_loop_classes isBlack irregularMask rest :
  ∀ i mode out,
    cur_after None out = mode →
    let r := colorize_loop isBlack irregularMask i rest mode out in
    cur_after None r.2 = r.1
    ∧ char_classes None r.2
      = char_classes None out
        ++ ((fun k => Some (nextMode isBlack irregularMask k)) <$> seq i (length rest)).
Proof.
  induction rest as [|c rest IH]; intros i mode out Hcur; cbn zeta.
  - simpl. by rewrite app_nil_r.
  - cbn [colorize_loop length seq fmap list_fmap].
    set (next := nextMode isBlack irregularMask i).
    case_bool_decide as Hmode.
    + destruct (IH (S i) mode (out ++ [Text c])) as [H1 H2].
      { rewrite cur_after_app, Hcur. done. }
      split; [done|]. rewrite H2, char_classes_app, Hcur, Hmode. simpl.
      by rewrite <- app_assoc.
    + set (out' := (if mode is Some _ then out ++ [SpanClose] else out) ++ [SpanOpen next]).
      assert (cur_after None out' = Some next ∧ char_classes None out' = char_classes None out)
        as [Hc' Hk'].
      { unfold out'. destruct mode.
        - rewrite !cur_after_app, !char_classes_app. simpl. by rewrite !app_nil_r.
        - rewrite !cur_after_app, !char_classes_app. simpl. by rewrite !app_nil_r. }
      destruct (IH (S i) (Some next) (out' ++ [Text c])) as [H1 H2].
      { rewrite cur_after_app, Hc'. done. }
      split; [done|]. rewrite H2, char_classes_app, Hc', Hk'. simpl.
      by rewrite <- app_assoc.
Qed.

Lemma colorizeForm_classes form sharedPrefix stem irregularMask :
  char_classes None (colorizeForm toLowerCase form sharedPrefix stem irregularMask)
  = (fun k => Some (nextMode
                      (mergeSharedPrefix toLowerCase
                         (markStemLetters toLowerCase form stem) form sharedPrefix)
                      irregularMask k))
    <$> seq 0 (length form).
Proof.
  unfold colorizeForm.
  set (isBlack := mergeSharedPrefix _ _ _ _).
  pose proof (colorize_loop_classes isBlack irregularMask form 0 None [] eq_refl) as H.
  cbn zeta in H. destruct (colorize_loop _ _ _ _ _ _) as [mode out].
  destruct H as [H1 H2]. simpl in H1, H2.
  destruct mode; [|done].
  rewrite char_classes_app, H2. simpl. by rewrite app_nil_r.
Qed.

(** The entries set by [mergeSharedPrefix] from index [i] on: those of the
    leading run on which the form and the shared prefix agree up to case. *)
Lemma mergeSharedPrefix_from_flag form sp :
  ∀ i isBlack k,
    flag (mergeSharedPrefix_from toLowerCase i sp form isBlack) k = true
    ↔ flag isBlack k = true
      ∨ (i ≤ k ∧ ∀ k', i ≤ k' ≤ k →
           ∃ c d, sp !! (k' - i) = Some c ∧ form !! k' = Some d
                  ∧ toLowerCase [d] = toLowerCase [c]).
Proof.
  induction sp as [|c sp IH]; intros i isBlack k; cbn [mergeSharedPrefix_from].
  - split; [auto|]. intros [?|[Hik H]]; [done|].
    destruct (H k ltac:(lia)) as (?&?&Hnil&_). by rewrite lookup_nil in Hnil.
  - destruct (form !! i) as [d|] eqn:Hd.
    2:{ split; [auto|]. intros [?|[Hik H]]; [done|].
        destruct (H i ltac:(lia)) as (?&?&_&Hf&_). congruence. }
    unfold lower_eq. case_bool_decide as Hdc.
    2:{ split; [auto|]. intros [?|[Hik H]]; [done|].
        destruct (H i ltac:(lia)) as (c'&d'&Hc'&Hf&Heq).
        rewrite Nat.sub_diag in Hc'. simpl in Hc'. congruence. }
    rewrite IH, flag_js_set. split.
    + intros [[?| ->]|[Hik H]]; [by left|right..].
      * split; [done|]. intros k' Hk'. assert (k' = i) as -> by lia.
        rewrite Nat.sub_diag. by exists c, d.
      * split; [lia|]. intros k' Hk'.
        destruct (decide (k' = i)) as [->|Hne].
        -- rewrite Nat.sub_diag. by exists c, d.
        -- destruct (H k' ltac:(lia)) as (c'&d'&Hc'&Hf&Heq).
           exists c', d'. split_and!; [|done..].
           replace (k' - i) with (S (k' - S i)) by lia. done.
    + intros [?|[Hik H]]; [by left; left|].
      destruct (decide (k = i)) as [->|Hne]; [by left; right|].
      right. split; [lia|]. intros k' Hk'.
      destruct (H k' ltac:(lia)) as (c'&d'&Hc'&Hf&Heq).
      exists c', d'. split_and!; [|done..].
      replace (k' - i) with (S (k' - S i)) in Hc' by lia. done.
Qed.

(** C5: every character of the form gets exactly one class; it is
    [black] (stem) exactly when its index is consumed by the greedy scan of
    the linguistic stem or lies in the leading run on which the form agrees,
    up to case, with the shared prefix, whatever the deviation mask says;
    otherwise it is [hi] (irregular) when the mask flags it and [normal]
    when it does not. *)
Theorem colorizeForm_classification (form sharedPrefix stem : jsstring)
    (irregularMask : option (list bool)) :
  let classes :=
    char_classes None (colorizeForm toLowerCase form sharedPrefix stem irregularMask) in
  let stem_covered i :=
    Z.of_nat i ∈ stemScan (toLowerCase form) (codePoints (toLowerCase stem)) (-1) in
  let prefix_covered i :=
    ∀ k, k ≤ i →
      ∃ c d, sharedPrefix !! k = Some c ∧ form !! k = Some d
             ∧ toLowerCase [d] = toLowerCase [c] in
  let flagged i := ∃ m, irregularMask = Some m ∧ m !! i = Some true in
  length classes = length form
  ∧ ∀ i, i < length form →
      ∃ c, classes !! i = Some (Some c)
        ∧ (c = black ↔ stem_covered i ∨ prefix_covered i)
        ∧ (c = hi ↔ ¬ (stem_covered i ∨ prefix_covered i) ∧ flagged i)
        ∧ (c = normal ↔ ¬ (stem_covered i ∨ prefix_covered i) ∧ ¬ flagged i).
Proof.
  intros classes stem_covered prefix_covered flagged.
  unfold classes. rewrite colorizeForm_classes.
  split; [by rewrite length_fmap, length_seq|].
  intros i Hi. eexists. split.
  { rewrite list_lookup_fmap, lookup_seq_lt by done. reflexivity. }
  set (isBlack := mergeSharedPrefix _ _ _ _).
  assert (flag isBlack i = true ↔ stem_covered i ∨ prefix_covered i) as Hblack.
  { unfold isBlack, mergeSharedPrefix.
    rewrite mergeSharedPrefix_from_flag.
    destruct (markStemLetters_scan_flag toLowerCase form stem i) as [H1 H2].
    split.
    - intros [?|[_ H]]; [left; by apply H1|right].
      intros k Hk. destruct (H k ltac:(lia)) as (c&d&Hc&Hd&Heq).
      rewrite Nat.sub_0_r in Hc. eauto.
    - intros [?|H]; [left; by apply H2|right]. split; [lia|].
      intros k Hk. destruct (H k ltac:(lia)) as (c&d&Hc&Hd&Heq).
      exists c, d. by rewrite Nat.sub_0_r. }
  assert ((match irregularMask with Some m => flag m i | None => false end) = true
          ↔ flagged i) as Hflag.
  { unfold flagged, flag. destruct irregularMask as [m|].
    - destruct (m !! i) as [[]|] eqn:Em; simpl; (split; [try done; eauto|]).
      all: intros (m' & [= <-] & Hm'); congruence.
    - split; [done|]. by intros (?&?&?). }
  simpl. unfold nextMode.
  destruct (flag isBlack i) eqn:Eb.
  - split_and!; split; try done.
    + intros _. by apply Hblack.
    + intros [Hn _]. destruct Hn. by apply Hblack.
    + intros [Hn _]. destruct Hn. by apply Hblack.
  - assert (¬ (stem_covered i ∨ prefix_covered i)) as Hnb.
    { intros H. apply Hblack in H. congruence. }
    destruct (match irregularMask with Some m => flag m i | None => false end) eqn:Ef.
    + split_and!; split; try done.
      * intros _. split; [done|]. by apply Hflag.
      * intros [_ Hnf]. destruct Hnf. by apply Hflag.
    + assert (¬ flagged i) as Hnf by (intros H; apply Hflag in H; congruence).
      split_and!; split; try done.
      intros [_ ?]. done.
Qed.
End Colorizer.

(** ** A regular form is never highlighted *)

Lemma elem_of_uniq x xs : x ∈ uniq xs → x ∈ xs.
Proof.
  revert x. induction xs as [|y xs IH]; intros x; cbn [uniq]; [done|].
  intros [->|H]%elem_of_cons; [by left|].
  apply list_elem_of_filter in H as [_ H]. right. by apply IH.
Qed.

Lemma replace_c_id e : c_c ∉ e → replace_c e = e.
Proof.
  induction e as [|x e IH]; intros Hc; cbn [replace_c]; [done|].
  apply not_elem_of_cons in Hc as [Hx He].
  rewrite bool_decide_eq_false_2 by done. cbn [andb]. by rewrite IH.
Qed.

Lemma replace_g_id e : c_g ∉ e → replace_g e = e.
Proof.
  induction e as [|x e IH]; intros Hg; cbn [replace_g]; [done|].
  apply not_elem_of_cons in Hg as [Hx He].
  rewrite bool_decide_eq_false_2 by done. cbn [andb app]. by rewrite IH.
Qed.

(** The replacements only touch a [c] or a [g]: an ending without them is
    kept. *)
Lemma replace_c_suffix e : c_c ∉ e → ∀ X, ∃ X', replace_c (X ++ e) = X' ++ e.
Proof.
  intros Hc. induction X as [|x X [X' IH]].
  - exists []. by apply replace_c_id.
  - cbn [app replace_c]. rewrite IH. by eexists (_ :: X').
Qed.

Lemma replace_g_suffix e : c_g ∉ e → ∀ X, ∃ X', replace_g (X ++ e) = X' ++ e.
Proof.
  intros Hg. induction X as [|x X [X' IH]].
  - exists []. by apply replace_g_id.
  - cbn [app replace_g]. rewrite IH. eexists (_ ++ X'). by rewrite app_assoc.
Qed.

Lemma table_lookup_no_c_g (table : list jsstring) p e :
  Forall (fun e => (c_c ∉ e) ∧ (c_g ∉ e)) table → table !! p = Some e → (c_c ∉ e) ∧ (c_g ∉ e).
Proof. intros H Hp. by apply (proj1 (Forall_lookup _ _) H p e). Qed.

Lemma no_c_g_dec (table : list jsstring) :
  forallb (fun e => negb (bool_decide (c_c ∈ e)) && negb (bool_decide (c_g ∈ e))) table = true →
  Forall (fun e => (c_c ∉ e) ∧ (c_g ∉ e)) table.
Proof.
  intros H. apply Forall_forall. intros e He.
  apply list_elem_of_In in He.
  pose proof (proj1 (forallb_forall _ _) H e He) as Hb.
  apply andb_true_iff in Hb as [H1 H2].
  apply negb_true_iff, bool_decide_eq_false in H1, H2. done.
Qed.

(** No ending of the tables holds a [c] or a [g]. *)
Lemma regularEnding_no_c_g inf tenseKey p e :
  regularEnding inf tenseKey p = Some e → (c_c ∉ e) ∧ (c_g ∉ e).
Proof.
  assert ((c_c ∉ ([] : jsstring)) ∧ (c_g ∉ ([] : jsstring))) as Hnil
      by (split; apply not_elem_of_nil).
  unfold regularEnding.
  destruct tenseKey, (verbGroup inf);
    try (intros [= <-]; exact Hnil);
    apply table_lookup_no_c_g, no_c_g_dec; by vm_compute.
Qed.

(** Every variant ends with the table ending. *)
Lemma expectedRegularVariants_suffix lc inf tenseKey p stems e v :
  regularEnding inf tenseKey p = Some e →
  v ∈ expectedRegularVariants lc inf tenseKey p stems →
  ∃ X, v = X ++ e.
Proof.
  intros He. destruct (regularEnding_no_c_g _ _ _ _ He) as [Hc Hg].
  assert (∃ X0, expectedBaseForm inf tenseKey p stems = X0 ++ e) as [X0 Hbase].
  { unfold expectedBaseForm. destruct tenseKey; rewrite ?He; unfold js_concat;
      cbn [default]; try by eexists.
    exists []. unfold regularEnding in He. by injection He as <-. }
  unfold expectedRegularVariants. rewrite Hbase, He.
  destruct (truthy (X0 ++ e)); cbn [negb]; [|by intros ?%not_elem_of_nil].
  intros [_ Hv%elem_of_uniq]%list_elem_of_filter.
  apply elem_of_app in Hv as [Hv|Hv].
  - unfold cerGerVariants in Hv. apply elem_of_uniq in Hv.
    apply elem_of_app in Hv as [Hv|Hv]; [|apply elem_of_app in Hv as [Hv|Hv]].
    + apply list_elem_of_singleton in Hv as ->. by eexists.
    + destruct (_ && _); [|by apply not_elem_of_nil in Hv].
      apply list_elem_of_singleton in Hv as ->. by apply replace_c_suffix.
    + destruct (_ && _); [|by apply not_elem_of_nil in Hv].
      apply list_elem_of_singleton in Hv as ->. by apply replace_g_suffix.
  - destruct (bool_decide (tenseKey = T_present)) eqn:Ht; cbn [andb] in Hv;
      [|by apply not_elem_of_nil in Hv].
    apply bool_decide_eq_true in Ht. subst tenseKey.
    destruct (negb _); [|by apply not_elem_of_nil in Hv].
    apply list_elem_of_bind in Hv as (st1 & Hv & _).
    apply list_elem_of_bind in Hv as (st2 & Hv & _).
    apply list_elem_of_bind in Hv as (st3 & Hv & _).
    apply list_elem_of_singleton in Hv as ->.
    rewrite He. unfold js_concat. cbn [default]. by eexists.
Qed.

Lemma bestExpectedMask_some attested variants m :
  bestExpectedMask attested variants = Some m →
  ∃ v, v ∈ variants ∧ m = mask (editMask attested v).
Proof.
  intros Hm. destruct variants as [|v0 rest]; [done|].
  unfold bestExpectedMask in Hm.
  destruct (bestExpectedMask_loop_spec attested (v0 :: rest) None None)
    as [[Hr _]|(k & v & Hk & Hr & _)].
  - congruence.
  - exists v. split; [by eapply list_elem_of_lookup_2|congruence].
Qed.

(** When the form starts with the units looked for, the scan consumes them
    where they are. *)
Lemma stemScan_leading ls rest :
  ∀ done_,
    stemScan (done_ ++ ls ++ rest) ((fun c => [c]) <$> ls) (Z.of_nat (length done_) - 1)
    = Z.of_nat <$> seq (length done_) (length ls).
Proof.
  induction ls as [|c ls IH]; intros done_; [done|].
  cbn [fmap list_fmap stemScan length seq app].
  replace (Z.of_nat (length done_) - 1 + 1)%Z with (Z.of_nat (length done_)) by lia.
  rewrite indexOf_here.
  destruct (Z.eqb_spec (Z.of_nat (length done_)) (-1)) as [|_]; [lia|].
  f_equal.
  specialize (IH (done_ ++ [c])). rewrite length_app in IH. cbn [length] in IH.
  rewrite <- app_assoc in IH. cbn [app] in IH.
  replace (Z.of_nat (length done_ + 1) - 1)%Z with (Z.of_nat (length done_)) in IH by lia.
  rewrite IH. f_equal. f_equal. lia.
Qed.

Section RegularForm.
Variable toLowerCase : jsstring → jsstring.

(** C8: for an infinitive written in French letters, that is when the
    lower-cased linguistic stem holds no high surrogate, is at least as
    long as the stem and starts the lower-cased form, the form made of the
    linguistic stem and the table ending of the tense and person has no
    character classified irregular, whatever the shared prefix and the
    imparfait stem. *)
Theorem regular_form_not_irregular (inf : jsstring) (tenseKey : TenseKey)
    (personIndex : nat) (stems : option Stems) (sharedPrefix ending : jsstring) :
  let stem := linguisticStem inf in
  let form := stem ++ ending in
  regularEnding inf tenseKey personIndex = Some ending →
  Forall (fun c => is_high_surrogate c = false) (toLowerCase stem) →
  length stem ≤ length (toLowerCase stem) →
  toLowerCase stem `prefix_of` toLowerCase form →
  Forall (fun c => c = Some black ∨ c = Some normal)
    (char_classes None
       (colorizeForm toLowerCase form sharedPrefix stem
          (bestExpectedMask form
             (expectedRegularVariants toLowerCase inf tenseKey personIndex stems)))).
Proof.
  intros stem form He Hbmp Hlen [rest Hpre].
  rewrite colorizeForm_classes. apply Forall_fmap, Forall_forall.
  intros i [_ Hi]%elem_of_seq. simpl in Hi. simpl. unfold nextMode.
  set (isBlack := mergeSharedPrefix _ _ _ _).
  destruct (Nat.lt_ge_cases i (length stem)) as [Hstem|Hend].
  - assert (flag isBlack i = true) as ->; [|by left].
    unfold isBlack, mergeSharedPrefix.
    apply mergeSharedPrefix_from_flag. left.
    apply markStemLetters_scan_flag.
    rewrite Hpre, (codePoints_bmp _ Hbmp).
    pose proof (stemScan_leading (toLowerCase stem) rest []) as Hscan.
    cbn [app length] in Hscan. change (Z.of_nat 0 - 1)%Z with (-1)%Z in Hscan.
    rewrite Hscan. apply list_elem_of_fmap_2, elem_of_seq. lia.
  - destruct (flag isBlack i); [by left|]. right.
    destruct (bestExpectedMask form _) as [m|] eqn:Hm; [|done].
    apply bestExpectedMask_some in Hm as (v & Hv & ->).
    apply (expectedRegularVariants_suffix _ _ _ _ _ _ _ He) in Hv as [X ->].
    unfold flag, form. rewrite editMask_common_suffix; [done|].
    unfold form in Hi. lia.
Qed.
End RegularForm.

Lemma regular_form_not_irregular_witness :
  Forall (fun c => c = Some black ∨ c = Some normal)
    (char_classes None
       (colorizeForm latin1Lower (u "parlais") (u "parl") (u "parl")
          (bestExpectedMask (u "parlais")
             (expectedRegularVariants latin1Lower (u "parler") T_imparfait 0 None)))).
Proof.
  apply (regular_form_not_irregular latin1Lower (u "parler") T_imparfait 0 None
           (u "parl") (u "ais")).
  - reflexivity.
  - apply Forall_forall. intros c Hc. apply list_elem_of_In in Hc.
    vm_compute in Hc. repeat (destruct Hc as [<-|Hc]; [reflexivity|]). destruct Hc.
  - vm_compute. lia.
  - exists (latin1Lower (u "ais")). reflexivity.
Defined.

(** The hypothesis on surrogates is needed: [markStemLetters] marks one
    index per code point of the stem, while the mask and the colorizer
    count code units.  For the infinitive ["😀er"], which is no French
    word, imparfait, person 0, with the imparfait stem ["x"], the form
    made of the linguistic stem and the ending ["ais"] has its second code
    unit classified irregular; the first form of the cell built by
    [buildTenseCell] shows it. *)
Lemma regular_form_irregular_surrogate :
  verbGroup emoji_er = G_er
  ∧ regularEnding emoji_er T_imparfait 0 = Some (u "ais")
  ∧ linguisticStem emoji_er ++ u "ais" = emoji_ais
  ∧ char_classes None
      (colorizeForm latin1Lower emoji_ais [] (linguisticStem emoji_er)
         (bestExpectedMask emoji_ais
            (expectedRegularVariants latin1Lower emoji_er T_imparfait 0 stems_x)))
    = [Some black; Some hi; Some normal; Some normal; Some normal]
  ∧ (∃ first others,
       buildTenseCell latin1Lower id emoji_er emoji_present K_imp emoji_imparfait
       = Some (Cell (first :: others))
       ∧ char_classes None first
         = [Some black; Some hi; Some normal; Some normal; Some normal]).
Proof.
  split_and!; [by vm_compute..|].
  eexists _, _. split; by vm_compute.
Qed.

(** * Further properties *)

(** ** The cost of an alignment *)

Lemma subst_cost_sym b a i j : subst_cost b a i j = subst_cost a b j i.
Proof.
  unfold subst_cost. case_bool_decide as H1; case_bool_decide as H2; congruence.
Qed.

Lemma lev_sym b a : ∀ i j, lev b a i j = lev a b j i.
Proof.
  apply grid_ind.
  - done.
  - intros j _. by rewrite lev_0_l, lev_0_r.
  - intros i _. by rewrite lev_0_l, lev_0_r.
  - intros i j IH1 IH2 IH3.
    rewrite !lev_SS, IH1, IH2, IH3, (subst_cost_sym b a).
    rewrite <- !Nat.min_assoc. f_equal. apply Nat.min_comm.
Qed.

(** The cost does not depend on which of the two strings is the attested
    one. *)
Theorem editMask_score_symmetric (attested expected : jsstring) :
  score (editMask attested expected) = score (editMask expected attested).
Proof. rewrite !editMask_spec. cbn [score]. apply lev_sym. Qed.

Lemma lev_bounds b a :
  ∀ i j, i - j ≤ lev b a i j ∧ j - i ≤ lev b a i j ∧ lev b a i j ≤ i `max` j.
Proof.
  apply grid_ind.
  - simpl. lia.
  - intros j _. rewrite lev_0_l. lia.
  - intros i _. rewrite lev_0_r. lia.
  - intros i j IH1 IH2 IH3. rewrite lev_SS.
    assert (subst_cost b a (S i) (S j) ≤ 1)
      by (unfold subst_cost; case_bool_decide; lia).
    lia.
Qed.

(** The cost is at least the difference of the lengths and at most the
    greater length. *)
Theorem editMask_score_bounds (attested expected : jsstring) :
  length attested - length expected ≤ score (editMask attested expected)
  ∧ length expected - length attested ≤ score (editMask attested expected)
  ∧ score (editMask attested expected) ≤ length attested `max` length expected.
Proof.
  rewrite editMask_spec. cbn [score].
  destruct (lev_bounds expected attested (length expected) (length attested))
    as (H1 & H2 & H3).
  lia.
Qed.

(** ** Counting the steps of the path *)

Lemma count_op_cons op s path :
  count_op op (s :: path) = (if decide (s.1.1 = op) then 1 else 0) + count_op op path.
Proof.
  unfold count_op. rewrite filter_cons. by destruct (decide (s.1.1 = op)).
Qed.

Ltac count_steps :=
  rewrite !count_op_cons; cbn [fst snd foldl apply_step];
  repeat case_decide; try congruence; try lia.

(** Matches, substitutions and deletions consume the expected string;
    matches, substitutions and insertions the attested one; every step
    other than a match costs one. *)
Lemma spec_path_counts b a :
  ∀ i j,
    let p := spec_path b a i j in
    count_op Op_eq p + count_op Op_rep p + count_op Op_del p = i
    ∧ count_op Op_eq p + count_op Op_rep p + count_op Op_ins p = j
    ∧ count_op Op_rep p + count_op Op_ins p + count_op Op_del p = lev b a i j.
Proof.
  apply grid_ind; cbn zeta.
  - done.
  - intros j (H1 & H2 & H3). rewrite spec_path_0_S. rewrite lev_0_l in *. count_steps.
  - intros i (H1 & H2 & H3). rewrite spec_path_S_0. rewrite lev_0_r in *. count_steps.
  - intros i j (A1 & A2 & A3) (B1 & B2 & B3) (C1 & C2 & C3).
    rewrite spec_path_S_S, lev_SS. cbn [spec_op]. unfold pref_op.
    assert (subst_cost b a (S i) (S j) = 0 ∨ subst_cost b a (S i) (S j) = 1) as Hcost
        by (unfold subst_cost; case_bool_decide; auto).
    destruct (Nat.leb_spec (lev b a i j + subst_cost b a (S i) (S j)) (lev b a (S i) j + 1));
      [destruct (Nat.leb_spec (lev b a i j + subst_cost b a (S i) (S j))
                              (lev b a i (S j) + 1))|]; cbn [andb].
    + destruct (Nat.eqb_spec (subst_cost b a (S i) (S j)) 0); count_steps.
    + destruct (Nat.leb_spec (lev b a (S i) j + 1) (lev b a i (S j) + 1)); count_steps.
    + destruct (Nat.leb_spec (lev b a (S i) j + 1) (lev b a i (S j) + 1)); count_steps.
Qed.

Lemma count_true_insert (msk : list bool) k :
  msk !! k = Some false → count_true (<[k := true]> msk) = S (count_true msk).
Proof.
  unfold count_true. revert k. induction msk as [|x msk IH]; intros k Hk; [done|].
  destruct k as [|k]; simpl in Hk.
  - injection Hk as ->. change (<[0 := true]> (false :: msk)) with (true :: msk).
    rewrite filter_cons_True, filter_cons_False by done. done.
  - change (<[S k := true]> (x :: msk)) with (x :: <[k := true]> msk).
    rewrite !filter_cons. destruct (decide (x = true)); cbn [length]; by rewrite IH.
Qed.

(** Every substitution and insertion sets one entry that was not set. *)
Lemma apply_path_count b a :
  ∀ i j msk,
    j ≤ length msk → (∀ k, k < j → msk !! k = Some false) →
    count_true (foldl apply_step msk (spec_path b a i j))
    = count_true msk
      + count_op Op_rep (spec_path b a i j) + count_op Op_ins (spec_path b a i j).
Proof.
  assert (∀ (msk : list bool) j,
            S j ≤ length msk → (∀ k, k < S j → msk !! k = Some false) →
            j ≤ length (<[j := true]> msk)
            ∧ (∀ k, k < j → <[j := true]> msk !! k = Some false)
            ∧ count_true (<[j := true]> msk) = S (count_true msk)) as Hset.
  { intros msk j Hlen Hf. split_and!.
    - rewrite length_insert. lia.
    - intros k Hk. rewrite list_lookup_insert_ne by lia. apply Hf. lia.
    - apply count_true_insert, Hf. lia. }
  apply (grid_ind (fun i j => ∀ msk,
    j ≤ length msk → (∀ k, k < j → msk !! k = Some false) →
    count_true (foldl apply_step msk (spec_path b a i j))
    = count_true msk
      + count_op Op_rep (spec_path b a i j) + count_op Op_ins (spec_path b a i j))).
  - intros msk _ _. unfold count_op. simpl. lia.
  - intros j IH msk Hlen Hf. rewrite spec_path_0_S.
    cbn [foldl apply_step]. replace (S j - 1) with j by lia.
    destruct (Hset msk j Hlen Hf) as (L & F & C).
    rewrite (IH _ L F), C. count_steps.
  - intros i IH msk Hlen Hf. rewrite spec_path_S_0.
    cbn [foldl apply_step]. rewrite (IH _ Hlen Hf). count_steps.
  - intros i j IH1 IH2 IH3 msk Hlen Hf. rewrite spec_path_S_S.
    destruct (Hset msk j Hlen Hf) as (L & F & C).
    assert (j ≤ length msk ∧ ∀ k, k < j → msk !! k = Some false) as [L0 F0]
        by (split; [lia|intros; apply Hf; lia]).
    destruct (spec_op b a (S i) (S j)) as [[]|];
      cbn [foldl apply_step]; replace (S j - 1) with j by lia.
    + rewrite (IH1 _ L0 F0). count_steps.
    + rewrite (IH1 _ L F), C. count_steps.
    + rewrite (IH2 _ L F), C. count_steps.
    + rewrite (IH3 _ Hlen Hf). count_steps.
    + rewrite (IH1 _ L0 F0). count_steps.
Qed.

Lemma count_true_replicate n : count_true (replicate n false) = 0.
Proof.
  unfold count_true. induction n as [|n IH]; [done|].
  simpl. by rewrite filter_cons_False.
Qed.

Lemma count_true_zero l : count_true l = 0 ↔ Forall (fun x => x = false) l.
Proof.
  unfold count_true. induction l as [|x l IH]; [by split; [constructor|]|].
  rewrite filter_cons, Forall_cons. destruct (decide (x = true)) as [->|Hx]; simpl.
  - split; [done|]. by intros [? _].
  - rewrite IH. split; [|by intros [_ ?]]. intros ?. split; [|done].
    by destruct x.
Qed.

(** The counts of the path behind a result of [editMask]. *)
Lemma editMask_counts a b :
  ∃ n_eq n_rep n_ins n_del,
    n_eq + n_rep + n_del = length b
    ∧ n_eq + n_rep + n_ins = length a
    ∧ n_rep + n_ins + n_del = score (editMask a b)
    ∧ count_true (mask (editMask a b)) = n_rep + n_ins.
Proof.
  pose proof (spec_path_counts b a (length b) (length a)) as (H1 & H2 & H3).
  cbn zeta in *.
  exists (count_op Op_eq (spec_path b a (length b) (length a))),
         (count_op Op_rep (spec_path b a (length b) (length a))),
         (count_op Op_ins (spec_path b a (length b) (length a))),
         (count_op Op_del (spec_path b a (length b) (length a))).
  rewrite editMask_spec. cbn [score mask]. split_and!; [done..|].
  rewrite apply_path_count.
  - rewrite count_true_replicate. lia.
  - by rewrite length_replicate.
  - intros k Hk. by apply lookup_replicate_2.
Qed.

(** The number of flagged characters never exceeds the cost and covers
    at least the characters the attested form has in excess; the cost
    exceeds it by at least the number of characters the expected form has
    in excess. *)
Theorem editMask_flag_count (attested expected : jsstring) :
  let r := editMask attested expected in
  count_true (mask r) ≤ score r
  ∧ length attested - length expected ≤ count_true (mask r)
  ∧ length expected + count_true (mask r) ≤ score r + length attested.
Proof.
  intros r. unfold r.
  destruct (editMask_counts attested expected) as (e & s & i & d & H1 & H2 & H3 & H4).
  lia.
Qed.

(** No character is flagged exactly when the cost is the number of
    characters the expected form has in excess: the attested form is then
    the expected one with characters left out. *)
Theorem editMask_all_false_iff (attested expected : jsstring) :
  Forall (fun x => x = false) (mask (editMask attested expected))
  ↔ score (editMask attested expected) + length attested = length expected.
Proof.
  rewrite <- count_true_zero.
  destruct (editMask_counts attested expected) as (e & s & i & d & H1 & H2 & H3 & H4).
  lia.
Qed.

(** ** The selector on a regular form *)

Lemma all_false_replicate (l : list bool) :
  Forall (fun x => x = false) l → l = replicate (length l) false.
Proof. induction 1 as [|x l -> _ IH]; [done|]. simpl. by rewrite <- IH. Qed.

(** An attested form that is one of the variants is never highlighted:
    the mask returned has no entry set, wherever the form stands in the
    list. *)
Theorem bestExpectedMask_regular (attested : jsstring) (variants : list jsstring) :
  attested ∈ variants →
  bestExpectedMask attested variants = Some (replicate (length attested) false).
Proof.
  intros Hin. destruct variants as [|v0 rest]; [by apply not_elem_of_nil in Hin|].
  unfold bestExpectedMask.
  destruct (bestExpectedMask_loop_spec attested (v0 :: rest) None None)
    as [[_ Hno]|(k & v & Hk & Hr & _ & Hmin & _)].
  - specialize (Hno v0 (list_elem_of_here _ _)). done.
  - cbn zeta in Hr. rewrite Hr. f_equal.
    specialize (Hmin attested Hin).
    assert (score (editMask attested attested) = 0) as H0
        by (by apply editMask_score_zero).
    assert (attested = v) as <- by (apply editMask_score_zero; lia).
    transitivity (replicate (length (mask (editMask attested attested))) false).
    + apply all_false_replicate, editMask_same_all_false.
    + by rewrite length_editMask.
Qed.

Lemma bestExpectedMask_regular_witness :
  bestExpectedMask (u "appelle")
    (expectedRegularVariants latin1Lower (u "appeler") T_present 0 None)
  = Some (replicate 7 false).
Proof.
  apply (bestExpectedMask_regular (u "appelle")
           (expectedRegularVariants latin1Lower (u "appeler") T_present 0 None)).
  vm_compute. do 2 apply list_elem_of_further. apply list_elem_of_here.
Defined.

(** A mask returned by [bestExpectedMask] has one entry per character of
    the attested form, whatever the lengths of the variants. *)
Theorem bestExpectedMask_length (attested : jsstring) (variants : list jsstring)
    (m : list bool) :
  bestExpectedMask attested variants = Some m → length m = length attested.
Proof.
  intros (v & _ & ->)%bestExpectedMask_some. apply length_editMask.
Qed.

Lemma bestExpectedMask_length_witness :
  length (replicate 7 false) = length (u "appelle").
Proof.
  apply (bestExpectedMask_length (u "appelle")
           (expectedRegularVariants latin1Lower (u "appeler") T_present 0 None)).
  by vm_compute.
Defined.

(** ** The rule tables *)

Lemma endsWith_split s t : endsWith s t = true → s = slice_end s (length t) ++ t.
Proof.
  unfold endsWith, slice_end. intros H%bool_decide_eq_true.
  rewrite <- (take_drop (length s - length t) s) at 1. by rewrite H.
Qed.

(** The infinitive is its linguistic stem followed by the ending of its
    group, and that stem is the one the base form is built on. *)
Theorem linguisticStem_splits (inf : jsstring) :
  match verbGroup inf with
  | G_er => inf = linguisticStem inf ++ u "er"
  | G_ir => inf = linguisticStem inf ++ u "ir"
  | G_re => inf = linguisticStem inf ++ u "re"
  | G_other => linguisticStem inf = inf
  end
  ∧ ∀ personIndex stems,
      expectedBaseForm inf T_present personIndex stems
      = js_concat (linguisticStem inf) (regularEnding inf T_present personIndex).
Proof.
  unfold expectedBaseForm, verbGroup, linguisticStem.
  destruct (endsWith inf (u "er")) eqn:E1;
    [|destruct (endsWith inf (u "ir")) eqn:E2;
      [|destruct (endsWith inf (u "re")) eqn:E3]].
  - split; [by apply (endsWith_split inf (u "er"))|]. intros. by rewrite decide_False.
  - split; [by apply (endsWith_split inf (u "ir"))|]. intros. by rewrite decide_False.
  - split; [by apply (endsWith_split inf (u "re"))|]. intros. by rewrite decide_False.
  - split; [done|]. intros. by rewrite decide_True.
Qed.

(** ** The variants as a set *)

Lemma NoDup_uniq xs : NoDup (uniq xs).
Proof.
  induction xs as [|x xs IH]; cbn [uniq]; [constructor|].
  apply NoDup_cons. split.
  - intros [H _]%list_elem_of_filter. by apply H.
  - by apply NoDup_filter.
Qed.

Lemma uniq_NoDup xs : NoDup xs → uniq xs = xs.
Proof.
  induction 1 as [|x xs Hx _ IH]; cbn [uniq]; [done|].
  rewrite IH. f_equal. clear IH.
  induction xs as [|y xs IHxs]; [done|].
  apply not_elem_of_cons in Hx as [Hxy Hx].
  rewrite filter_cons_True by congruence. f_equal. by apply IHxs.
Qed.

Lemma elem_of_uniq_2 x xs : x ∈ xs → x ∈ uniq xs.
Proof.
  induction xs as [|y xs IH]; cbn [uniq]; [done|].
  intros [->|H]%elem_of_cons; [by left|].
  destruct (decide (x = y)) as [->|Hne]; [by left|].
  right. apply list_elem_of_filter. split; [done|by apply IH].
Qed.

(** The variants are pairwise distinct and none is the empty string. *)
Theorem expectedRegularVariants_distinct_nonempty (toLowerCase : jsstring → jsstring)
    (inf : jsstring) (tenseKey : TenseKey) (personIndex : nat) (stems : option Stems) :
  NoDup (expectedRegularVariants toLowerCase inf tenseKey personIndex stems)
  ∧ Forall (fun v => v ≠ [])
      (expectedRegularVariants toLowerCase inf tenseKey personIndex stems).
Proof.
  unfold expectedRegularVariants.
  destruct (truthy _); cbn [negb]; [|split; constructor].
  split.
  - apply NoDup_filter, NoDup_uniq.
  - apply Forall_forall. intros v [Hv _]%list_elem_of_filter. by apply truthy_nonempty.
Qed.

(** There is no variant exactly when the base form is empty; otherwise
    the base form is the first variant, whatever rules apply. *)
Theorem expectedRegularVariants_base_first (toLowerCase : jsstring → jsstring)
    (inf : jsstring) (tenseKey : TenseKey) (personIndex : nat) (stems : option Stems) :
  let base := expectedBaseForm inf tenseKey personIndex stems in
  let variants := expectedRegularVariants toLowerCase inf tenseKey personIndex stems in
  (variants = [] ↔ base = [])
  ∧ (base ≠ [] → ∃ tl, variants = base :: tl).
Proof.
  intros base variants. unfold base, variants.
  destruct (truthy (expectedBaseForm inf tenseKey personIndex stems)) eqn:Hb.
  - destruct (expectedRegularVariants_head toLowerCase _ _ _ _ Hb) as [tl Htl].
    apply truthy_nonempty in Hb. rewrite Htl. split; [done|]. eauto.
  - assert (expectedBaseForm inf tenseKey personIndex stems = []) as Hnil
        by (by destruct (expectedBaseForm _ _ _ _)).
    unfold expectedRegularVariants. rewrite Hb, Hnil. done.
Qed.

(** Outside the present tense, for an infinitive that is neither in [-cer]
    nor in [-ger], the base form is the only variant. *)
Theorem expectedRegularVariants_only_base (toLowerCase : jsstring → jsstring)
    (inf : jsstring) (tenseKey : TenseKey) (personIndex : nat) (stems : option Stems) :
  tenseKey ≠ T_present →
  endsWith (toLowerCase inf) (u "cer") = false →
  endsWith (toLowerCase inf) (u "ger") = false →
  expectedRegularVariants toLowerCase inf tenseKey personIndex stems
  = if truthy (expectedBaseForm inf tenseKey personIndex stems)
    then [expectedBaseForm inf tenseKey personIndex stems] else [].
Proof.
  intros Ht Hc Hg. unfold expectedRegularVariants, cerGerVariants.
  destruct (truthy _) eqn:Hb; cbn [negb]; [|done].
  rewrite Hc, Hg, (bool_decide_eq_false_2 _ Ht). cbn [andb app uniq].
  rewrite !filter_nil. cbn [app uniq]. rewrite filter_nil.
  by rewrite filter_cons_True, filter_nil.
Qed.

Lemma expectedRegularVariants_only_base_witness :
  expectedRegularVariants latin1Lower (u "parler") T_futur 3 None = [u "parlerons"].
Proof.
  apply (expectedRegularVariants_only_base latin1Lower (u "parler") T_futur 3 None).
  - done.
  - by vm_compute.
  - by vm_compute.
Defined.

Lemma filter_ne_comm (x y : jsstring) (l : list jsstring) :
  filter (fun z => z ≠ y) (filter (fun z => z ≠ x) l)
  = filter (fun z => z ≠ x) (filter (fun z => z ≠ y) l).
Proof.
  induction l as [|z l IH]; [done|].
  rewrite !(filter_cons _ z l).
  destruct (decide (z ≠ x)), (decide (z ≠ y));
    rewrite ?filter_cons_True, ?filter_cons_False by done; by rewrite IH.
Qed.

Lemma filter_uniq_snoc (y : jsstring) xs :
  filter (fun z => z ≠ y) (uniq (xs ++ [y])) = filter (fun z => z ≠ y) (uniq xs).
Proof.
  induction xs as [|x xs IH]; cbn [app uniq].
  - rewrite filter_nil, filter_cons_False, filter_nil by (by intros H; apply H). done.
  - rewrite !(filter_cons _ x). rewrite !(filter_ne_comm x y), IH. done.
Qed.

(** Appending an element that is already there does not change the set. *)
Lemma uniq_snoc_dup (y : jsstring) xs : y ∈ xs → uniq (xs ++ [y]) = uniq xs.
Proof.
  induction xs as [|x xs IH]; [by intros ?%not_elem_of_nil|].
  intros Hy. cbn [app uniq]. f_equal.
  destruct (decide (y = x)) as [->|Hne].
  - apply filter_uniq_snoc.
  - apply elem_of_cons in Hy as [?|Hy]; [done|]. by rewrite IH.
Qed.

(** In the present tense, for [nous] and [vous] (persons 3 and 4), the
    spelling changes of the stem do not apply: the variants are the
    [cer]/[ger] variants of the base form and nothing else. *)
Theorem expectedRegularVariants_nous_vous (toLowerCase : jsstring → jsstring)
    (inf : jsstring) (personIndex : nat) (stems : option Stems) :
  personIndex = 3 ∨ personIndex = 4 →
  expectedRegularVariants toLowerCase inf T_present personIndex stems
  = filter (fun v => truthy v = true)
      (cerGerVariants toLowerCase
         (expectedBaseForm inf T_present personIndex stems) inf
         (regularEnding inf T_present personIndex)).
Proof.
  intros Hp. unfold expectedRegularVariants.
  set (base := expectedBaseForm inf T_present personIndex stems).
  destruct (truthy base) eqn:Hb; cbn [negb].
  2:{ assert (base = []) as -> by (by destruct base).
      unfold cerGerVariants.
      repeat match goal with |- context [if ?c then _ else _] => destruct c end;
        reflexivity. }
  assert (silentE personIndex = false) as Hs by (by destruct Hp as [-> | ->]).
  rewrite bool_decide_eq_true_2 by done. cbn [andb].
  destruct (bool_decide (verbGroup inf = G_other)) eqn:Hg; cbn [negb].
  - rewrite app_nil_r. f_equal. apply uniq_NoDup, NoDup_uniq.
  - apply bool_decide_eq_false in Hg.
    unfold yerStemVariants, eerStemVariants, elerEterStemVariants.
    rewrite Hs. cbn [negb bool_decide]. rewrite bool_decide_eq_true_2 by done.
    cbn [negb]. cbn [mbind list_bind app]. 
    assert (js_concat (slice_end inf 2) (regularEnding inf T_present personIndex) = base)
      as -> by (unfold base, expectedBaseForm; by rewrite decide_False).
    f_equal. unfold cerGerVariants. cbn [app].
    rewrite uniq_snoc_dup by (cbn [uniq]; left).
    apply uniq_NoDup, NoDup_uniq.
Qed.

Lemma expectedRegularVariants_nous_vous_witness :
  expectedRegularVariants latin1Lower (u "manger") T_present 3 None
  = filter (fun v => truthy v = true)
      (cerGerVariants latin1Lower
         (expectedBaseForm (u "manger") T_present 3 None) (u "manger")
         (regularEnding (u "manger") T_present 3)).
Proof.
  apply (expectedRegularVariants_nous_vous latin1Lower (u "manger") 3 None). by left.
Defined.

(** ** The [cer]/[ger] replacements *)

Lemma followed_replace_c rest : followed_by_aao (replace_c rest) = followed_by_aao rest.
Proof.
  destruct rest as [|x rest]; [done|]. cbn [replace_c followed_by_aao].
  case_bool_decide as Hx; [|done]. rewrite Hx.
  by destruct (followed_by_aao rest).
Qed.

Lemma followed_replace_g rest : followed_by_aao (replace_g rest) = followed_by_aao rest.
Proof.
  destruct rest as [|x rest]; [done|]. cbn [replace_g].
  case_bool_decide as Hx; [|done]. rewrite Hx.
  by destruct (followed_by_aao rest).
Qed.

Lemma replace_c_clean s : has_before_aao c_c (replace_c s) = false.
Proof.
  induction s as [|x s IH]; [done|].
  cbn [replace_c has_before_aao]. rewrite IH, followed_replace_c, orb_false_r.
  destruct (decide (x = c_c)) as [->|Hx].
  - by destruct (followed_by_aao s).
  - rewrite (bool_decide_eq_false_2 (x = c_c)) by done. cbn [andb].
    by rewrite bool_decide_eq_false_2.
Qed.

Lemma replace_g_clean s : has_before_aao c_g (replace_g s) = false.
Proof.
  induction s as [|x s IH]; [done|].
  cbn [replace_g]. destruct (decide (x = c_g)) as [->|Hx].
  - rewrite (bool_decide_eq_true_2 (c_g = c_g)) by done. cbn [andb].
    destruct (followed_by_aao s) eqn:Hf; cbn [app has_before_aao].
    + rewrite IH. done.
    + rewrite IH, followed_replace_g, Hf. done.
  - rewrite (bool_decide_eq_false_2 (x = c_g)) by done.
    cbn [andb app has_before_aao]. rewrite IH, orb_false_r.
    by rewrite bool_decide_eq_false_2.
Qed.

Lemma replace_c_unchanged s : has_before_aao c_c s = false → replace_c s = s.
Proof.
  induction s as [|x s IH]; [done|]. cbn [replace_c has_before_aao].
  intros [-> H]%orb_false_iff. by rewrite IH.
Qed.

Lemma replace_g_unchanged s : has_before_aao c_g s = false → replace_g s = s.
Proof.
  induction s as [|x s IH]; [done|]. cbn [replace_g has_before_aao].
  intros [-> H]%orb_false_iff. cbn [app]. by rewrite IH.
Qed.

Lemma length_replace_c s : length (replace_c s) = length s.
Proof. induction s as [|x s IH]; [done|]. cbn [replace_c length]. by rewrite IH. Qed.

(** [cerGerVariants] adds to the form only spellings in which no [c]
    (resp. [g]) stands before [a], [â] or [o] any more; the [ç] spelling
    has the length of the form; and a form that has no such [c] or [g]
    is returned alone. *)
Theorem cerGerVariants_replacements (toLowerCase : jsstring → jsstring)
    (form inf : jsstring) (ending : option jsstring) :
  (∀ v, v ∈ cerGerVariants toLowerCase form inf ending →
     v = form
     ∨ (v = replace_c form ∧ has_before_aao c_c v = false ∧ length v = length form)
     ∨ (v = replace_g form ∧ has_before_aao c_g v = false))
  ∧ (has_before_aao c_c form = false → has_before_aao c_g form = false →
     cerGerVariants toLowerCase form inf ending = [form]).
Proof.
  split.
  - intros v Hv%elem_of_uniq. apply elem_of_app in Hv as [Hv|Hv];
      [|apply elem_of_app in Hv as [Hv|Hv]].
    + apply list_elem_of_singleton in Hv. by left.
    + destruct (_ && _); [|by apply not_elem_of_nil in Hv].
      apply list_elem_of_singleton in Hv as ->. right; left.
      split_and!; [done|apply replace_c_clean|apply length_replace_c].
    + destruct (_ && _); [|by apply not_elem_of_nil in Hv].
      apply list_elem_of_singleton in Hv as ->. right; right.
      split; [done|apply replace_g_clean].
  - intros Hc Hg. unfold cerGerVariants.
    rewrite (replace_c_unchanged _ Hc), (replace_g_unchanged _ Hg).
    repeat match goal with |- context [if ?c then _ else _] => destruct c end;
      cbn [app uniq];
      rewrite ?filter_cons_False, ?filter_nil by (by intros H; apply H); done.
Qed.

(** Every variant ends with the table ending of its tense and person. *)
Theorem expectedRegularVariants_end_with_ending (toLowerCase : jsstring → jsstring)
    (inf : jsstring) (tenseKey : TenseKey) (personIndex : nat) (stems : option Stems)
    (ending : jsstring) :
  regularEnding inf tenseKey personIndex = Some ending →
  Forall (fun v => ∃ X, v = X ++ ending)
    (expectedRegularVariants toLowerCase inf tenseKey personIndex stems).
Proof.
  intros He. apply Forall_forall. intros v Hv.
  by eapply expectedRegularVariants_suffix.
Qed.

Lemma expectedRegularVariants_end_with_ending_witness :
  Forall (fun v => ∃ X, v = X ++ u "ons")
    (expectedRegularVariants latin1Lower (u "manger") T_present 3 None).
Proof.
  apply (expectedRegularVariants_end_with_ending latin1Lower (u "manger") T_present 3 None).
  reflexivity.
Defined.

(** ** The spans of a rendered form *)

Lemma render_spans_snoc sp m s :
  render_spans (sp ++ [(m, s)])
  = render_spans sp ++ SpanOpen m :: (Text <$> s) ++ [SpanClose].
Proof.
  induction sp as [|[m' s'] sp IH]; cbn [app render_spans]; [done|].
  rewrite IH. by rewrite <- !app_assoc.
Qed.

Lemma html_text_app out1 out2 : html_text (out1 ++ out2) = html_text out1 ++ html_text out2.
Proof. induction out1 as [|[m|c|] out1 IH]; simpl; by rewrite ?IH. Qed.

Lemma html_text_Text s : html_text (Text <$> s) = s.
Proof.
  induction s as [|c s IH]; [done|].
  rewrite fmap_cons. cbn [html_text]. by rewrite IH.
Qed.

Lemma html_text_render_spans sp : html_text (render_spans sp) = concat (sp.*2).
Proof.
  induction sp as [|[m s] sp IH]; [done|].
  rewrite fmap_cons. cbn [render_spans html_text concat snd].
  rewrite html_text_app, html_text_Text. cbn [html_text]. by rewrite IH.
Qed.

Lemma alternate_snoc ms m :
  alternate ms → last ms ≠ Some m → alternate (ms ++ [m]).
Proof.
  induction ms as [|m1 [|m2 ms] IH]; intros Ha Hl.
  - done.
  - split; [|done]. intros ->. by apply Hl.
  - destruct Ha as [Hne Ha]. split; [done|].
    apply IH; [done|]. by rewrite last_cons_cons in Hl.
Qed.

Lemma alternate_same_modes (sp : list (Mode * jsstring)) m s s' :
  alternate ((sp ++ [(m, s)]).*1) → alternate ((sp ++ [(m, s')]).*1).
Proof. by rewrite !fmap_app. Qed.

(** What the loop of [colorizeForm] keeps: the pieces written so far are
    closed spans followed by one open span, none empty, no two
    neighbouring spans of the same mode. *)
Lemma colorize_loop_spans isBlack irregularMask rest :
  ∀ i mode out done_,
    (mode = None ∧ out = [] ∧ done_ = []
     ∨ ∃ sp m s, mode = Some m ∧ s ≠ []
         ∧ out = render_spans sp ++ SpanOpen m :: (Text <$> s)
         ∧ Forall (fun p : Mode * jsstring => p.2 ≠ []) sp
         ∧ alternate ((sp ++ [(m, s)]).*1)
         ∧ concat (sp.*2) ++ s = done_) →
    let r := colorize_loop isBlack irregularMask i rest mode out in
    (r.1 = None ∧ r.2 = [] ∧ done_ ++ rest = []
     ∨ ∃ sp m s, r.1 = Some m ∧ s ≠ []
         ∧ r.2 = render_spans sp ++ SpanOpen m :: (Text <$> s)
         ∧ Forall (fun p : Mode * jsstring => p.2 ≠ []) sp
         ∧ alternate ((sp ++ [(m, s)]).*1)
         ∧ concat (sp.*2) ++ s = done_ ++ rest).
Proof.
  induction rest as [|c rest IH]; intros i mode out done_ Hinv; cbn zeta.
  - cbn [colorize_loop fst snd]. rewrite app_nil_r. done.
  - cbn [colorize_loop].
    set (next := nextMode isBlack irregularMask i).
    replace (done_ ++ c :: rest) with ((done_ ++ [c]) ++ rest)
      by (by rewrite <- app_assoc).
    destruct Hinv as [(-> & -> & ->)|(sp & m & s & -> & Hs & -> & Hne & Halt & <-)].
    + rewrite bool_decide_eq_false_2 by done.
      apply IH. right. exists [], next, [c]. split_and!; done.
    + case_bool_decide as Hm.
      * injection Hm as ->. apply IH. right. exists sp, next, (s ++ [c]).
        split_and!.
        -- done.
        -- by destruct s.
        -- rewrite fmap_app. by rewrite <- !app_assoc.
        -- done.
        -- by eapply alternate_same_modes.
        -- by rewrite app_assoc.
      * apply IH. right. exists (sp ++ [(m, s)]), next, [c].
        split_and!; [done|done|..].
        -- rewrite render_spans_snoc, <- !app_assoc. cbn [app].
           by rewrite <- !app_assoc.
        -- apply Forall_app. split; [done|]. by constructor.
        -- rewrite fmap_app. apply alternate_snoc; [done|].
           rewrite fmap_app. change ([(m, s)].*1) with [m].
           rewrite last_snoc. exact Hm.
        -- rewrite fmap_app, concat_app. cbn. by rewrite app_nil_r.
Qed.

Lemma colorizeForm_spans_exist (toLowerCase : jsstring → jsstring)
    form sharedPrefix stem irregularMask :
  ∃ sp, colorizeForm toLowerCase form sharedPrefix stem irregularMask = render_spans sp
    ∧ Forall (fun p : Mode * jsstring => p.2 ≠ []) sp
    ∧ alternate (sp.*1)
    ∧ concat (sp.*2) = form.
Proof.
  unfold colorizeForm.
  set (isBlack := mergeSharedPrefix _ _ _ _).
  pose proof (colorize_loop_spans isBlack irregularMask form 0 None [] []
                (or_introl (conj eq_refl (conj eq_refl eq_refl)))) as H.
  cbn zeta in H. destruct (colorize_loop _ _ _ _ _ _) as [mode out].
  cbn [fst snd app] in H.
  destruct H as [(-> & -> & Hform)|(sp & m & s & -> & Hs & -> & Hne & Halt & <-)].
  - exists []. rewrite Hform. split_and!; [done|constructor|done|done].
  - exists (sp ++ [(m, s)]). split_and!.
    + rewrite render_spans_snoc. by rewrite <- !app_assoc.
    + apply Forall_app. split; [done|]. by constructor.
    + done.
    + rewrite fmap_app, concat_app. cbn. by rewrite app_nil_r.
Qed.

(** The output of [colorizeForm] is a sequence of complete spans, each
    opened, filled with at least one character and closed; neighbouring
    spans have different modes; and the characters of the spans, in order,
    are those of the form (nothing for the empty form). *)
Theorem colorizeForm_spans (toLowerCase : jsstring → jsstring)
    (form sharedPrefix stem : jsstring) (irregularMask : option (list bool)) :
  ∃ sp, colorizeForm toLowerCase form sharedPrefix stem irregularMask = render_spans sp
    ∧ Forall (fun p : Mode * jsstring => p.2 ≠ []) sp
    ∧ alternate (sp.*1)
    ∧ concat (sp.*2) = form.
Proof. apply colorizeForm_spans_exist. Qed.

Lemma colorizeForm_text (toLowerCase : jsstring → jsstring)
    form sharedPrefix stem irregularMask :
  html_text (colorizeForm toLowerCase form sharedPrefix stem irregularMask) = form.
Proof.
  destruct (colorizeForm_spans_exist toLowerCase form sharedPrefix stem irregularMask)
    as (sp & -> & _ & _ & <-).
  apply html_text_render_spans.
Qed.

(** ** The shared prefix is rendered as stem *)

Lemma applyBlackUnionRules_ci (toLowerCase : jsstring → jsstring) forms f :
  f ∈ forms → ci_prefix_of toLowerCase (applyBlackUnionRules toLowerCase forms) f.
Proof.
  destruct forms as [|form0 rest]; [by intros ?%not_elem_of_nil|].
  cbn [applyBlackUnionRules].
  destruct (applyBlackUnionRules_loop_spec toLowerCase rest form0) as [Hp Hc].
  intros [->|Hf]%elem_of_cons; [|by apply Hc].
  by apply ci_prefix_refl_prefix.
Qed.

(** A prefix that agrees with the form up to case is black in it. *)
Lemma ci_prefix_black (toLowerCase : jsstring → jsstring)
    form sharedPrefix stem irregularMask i :
  ci_prefix_of toLowerCase sharedPrefix form → i < length sharedPrefix →
  char_classes None (colorizeForm toLowerCase form sharedPrefix stem irregularMask) !! i
  = Some (Some black).
Proof.
  intros [Hlen Hci] Hi. rewrite colorizeForm_classes.
  rewrite list_lookup_fmap, lookup_seq_lt by lia. cbn [fmap option_fmap option_map].
  change (0 + i) with i. do 2 f_equal. unfold nextMode.
  set (isBlack := mergeSharedPrefix _ _ _ _).
  assert (flag isBlack i = true) as ->; [|done].
  unfold isBlack, mergeSharedPrefix. apply mergeSharedPrefix_from_flag. right.
  split; [lia|]. intros k Hk. rewrite Nat.sub_0_r.
  destruct (lookup_lt_is_Some_2 sharedPrefix k) as [c Hc]; [lia|].
  destruct (lookup_lt_is_Some_2 form k) as [d Hd]; [lia|].
  exists c, d. split_and!; [done..|]. symmetry. by eapply Hci.
Qed.

(** In every form of the list from which the shared prefix was computed,
    the characters under the shared prefix are classified as stem, whatever
    the deviation mask and the linguistic stem. *)
Theorem shared_prefix_is_black (toLowerCase : jsstring → jsstring)
    (forms : list jsstring) (form stem : jsstring)
    (irregularMask : option (list bool)) (i : nat) :
  form ∈ forms →
  i < length (applyBlackUnionRules toLowerCase forms) →
  char_classes None
    (colorizeForm toLowerCase form (applyBlackUnionRules toLowerCase forms) stem
       irregularMask) !! i
  = Some (Some black).
Proof.
  intros Hf Hi. apply ci_prefix_black; [|done]. by apply applyBlackUnionRules_ci.
Qed.

Lemma shared_prefix_is_black_witness :
  char_classes None
    (colorizeForm latin1Lower (u "parlons") (applyBlackUnionRules latin1Lower parler_six)
       [] (Some [true; true; true; true; true; true; true])) !! 3
  = Some (Some black).
Proof.
  apply (shared_prefix_is_black latin1Lower parler_six (u "parlons") []
           (Some [true; true; true; true; true; true; true]) 3).
  - vm_compute. do 3 apply list_elem_of_further. apply list_elem_of_here.
  - vm_compute. lia.
Defined.

(** ** How many positions [markStemLetters] marks *)

Lemma count_true_app l1 l2 : count_true (l1 ++ l2) = count_true l1 + count_true l2.
Proof. unfold count_true. by rewrite filter_app, length_app. Qed.

Lemma flag_false_lookup (arr : list bool) k :
  flag arr k = false → k < length arr → arr !! k = Some false.
Proof.
  unfold flag. intros Hf Hk.
  destruct (lookup_lt_is_Some_2 arr k Hk) as [x Hx]. rewrite Hx in *.
  simpl in Hf. by subst.
Qed.

(** Setting an entry that was not set adds one to the count. *)
Lemma count_true_js_set arr idx :
  flag arr idx = false → count_true (js_set arr idx true) = S (count_true arr).
Proof.
  intros Hf. unfold js_set. destruct (Nat.ltb_spec idx (length arr)).
  - apply count_true_insert. by apply flag_false_lookup.
  - rewrite !count_true_app, count_true_replicate.
    change (count_true [true]) with 1. lia.
Qed.

Lemma length_js_set arr idx v :
  length arr ≤ length (js_set arr idx v)
  ∧ (idx < length arr → length (js_set arr idx v) = length arr).
Proof.
  unfold js_set. destruct (Nat.ltb_spec idx (length arr)).
  - rewrite length_insert. lia.
  - rewrite length_app. lia.
Qed.

Lemma flag_js_set_false arr idx k :
  flag (js_set arr idx true) k = false ↔ flag arr k = false ∧ k ≠ idx.
Proof.
  rewrite <- !not_true_iff_false, flag_js_set. split.
  - intros H. split; [intros ?; apply H; by left|intros ->; apply H; by right].
  - intros [H1 H2] [?|?]; done.
Qed.

Lemma length_stemScan lower chs : ∀ lastIdx, length (stemScan lower chs lastIdx) ≤ length chs.
Proof.
  induction chs as [|ch chs IH]; intros lastIdx; cbn [stemScan length]; [done|].
  destruct (Z.eqb_spec (indexOf lower ch (lastIdx + 1)) (-1)); cbn [length]; [lia|].
  specialize (IH (indexOf lower ch (lastIdx + 1))). lia.
Qed.

(** Every consumed index sets an entry that was not set. *)
Lemma markStemLetters_loop_count lower chs :
  ∀ isBlack lastIdx,
    (-1 ≤ lastIdx)%Z → Forall (fun ch => ch ≠ []) chs →
    (∀ k, (lastIdx < Z.of_nat k)%Z → flag isBlack k = false) →
    count_true (markStemLetters_loop lower chs isBlack lastIdx)
    = count_true isBlack + length (stemScan lower chs lastIdx).
Proof.
  induction chs as [|ch chs IH]; intros isBlack lastIdx Hl Hne Hclean;
    cbn [stemScan markStemLetters_loop length]; [lia|].
  apply Forall_cons in Hne as [Hch Hne].
  destruct (Z.eqb_spec (indexOf lower ch (lastIdx + 1)) (-1)) as [|Hidx];
    cbn [length]; [lia|].
  pose proof (indexOf_found lower ch (lastIdx + 1) Hch ltac:(lia) Hidx) as Hb.
  rewrite IH; [|lia|done|].
  - rewrite count_true_js_set; [lia|]. apply Hclean. lia.
  - intros k Hk. apply flag_js_set_false. split; [apply Hclean; lia|lia].
Qed.

Lemma markStemLetters_loop_length lower chs :
  ∀ isBlack lastIdx,
    (-1 ≤ lastIdx)%Z → Forall (fun ch => ch ≠ []) chs →
    length isBlack ≤ length (markStemLetters_loop lower chs isBlack lastIdx)
    ∧ (length lower ≤ length isBlack →
       length (markStemLetters_loop lower chs isBlack lastIdx) = length isBlack).
Proof.
  induction chs as [|ch chs IH]; intros isBlack lastIdx Hl Hne;
    cbn [markStemLetters_loop]; [done|].
  apply Forall_cons in Hne as [Hch Hne].
  destruct (Z.eqb_spec (indexOf lower ch (lastIdx + 1)) (-1)) as [|Hidx]; [done|].
  pose proof (indexOf_found lower ch (lastIdx + 1) Hch ltac:(lia) Hidx) as Hb.
  destruct (IH (js_set isBlack (Z.to_nat (indexOf lower ch (lastIdx + 1))) true)
               (indexOf lower ch (lastIdx + 1)) ltac:(lia) Hne) as [IH1 IH2].
  destruct (length_js_set isBlack (Z.to_nat (indexOf lower ch (lastIdx + 1))) true)
    as [L1 L2].
  split; [lia|]. intros Hlow. rewrite IH2; [|lia]. apply L2. lia.
Qed.

(** [markStemLetters] sets exactly one entry per stem character consumed
    by the scan, hence at most one per code point of the stem; its result
    is never shorter than the form, and has the length of the form
    whenever lower-casing does not lengthen the form. *)
Theorem markStemLetters_count (toLowerCase : jsstring → jsstring) (form stem : jsstring) :
  count_true (markStemLetters toLowerCase form stem)
  = length (stemScan (toLowerCase form) (codePoints (toLowerCase stem)) (-1))
  ∧ count_true (markStemLetters toLowerCase form stem)
    ≤ length (codePoints (toLowerCase stem))
  ∧ length form ≤ length (markStemLetters toLowerCase form stem)
  ∧ (length (toLowerCase form) ≤ length form →
     length (markStemLetters toLowerCase form stem) = length form).
Proof.
  unfold markStemLetters.
  pose proof (codePoints_nonempty (toLowerCase stem)) as Hne.
  pose proof (markStemLetters_loop_count (toLowerCase form) _
                (replicate (length form) false) (-1) ltac:(lia) Hne) as Hc.
  rewrite count_true_replicate in Hc.
  destruct (markStemLetters_loop_length (toLowerCase form) _
              (replicate (length form) false) (-1) ltac:(lia) Hne) as [L1 L2].
  rewrite length_replicate in *.
  assert (∀ k, (-1 < Z.of_nat k)%Z → flag (replicate (length form) false) k = false)
    as Hclean.
  { intros k _. unfold flag.
    destruct (replicate (length form) false !! k) as [x|] eqn:E; [|done].
    by apply lookup_replicate_1 in E as [-> _]. }
  specialize (Hc Hclean). cbn [Nat.add] in Hc.
  pose proof (length_stemScan (toLowerCase form) (codePoints (toLowerCase stem)) (-1)).
  split_and!; [done|lia|done|done].
Qed.

(** ** The cells *)

Lemma mapM_Some_fmap {A B : Type} (f : A → option B) (g : A → B) (l : list A) :
  (∀ x, x ∈ l → f x = Some (g x)) → mapM f l = Some (g <$> l).
Proof.
  induction l as [|x l IH]; intros Hf; [done|].
  cbn [mapM]. rewrite (Hf x) by by left. cbn [mbind option_bind].
  rewrite IH by (intros y Hy; apply Hf; by right). done.
Qed.

(** [encodeURIComponent] throws on nothing but surrogates. *)
Lemma encodeURIComponent_no_surrogate (s : jsstring) :
  Forall (fun c => is_high_surrogate c = false ∧ is_low_surrogate c = false) s →
  is_Some (encodeURIComponent s).
Proof.
  induction 1 as [|c s [Hh Hl] _ [e IH]]; [by eexists|].
  cbn [encodeURIComponent]. rewrite Hh, Hl, IH.
  destruct (is_uri_unescaped c); by eexists.
Qed.

(** With six forms or more, outside the passé simple, the [URIError] of one
    audio link is the outcome of the whole call. *)
Lemma buildTenseCell_throws (toLowerCase normalizeNFD : jsstring → jsstring)
    (w : jsstring) (pr : list jsstring) (tenseKey : ShortKey) (forms : list jsstring)
    (i : nat) :
  6 ≤ length forms →
  tenseKey ≠ K_ps →
  i < 6 →
  makeAudioFrenchUrl toLowerCase normalizeNFD w i (default [] (forms !! i)) = None →
  buildTenseCell toLowerCase normalizeNFD w pr tenseKey forms = None.
Proof.
  intros Hlen Hps Hi Hurl. unfold buildTenseCell.
  destruct (Nat.ltb_spec (length forms) 6); [lia|].
  destruct (mapM _ (seq 0 6)) as [rows|] eqn:Hrows; [|done].
  apply mapM_Some_1 in Hrows.
  destruct (Forall2_lookup_l _ _ _ i i Hrows) as (row & _ & Hrow).
  { by apply lookup_seq. }
  cbn beta zeta in Hrow. rewrite Hurl in Hrow. by destruct tenseKey.
Qed.

(** A cell with at least six forms, in the passé simple or when the audio
    link of each of the first six forms can be built (no [URIError]), has
    six rows; row [i] spells the [i]-th form, character by character, and
    the characters under the prefix shared by all the forms are classified
    as stem in every row; forms after the sixth are not rendered. *)
Theorem buildTenseCell_rows (toLowerCase normalizeNFD : jsstring → jsstring)
    (w : jsstring) (pr : list jsstring) (tenseKey : ShortKey) (forms : list jsstring) :
  6 ≤ length forms →
  tenseKey = K_ps
  ∨ (∀ i, i < 6 →
       is_Some (makeAudioFrenchUrl toLowerCase normalizeNFD w i
                  (default [] (forms !! i)))) →
  ∃ rows,
    buildTenseCell toLowerCase normalizeNFD w pr tenseKey forms = Some (Cell rows)
    ∧ length rows = 6
    ∧ ∀ i row, rows !! i = Some row →
        forms !! i = Some (html_text row)
        ∧ ∀ j, j < length (applyBlackUnionRules toLowerCase forms) →
            char_classes None row !! j = Some (Some black).
Proof.
  intros Hlen Haudio. unfold buildTenseCell.
  destruct (Nat.ltb_spec (length forms) 6); [lia|].
  set (stems := Some _).
  rewrite (mapM_Some_fmap _
             (fun i => colorizeForm toLowerCase (default [] (forms !! i))
                         (applyBlackUnionRules toLowerCase forms) (linguisticStem w)
                         (bestExpectedMask (default [] (forms !! i))
                            (expectedRegularVariants toLowerCase w (tenseMap tenseKey)
                               i stems)))).
  2:{ intros i [_ Hi]%elem_of_seq.
      destruct Haudio as [->|Haudio]; [done|].
      destruct (Haudio i ltac:(lia)) as [url ->].
      by destruct tenseKey. }
  cbn [mbind option_bind].
  eexists. split; [reflexivity|]. split; [by rewrite length_fmap, length_seq|].
  intros i row Hrow.
  rewrite list_lookup_fmap in Hrow.
  destruct (seq 0 6 !! i) as [i'|] eqn:Hi; [|done].
  apply lookup_seq in Hi as [-> Hi]. cbn [Nat.add fmap option_fmap option_map] in Hrow.
  injection Hrow as <-.
  destruct (lookup_lt_is_Some_2 forms i) as [form Hform]; [lia|].
  rewrite Hform. cbn [default]. split.
  - by rewrite colorizeForm_text.
  - intros j Hj. apply ci_prefix_black; [|done].
    apply applyBlackUnionRules_ci. by eapply list_elem_of_lookup_2.
Qed.

Lemma buildTenseCell_rows_witness :
  ∃ rows,
    buildTenseCell latin1Lower id (u "parler") parler_six K_pr parler_six
    = Some (Cell rows)
    ∧ length rows = 6
    ∧ ∀ i row, rows !! i = Some row →
        parler_six !! i = Some (html_text row)
        ∧ ∀ j, j < length (applyBlackUnionRules latin1Lower parler_six) →
            char_classes None row !! j = Some (Some black).
Proof.
  apply (buildTenseCell_rows latin1Lower id (u "parler") parler_six K_pr parler_six).
  - simpl. lia.
  - right. intros i Hi.
    do 6 (destruct i as [|i]; [vm_compute; by eexists|]). lia.
Defined.

Lemma colorizeForm_no_mask (toLowerCase : jsstring → jsstring) form sharedPrefix stem :
  Forall (fun c => c = Some black ∨ c = Some normal)
    (char_classes None (colorizeForm toLowerCase form sharedPrefix stem None)).
Proof.
  rewrite colorizeForm_classes. apply Forall_fmap, Forall_forall. intros i _.
  simpl. unfold nextMode. destruct (flag _ i); auto.
Qed.

Lemma colorizeForm_self_prefix (toLowerCase : jsstring → jsstring) form stem mask :
  Forall (fun c => c = Some black)
    (char_classes None (colorizeForm toLowerCase form form stem mask)).
Proof.
  apply Forall_lookup. intros i c Hc.
  assert (i < length form) as Hi.
  { apply lookup_lt_Some in Hc.
    by rewrite colorizeForm_classes, length_fmap, length_seq in Hc. }
  rewrite ci_prefix_black in Hc; [congruence| |done].
  by apply ci_prefix_refl_prefix.
Qed.

(** Participles are coloured without a deviation mask: no character of a
    participle is ever classified irregular; a participle is rendered
    exactly when it is non-empty; and when only one of the two is present
    it is its own shared prefix, so all of it is classified as stem. *)
Theorem buildParticiplesCell_classes (toLowerCase : jsstring → jsstring)
    (w pres past : jsstring) :
  let cell := buildParticiplesCell toLowerCase w pres past in
  (cell.1 = None ↔ pres = []) ∧ (cell.2 = None ↔ past = [])
  ∧ (∀ out, cell.1 = Some out ∨ cell.2 = Some out →
       Forall (fun c => c = Some black ∨ c = Some normal) (char_classes None out))
  ∧ (past = [] → ∀ out, cell.1 = Some out →
       html_text out = pres ∧ Forall (fun c => c = Some black) (char_classes None out))
  ∧ (pres = [] → ∀ out, cell.2 = Some out →
       html_text out = past ∧ Forall (fun c => c = Some black) (char_classes None out)).
Proof.
  intros cell. unfold cell, buildParticiplesCell. cbn [fst snd].
  split_and!.
  - by destruct pres.
  - by destruct past.
  - intros out [H|H].
    + destruct (truthy pres); [|done]. injection H as <-. apply colorizeForm_no_mask.
    + destruct (truthy past); [|done]. injection H as <-. apply colorizeForm_no_mask.
  - intros -> out H. destruct pres as [|c pres]; [done|].
    cbn [truthy] in H. injection H as <-.
    change (filter _ [c :: pres; []]) with [c :: pres].
    cbn [applyBlackUnionRules applyBlackUnionRules_loop].
    split; [apply colorizeForm_text|apply colorizeForm_self_prefix].
  - intros -> out H. destruct past as [|c past]; [done|].
    cbn [truthy] in H. injection H as <-.
    change (filter _ [[]; c :: past]) with [c :: past].
    cbn [applyBlackUnionRules applyBlackUnionRules_loop].
    split; [apply colorizeForm_text|apply colorizeForm_self_prefix].
Qed.

(** ** [escapeHtml] *)

Lemma replaceAll1_app c r s t :
  replaceAll1 c r (s ++ t) = replaceAll1 c r s ++ replaceAll1 c r t.
Proof. unfold replaceAll1. apply bind_app. Qed.

Lemma escapeHtml_app s t : escapeHtml (s ++ t) = escapeHtml s ++ escapeHtml t.
Proof. unfold escapeHtml. by rewrite !replaceAll1_app. Qed.

Lemma escapeHtml_unit c : escapeHtml [c] = escape_unit c.
Proof.
  unfold escape_unit.
  destruct (decide (c = 38%N)) as [->|H38]; [done|].
  destruct (decide (c = 60%N)) as [->|H60]; [done|].
  destruct (decide (c = 62%N)) as [->|H62]; [done|].
  destruct (decide (c = 34%N)) as [->|H34]; [done|].
  destruct (decide (c = 39%N)) as [->|H39]; [done|].
  rewrite !bool_decide_eq_false_2 by done.
  unfold escapeHtml, replaceAll1.
  repeat (cbn [mbind list_bind app]; rewrite bool_decide_eq_false_2 by done).
  done.
Qed.

Lemma escapeHtml_bind s : escapeHtml s = s ≫= escape_unit.
Proof.
  induction s as [|c s IH]; [done|].
  change (c :: s) with ([c] ++ s) at 1.
  rewrite escapeHtml_app, escapeHtml_unit, IH. done.
Qed.

(** The five passes of [escapeHtml] never escape twice: the result is the
    concatenation of the entities of the units, so escaping distributes
    over concatenation. *)
Theorem escapeHtml_unit_by_unit (s t : jsstring) :
  escapeHtml s = s ≫= escape_unit
  ∧ escapeHtml (s ++ t) = escapeHtml s ++ escapeHtml t.
Proof. split; [apply escapeHtml_bind|apply escapeHtml_app]. Qed.

Lemma escape_unit_clean c :
  Forall (fun x => x ∉ [60; 62; 34; 39]%N) (escape_unit c).
Proof.
  unfold escape_unit.
  repeat (case_bool_decide; [apply (bool_decide_unpack _); by vm_compute|]).
  constructor; [|constructor].
  intros Hin. repeat (apply elem_of_cons in Hin as [Hin|Hin]; [done|]).
  by apply not_elem_of_nil in Hin.
Qed.

(** The result of [escapeHtml] holds no angle bracket, no double quote and
    no apostrophe. *)
Theorem escapeHtml_no_markup (text : jsstring) :
  Forall (fun x => x ∉ [60; 62; 34; 39]%N) (escapeHtml text).
Proof.
  rewrite escapeHtml_bind. induction text as [|c s IH]; [constructor|].
  cbn [mbind list_bind]. apply Forall_app. split; [apply escape_unit_clean|exact IH].
Qed.

(** The entities form a prefix code. *)
Lemma escape_unit_prefix_free c d (A B : jsstring) :
  escape_unit c ++ A = escape_unit d ++ B → c = d ∧ A = B.
Proof.
  unfold escape_unit.
  repeat case_bool_decide; subst; cbn [app amp_entity lt_entity gt_entity quot_entity
                                       apos_entity];
    intros Heq; simplify_eq; done.
Qed.

(** [escapeHtml] loses nothing: two texts with the same escaped form are
    equal. *)
Theorem escapeHtml_injective (s t : jsstring) :
  escapeHtml s = escapeHtml t → s = t.
Proof.
  rewrite !escapeHtml_bind. revert t.
  induction s as [|c s IH]; intros [|d t]; cbn [mbind list_bind].
  - done.
  - intros Heq. symmetry in Heq. apply app_eq_nil in Heq as [Heq _].
    unfold escape_unit in Heq. by repeat case_bool_decide.
  - intros Heq. apply app_eq_nil in Heq as [Heq _].
    unfold escape_unit in Heq. by repeat case_bool_decide.
  - intros [-> H]%escape_unit_prefix_free. f_equal. by apply IH.
Qed.

Lemma escapeHtml_injective_witness : u "a<b" = u "a<b".
Proof. apply (escapeHtml_injective (u "a<b") (u "a<b")). reflexivity. Defined.

(** ** The IPA labels *)

Lemma elem_of_dropWhileB p s x : x ∈ dropWhileB p s → x ∈ s.
Proof.
  induction s as [|y s IH]; cbn [dropWhileB]; [done|].
  destruct (p y); [|done]. intros H. right. by apply IH.
Qed.

Lemma elem_of_takeWhileB p s x : x ∈ takeWhileB p s → p x = true.
Proof.
  induction s as [|y s IH]; cbn [takeWhileB]; [by intros ?%not_elem_of_nil|].
  destruct (p y) eqn:Hy; [|by intros ?%not_elem_of_nil].
  intros [->|H]%elem_of_cons; [done|by apply IH].
Qed.

(** The label returned by [extractIpaEnding] never holds a space; and when
    the IPA, stripped of its brackets and backslashes, holds neither a
    space nor a liaison tie, the label has at most two units. *)
Theorem extractIpaEnding_label (ipa : jsstring) :
  (32%N ∉ extractIpaEnding ipa)
  ∧ (32%N ∉ ipa_core ipa → 8255%N ∉ ipa_core ipa →
     length (extractIpaEnding ipa) ≤ 2).
Proof.
  unfold extractIpaEnding. destruct (truthy ipa); cbn [negb].
  2:{ split; [apply not_elem_of_nil|simpl; lia]. }
  set (s := ipa_core ipa). split.
  - case_bool_decide as Hsp.
    + intros H%elem_of_takeWhileB. by vm_compute in H.
    + case_bool_decide as Htie.
      * intros H%elem_of_dropWhileB. done.
      * destruct (2 <? length s); [|done].
        intros H. apply Hsp. by eapply subseteq_drop.
  - intros Hsp Htie.
    rewrite bool_decide_eq_false_2, bool_decide_eq_false_2 by done.
    destruct (Nat.ltb_spec 2 (length s)); [|lia].
    rewrite length_drop. lia.
Qed.

Lemma dropWhileB_id p s :
  (∀ c, head s = Some c → p c = false) → dropWhileB p s = s.
Proof. destruct s as [|x s]; [done|]. intros H. cbn. by rewrite (H x). Qed.

Lemma trim_id s :
  (∀ c, head s = Some c → is_js_space c = false) →
  (∀ c, last s = Some c → is_js_space c = false) →
  trim s = s.
Proof.
  intros Hh Hl. unfold trim. rewrite (dropWhileB_id _ s) by done.
  rewrite dropWhileB_id; [apply reverse_involutive|].
  intros c. rewrite head_reverse. apply Hl.
Qed.

Lemma strip_trailing_run_id c s :
  (∀ x, last s = Some x → x ≠ c) → strip_trailing_run c s = s.
Proof.
  intros Hl. unfold strip_trailing_run.
  rewrite dropWhileB_id; [apply reverse_involutive|].
  intros x. rewrite head_reverse. intros Hx. apply bool_decide_eq_false_2. by apply Hl.
Qed.

Lemma strip_leading_run_id c s :
  (∀ x, head s = Some x → x ≠ c) → strip_leading_run c s = s.
Proof.
  intros Hh. unfold strip_leading_run. apply dropWhileB_id.
  intros x Hx. apply bool_decide_eq_false_2. by apply Hh.
Qed.

Lemma strip_trailing_snoc c s d :
  strip_trailing c (s ++ [d]) = if bool_decide (d = c) then s else s ++ [d].
Proof.
  unfold strip_trailing. rewrite reverse_snoc.
  destruct (bool_decide (d = c)); [apply reverse_involutive|done].
Qed.

Lemma strip_trailing_run_snoc c s :
  strip_trailing_run c (s ++ [c]) = strip_trailing_run c s.
Proof.
  unfold strip_trailing_run. rewrite reverse_snoc. cbn [dropWhileB].
  by rewrite bool_decide_eq_true_2.
Qed.

(** [extractIpaFull] gives back what stands between two backslashes, or
    between square brackets, when that text neither begins nor ends with a
    backslash or white space. *)
Theorem extractIpaFull_delimited (x : jsstring) :
  (∀ c, head x = Some c → c ≠ 92%N ∧ is_js_space c = false) →
  (∀ c, last x = Some c → c ≠ 92%N ∧ is_js_space c = false) →
  extractIpaFull (92%N :: x ++ [92%N]) = x
  ∧ extractIpaFull (91%N :: x ++ [93%N]) = x.
Proof.
  intros Hh Hl.
  assert (trim x = x) as Htrim.
  { apply trim_id; intros c Hc; [by apply Hh|by apply Hl]. }
  assert (strip_trailing_run 92 (strip_leading_run 92 x) = x) as Hcore.
  { rewrite strip_leading_run_id by (intros c Hc; by apply Hh).
    apply strip_trailing_run_id. intros c Hc. by apply Hl. }
  unfold extractIpaFull, ipa_core. cbn [truthy negb]. split.
  - cbn [strip_leading]. rewrite bool_decide_eq_false_2 by done.
    rewrite app_comm_cons, strip_trailing_snoc, bool_decide_eq_false_2 by done.
    rewrite <- app_comm_cons.
    unfold strip_leading_run at 1. cbn [dropWhileB].
    rewrite bool_decide_eq_true_2 by done. fold (strip_leading_run 92 (x ++ [92%N])).
    destruct x as [|c x]; [done|].
    rewrite (strip_leading_run_id 92 ((c :: x) ++ [92%N]))
      by (intros y [= <-]; by apply (Hh c)).
    rewrite strip_trailing_run_snoc.
    rewrite strip_trailing_run_id by (intros y Hy; by apply Hl). done.
  - cbn [strip_leading]. rewrite bool_decide_eq_true_2 by done.
    rewrite strip_trailing_snoc, bool_decide_eq_true_2 by done.
    by rewrite Hcore.
Qed.

Lemma extractIpaFull_delimited_witness :
  extractIpaFull (92%N :: u "parle" ++ [92%N]) = u "parle"
  ∧ extractIpaFull (91%N :: u "parle" ++ [93%N]) = u "parle".
Proof.
  apply (extractIpaFull_delimited (u "parle")).
  - intros c [= <-]. by vm_compute.
  - intros c [= <-]. by vm_compute.
Defined.

(** ** The search suggestions *)

Section SearchProps.
Variable toLowerCase : jsstring → jsstring.
Variable normalizeNFD : jsstring → jsstring.

Local Abbreviation norm := (normalizeFrench toLowerCase normalizeNFD).

(** Leaving the loop early does not change what [suggest] returns. *)
Lemma suggest_loop_spec q limit words :
  ∀ starts includes_,
    (let '(s, i) := suggest_loop toLowerCase normalizeNFD q limit words starts includes_ in
     if limit <=? length s then take limit s else take limit (s ++ i))
    = take limit
        ((starts ++ filter (fun w => startsWith (norm w) q = true) words)
         ++ (includes_
             ++ filter (fun w => startsWith (norm w) q = false
                                 ∧ includes (norm w) q = true) words)).
Proof.
  induction words as [|w rest IH]; intros starts includes_.
  - cbn [suggest_loop]. rewrite !filter_nil, !app_nil_r.
    destruct (Nat.leb_spec limit (length starts)); [|done].
    by rewrite take_app_le.
  - cbn [suggest_loop]. rewrite !(filter_cons _ w).
    destruct (startsWith (norm w) q) eqn:Hs.
    + rewrite decide_True, decide_False by (done || by intros [? _]).
      destruct (Nat.leb_spec limit (length (starts ++ [w]))) as [Hl|Hl].
      * replace ((starts ++ w :: filter (fun w => startsWith (norm w) q = true) rest)
                 ++ (includes_
                     ++ filter (fun w => startsWith (norm w) q = false
                                         ∧ includes (norm w) q = true) rest))
          with ((starts ++ [w])
                ++ (filter (fun w => startsWith (norm w) q = true) rest
                    ++ (includes_
                        ++ filter (fun w => startsWith (norm w) q = false
                                            ∧ includes (norm w) q = true) rest)))
          by (by rewrite <- !app_assoc).
        rewrite (proj2 (Nat.leb_le _ _) Hl).
        by rewrite (take_app_le (starts ++ [w])) by done.
      * rewrite IH. f_equal. by rewrite <- !app_assoc.
    + rewrite decide_False by done.
      destruct (includes (norm w) q) eqn:Hi.
      * rewrite decide_True by done.
        destruct (Nat.leb_spec limit (length starts)) as [Hl|Hl].
        -- rewrite ?(proj2 (Nat.leb_le _ _) Hl), <- !app_assoc.
           by rewrite (take_app_le starts) by done.
        -- rewrite IH. f_equal. by rewrite <- !app_assoc.
      * rewrite decide_False by (by intros [_ ?]).
        destruct (Nat.leb_spec limit (length starts)) as [Hl|Hl].
        -- rewrite ?(proj2 (Nat.leb_le _ _) Hl), <- !app_assoc.
           by rewrite (take_app_le starts) by done.
        -- by rewrite IH.
Qed.

(** [suggest] returns nothing for a query that is empty once normalised;
    otherwise it returns the first [limit] words of the list made of the
    words whose normalised form starts with the query, in their order,
    followed by the other words whose normalised form contains it. *)
Theorem suggest_spec (words : list jsstring) (query : jsstring) (limit : nat) :
  let q := norm (trim query) in
  suggest toLowerCase normalizeNFD words query limit
  = if truthy q
    then take limit
           (filter (fun w => startsWith (norm w) q = true) words
            ++ filter (fun w => startsWith (norm w) q = false
                                ∧ includes (norm w) q = true) words)
    else [].
Proof.
  intros q. unfold suggest. fold q.
  destruct (truthy q); cbn [negb]; [|done].
  apply (suggest_loop_spec q limit words [] []).
Qed.
End SearchProps.

(** ** The suggestions of the search index *)

Lemma push_fresh st s :
  Suggestion.w s ∉ seen st →
  push st s = mkSearch (suggestions st ++ [s]) (seen st ++ [Suggestion.w s]).
Proof. intros Hn. unfold push. by rewrite bool_decide_eq_false_2. Qed.

Lemma hit_exact_form_w q e s :
  hit_exact_form q e = Some s → Suggestion.w s = Entry.w e.
Proof.
  unfold hit_exact_form.
  destruct (list_find _ _) as [[idx f]|]; [|done]. by intros [= <-].
Qed.

Lemma hit_prefix_w q e s : hit_prefix q e = Some s → Suggestion.w s = Entry.w e.
Proof. unfold hit_prefix. destruct (startsWith _ _); [|done]. by intros [= <-]. Qed.

Lemma hit_contains_w q e s : hit_contains q e = Some s → Suggestion.w s = Entry.w e.
Proof. unfold hit_contains. destruct (includes _ _); [|done]. by intros [= <-]. Qed.

Lemma hit_forms_w q e s : hit_forms q e = Some s → Suggestion.w s = Entry.w e.
Proof. unfold hit_forms. destruct (includes _ _); [|done]. by intros [= <-]. Qed.

(** The first loop is a search for the first entry whose normalised
    infinitive is the query. *)
Lemma exact_loop_find q entries st :
  exact_loop q entries st
  = match list_find (fun e => Entry.norm e = q) entries with
    | Some (_, e) => push st (Suggestion.mk (Entry.w e) note_infinitif None)
    | None => st
    end.
Proof.
  induction entries as [|e rest IH]; [done|].
  cbn [exact_loop list_find]. case_bool_decide as Hq.
  - by rewrite decide_True by done.
  - rewrite decide_False by done. rewrite IH.
    by destruct (list_find _ rest) as [[k e']|].
Qed.

Section ScanInvariant.
Variable toLowerCase : jsstring → jsstring.
Variable normalizeNFD : jsstring → jsstring.
Variable limit : nat.
Variable entries : list Entry.t.
Variable I : Search → Prop.
Variable R : list Suggestion.t → Prop.

(** What a push of a fresh word must keep: the property of the returned
    array when the limit is reached, the invariant otherwise. *)
Hypothesis step : ∀ st e s,
  I st → e ∈ entries → Entry.w e ∉ seen st → Suggestion.w s = Entry.w e →
  if limit <=? length (suggestions (push st s))
  then R (suggestions (push st s)) else I (push st s).

Lemma scan_inv hit es st :
  (∀ e s, hit e = Some s → Suggestion.w s = Entry.w e) →
  (∀ e, e ∈ es → e ∈ entries) →
  I st →
  match scan hit limit es st with inl out => R out | inr st' => I st' end.
Proof.
  intros Hhit. revert st.
  induction es as [|e rest IH]; intros st Hes Hst; [done|].
  assert (Hrest : ∀ e', e' ∈ rest → e' ∈ entries)
    by (intros e' He'; apply Hes; by right).
  cbn [scan]. case_bool_decide as Hseen; [by apply IH|].
  destruct (hit e) as [s|] eqn:Hh; [|by apply IH].
  pose proof (step st e s Hst (Hes e ltac:(left)) Hseen (Hhit _ _ Hh)) as Hstep.
  destruct (limit <=? length (suggestions (push st s))); [done|].
  by apply IH.
Qed.

Lemma computeSuggestions_inv query :
  let q := normalizeFrench toLowerCase normalizeNFD (trim query) in
  truthy q = true →
  I (exact_loop q entries (mkSearch [] [])) →
  (∀ st, I st → R (suggestions st)) →
  R (computeSuggestions toLowerCase normalizeNFD entries query limit).
Proof.
  intros q Hq Hinit Hfinal. unfold computeSuggestions. fold q.
  rewrite Hq. cbn [negb].
  set (st0 := exact_loop q entries (mkSearch [] [])) in *.
  assert (H1 : match (if length (suggestions st0) <? limit
                      then scan (hit_exact_form q) limit entries st0
                      else inr st0)
               with inl out => R out | inr st' => I st' end).
  { destruct (length (suggestions st0) <? limit); [|done].
    apply scan_inv; [apply hit_exact_form_w|done|done]. }
  destruct (if length (suggestions st0) <? limit then _ else _) as [out|st1];
    cbn [and_then]; [done|].
  pose proof (scan_inv (hit_prefix q) entries st1 (hit_prefix_w q)
                ltac:(done) H1) as H2.
  destruct (scan (hit_prefix q) limit entries st1) as [out|st2];
    cbn [and_then]; [done|].
  pose proof (scan_inv (hit_contains q) entries st2 (hit_contains_w q)
                ltac:(done) H2) as H3.
  destruct (scan (hit_contains q) limit entries st2) as [out|st3];
    cbn [and_then]; [done|].
  pose proof (scan_inv (hit_forms q) entries st3 (hit_forms_w q)
                ltac:(done) H3) as H4.
  destruct (scan (hit_forms q) limit entries st3) as [out|st4]; [done|].
  by apply Hfinal.
Qed.
End ScanInvariant.

Section SuggestionsProps.
Variable toLowerCase : jsstring → jsstring.
Variable normalizeNFD : jsstring → jsstring.


(** No word is suggested twice, and every suggested word is the infinitive
    of an entry of the index. *)
Theorem computeSuggestions_distinct (entries : list Entry.t) (query : jsstring)
    (limit : nat) :
  let out := computeSuggestions toLowerCase normalizeNFD entries query limit in
  NoDup (Suggestion.w <$> out)
  ∧ ∀ s, s ∈ out → ∃ e, e ∈ entries ∧ Suggestion.w s = Entry.w e.
Proof.
  intros out. subst out.
  destruct (truthy (normalizeFrench toLowerCase normalizeNFD (trim query))) eqn:Hq.
  - apply (computeSuggestions_inv toLowerCase normalizeNFD limit entries
             (fun st => seen st = Suggestion.w <$> suggestions st
                        ∧ NoDup (seen st)
                        ∧ ∀ s, s ∈ suggestions st →
                               ∃ e, e ∈ entries ∧ Suggestion.w s = Entry.w e)
             (fun out => NoDup (Suggestion.w <$> out)
                         ∧ ∀ s, s ∈ out →
                                ∃ e, e ∈ entries ∧ Suggestion.w s = Entry.w e));
      [|done| |].
    + intros st e s (Hseen & Hnd & Hfrom) He Hfresh Hw.
      assert (Hpush : seen (push st s) = Suggestion.w <$> suggestions (push st s)
                      ∧ NoDup (seen (push st s))
                      ∧ ∀ s', s' ∈ suggestions (push st s) →
                              ∃ e, e ∈ entries ∧ Suggestion.w s' = Entry.w e).
      { rewrite push_fresh by by rewrite Hw. cbn [suggestions seen].
        split; [by rewrite fmap_app, Hseen|]. split.
        - apply NoDup_app. split; [done|]. split; [|apply NoDup_singleton].
          intros x Hx ->%list_elem_of_singleton. apply Hfresh. by rewrite <- Hw.
        - intros s' [Hs'| ->%list_elem_of_singleton]%elem_of_app; [by apply Hfrom|].
          by exists e. }
      destruct (limit <=? _); [|done].
      destruct Hpush as (Hs & Hn & Hf). split; [by rewrite <- Hs|done].
    + rewrite exact_loop_find.
      destruct (list_find _ entries) as [[k e]|] eqn:Hfind.
      * apply list_find_Some in Hfind as (Hk & _ & _).
        apply list_elem_of_lookup_2 in Hk.
        rewrite push_fresh by (cbn; apply not_elem_of_nil). cbn.
        split; [done|]. split; [apply NoDup_singleton|].
        intros s ->%list_elem_of_singleton. by exists e.
      * cbn. split; [done|]. split; [apply NoDup_nil_2|].
        by intros s ?%elem_of_nil.
    + intros st (Hs & Hn & Hf). split; [by rewrite <- Hs|done].
  - unfold computeSuggestions. rewrite Hq. cbn. split; [apply NoDup_nil_2|].
    by intros s ?%elem_of_nil.
Qed.

Local Abbreviation norm := (normalizeFrench toLowerCase normalizeNFD).

(** An entry whose normalised infinitive is the query heads the
    suggestions: the first such entry of the index is the first
    suggestion, with the note of an infinitive and no form. *)
Theorem computeSuggestions_exact_first (entries : list Entry.t)
    (query : jsstring) (limit k : nat) (e : Entry.t) :
  truthy (norm (trim query)) = true →
  entries !! k = Some e →
  Entry.norm e = norm (trim query) →
  (∀ j e', entries !! j = Some e' → j < k → Entry.norm e' ≠ norm (trim query)) →
  head (computeSuggestions toLowerCase normalizeNFD entries query limit)
  = Some (Suggestion.mk (Entry.w e) note_infinitif None).
Proof.
  intros Hq Hk He Hfirst.
  apply (computeSuggestions_inv toLowerCase normalizeNFD limit entries
           (fun st => head (suggestions st)
                      = Some (Suggestion.mk (Entry.w e) note_infinitif None))
           (fun out => head out
                       = Some (Suggestion.mk (Entry.w e) note_infinitif None)));
    [|done| |done].
  - intros st e' s Hst _ Hfresh Hw.
    assert (Hpush : head (suggestions (push st s))
                    = Some (Suggestion.mk (Entry.w e) note_infinitif None)).
    { unfold push. cbn [suggestions].
      destruct (suggestions st) as [|s0 l]; [done|]. exact Hst. }
    by destruct (limit <=? _).
  - rewrite exact_loop_find.
    assert (Hfind : list_find (fun e => Entry.norm e = norm (trim query)) entries
                    = Some (k, e)) by (apply list_find_Some; eauto).
    by rewrite Hfind.
Qed.


(** With a limit of zero or one the limit is exceeded: an entry whose
    normalised infinitive is the query is pushed without a check, the loop
    on the forms is skipped, and the next entry whose infinitive starts
    with the query is pushed before the limit is looked at. *)
Theorem computeSuggestions_over_limit (e1 e2 : Entry.t) (rest : list Entry.t)
    (query : jsstring) (limit : nat) :
  truthy (norm (trim query)) = true →
  Entry.norm e1 = norm (trim query) →
  startsWith (Entry.norm e2) (norm (trim query)) = true →
  Entry.w e2 ≠ Entry.w e1 →
  limit ≤ 1 →
  computeSuggestions toLowerCase normalizeNFD (e1 :: e2 :: rest) query limit
  = [Suggestion.mk (Entry.w e1) note_infinitif None;
     Suggestion.mk (Entry.w e2) note_infinitif None].
Proof.
  intros Hq H1 H2 Hne Hl. unfold computeSuggestions. rewrite Hq. cbn [negb].
  cbn [exact_loop]. rewrite bool_decide_eq_true_2 by done.
  rewrite push_fresh by (cbn; apply not_elem_of_nil).
  cbn [suggestions seen app length Suggestion.w].
  destruct (Nat.ltb_spec 1 limit) as [?|_]; [lia|]. cbn [and_then scan seen].
  rewrite bool_decide_eq_true_2 by by left.
  rewrite bool_decide_eq_false_2
    by (by intros ?%list_elem_of_singleton).
  unfold hit_prefix at 1. rewrite H2.
  rewrite push_fresh by (cbn; by intros ?%list_elem_of_singleton).
  cbn [suggestions seen app length].
  destruct (Nat.leb_spec limit 2) as [_|?]; [done|lia].
Qed.

End SuggestionsProps.

Lemma computeSuggestions_exact_first_witness :
  head (computeSuggestions latin1Lower id [manger_entry; parler_entry]
          (u " Parler ") 10)
  = Some (Suggestion.mk (u "parler") note_infinitif None).
Proof.
  apply (computeSuggestions_exact_first latin1Lower id
           [manger_entry; parler_entry] (u " Parler ") 10 1 parler_entry).
  - by vm_compute.
  - reflexivity.
  - by vm_compute.
  - intros j e' Hj Hlt. assert (j = 0) as -> by lia.
    injection Hj as <-. by vm_compute.
Defined.


Lemma computeSuggestions_over_limit_witness :
  computeSuggestions latin1Lower id
    [parler_entry; Entry.mk (u "parlerie") (u "parlerie") [] [] []]
    (u "parler") 1
  = [Suggestion.mk (u "parler") note_infinitif None;
     Suggestion.mk (u "parlerie") note_infinitif None].
Proof.
  apply (computeSuggestions_over_limit latin1Lower id parler_entry
           (Entry.mk (u "parlerie") (u "parlerie") [] [] []) [] (u "parler") 1).
  - by vm_compute.
  - by vm_compute.
  - by vm_compute.
  - by vm_compute.
  - lia.
Defined.

